(** * tasmota-exporter: the outlet registry parser and the metric collector

    A shallow embedding of [main.go]: [parseOutlets], [probeTasmota],
    [TasmotaCollector.Describe] and [TasmotaCollector.Collect], and [main],
    together with the parts of the Go standard library and of the Prometheus
    client they rest on: [strings.TrimSpace] and [strings.Split] with the rune
    decoders of [unicode/utf8], the struct decoder of [encoding/json], and the
    gauge vectors, whose children are shared by all the calls of [Collect]
    that run at a time and whose [WithLabelValues] panics on a label value
    that is not valid UTF-8.

    The requests to [/metrics] are served concurrently: a state holds the
    gauges and one call of [Collect] for each request in flight, and a
    schedule interleaves the goroutines of all of them. *)

From Stdlib Require Import PrimFloat.
From Stdlib Require Import ZArith List String Ascii Bool Lia.
From stdpp Require Import gmap strings.
Import ListNotations.

Set Warnings "-inexact-float,-register-all".
Local Open Scope string_scope.
Local Open Scope list_scope.
Local Open Scope Z_scope.

(** ** Go strings

    A Go [string] is a sequence of bytes; nothing makes it valid UTF-8.  String
    literals are read as their bytes. *)

Abbreviation bytes := (list ascii).

Coercion list_ascii_of_string : string >-> list.

Definition b2z (c : ascii) : Z := Z.of_N (N_of_ascii c).

(** [s[i]] as a number; the callers below stay in range. *)
Definition at_ (s : bytes) (i : nat) : Z := b2z (nth i s Ascii.zero).

Definition is_empty (s : bytes) : bool :=
  match s with [] => true | _ :: _ => false end.

(** ** unicode/utf8 *)

Module utf8.

Definition RuneError : Z := 0xFFFD.
Definition RuneSelf : Z := 0x80.
Definition UTFMax : nat := 4.

Definition maskx : Z := 0x3F.
Definition mask2 : Z := 0x1F.
Definition mask3 : Z := 0x0F.
Definition mask4 : Z := 0x07.

Definition locb : Z := 0x80.
Definition hicb : Z := 0xBF.

Definition xx : Z := 0xF1.
Definition as_ : Z := 0xF0.
Definition s1 : Z := 0x02.
Definition s2 : Z := 0x13.
Definition s3 : Z := 0x03.
Definition s4 : Z := 0x23.
Definition s5 : Z := 0x34.
Definition s6 : Z := 0x04.
Definition s7 : Z := 0x44.

(** The table [first], row by row: 0x00-0x7F, 0x80-0xBF, 0xC0-0xC1,
    0xC2-0xDF, 0xE0, 0xE1-0xEC, 0xED, 0xEE-0xEF, 0xF0, 0xF1-0xF3, 0xF4,
    0xF5-0xFF. *)
Definition first (b : Z) : Z :=
  if b <? 0x80 then as_
  else if b <? 0xC2 then xx
  else if b <? 0xE0 then s1
  else if b =? 0xE0 then s2
  else if b <? 0xED then s3
  else if b =? 0xED then s4
  else if b <? 0xF0 then s3
  else if b =? 0xF0 then s5
  else if b <? 0xF4 then s6
  else if b =? 0xF4 then s7
  else xx.

Definition acceptRanges (i : Z) : Z * Z :=
  match i with
  | 0 => (locb, hicb)
  | 1 => (0xA0, hicb)
  | 2 => (locb, 0x9F)
  | 3 => (0x90, hicb)
  | 4 => (locb, 0x8F)
  | _ => (0, 0)
  end.

Definition RuneStart (b : Z) : bool := negb (Z.land b 0xC0 =? 0x80).

(** The rune at the head of [s] and its width in bytes. *)
Definition DecodeRuneInString (s : bytes) : Z * nat :=
  let n := length s in
  if (n <? 1)%nat then (RuneError, 0%nat) else
  let s0 := at_ s 0 in
  let x := first s0 in
  if as_ <=? x then
    (* rune(x) << 31 >> 31 on int32: all ones when the low bit is set *)
    let mask := if Z.odd x then -1 else 0 in
    (Z.lor (Z.land s0 (Z.lnot mask)) (Z.land RuneError mask), 1%nat)
  else
  let sz := Z.to_nat (Z.land x 7) in
  let accept := acceptRanges (Z.shiftr x 4) in
  if (n <? sz)%nat then (RuneError, 1%nat) else
  let s1 := at_ s 1 in
  if (s1 <? fst accept) || (snd accept <? s1) then (RuneError, 1%nat) else
  if (sz <=? 2)%nat then
    (Z.lor (Z.shiftl (Z.land s0 mask2) 6) (Z.land s1 maskx), 2%nat)
  else
  let s2 := at_ s 2 in
  if (s2 <? locb) || (hicb <? s2) then (RuneError, 1%nat) else
  if (sz <=? 3)%nat then
    (Z.lor (Z.lor (Z.shiftl (Z.land s0 mask3) 12) (Z.shiftl (Z.land s1 maskx) 6))
           (Z.land s2 maskx), 3%nat)
  else
  let s3 := at_ s 3 in
  if (s3 <? locb) || (hicb <? s3) then (RuneError, 1%nat) else
  (Z.lor (Z.lor (Z.lor (Z.shiftl (Z.land s0 mask4) 18) (Z.shiftl (Z.land s1 maskx) 12))
                (Z.shiftl (Z.land s2 maskx) 6))
         (Z.land s3 maskx), 4%nat).

(** The loop of [DecodeLastRuneInString] that walks [start] back to a byte
    that can start a rune, no further than [lim]. *)
Fixpoint backToRuneStart (fuel : nat) (s : bytes) (lim start : Z) : Z :=
  match fuel with
  | O => start
  | S fuel' =>
      if start <? lim then start
      else if RuneStart (at_ s (Z.to_nat start)) then start
      else backToRuneStart fuel' s lim (start - 1)
  end.

(** The rune at the end of [s] and its width in bytes. *)
Definition DecodeLastRuneInString (s : bytes) : Z * nat :=
  let end_ := Z.of_nat (length s) in
  if end_ =? 0 then (RuneError, 0%nat) else
  let start := end_ - 1 in
  let r := at_ s (Z.to_nat start) in
  if r <? RuneSelf then (r, 1%nat) else
  let lim := Z.max 0 (end_ - Z.of_nat UTFMax) in
  let start := backToRuneStart (S UTFMax) s lim (start - 1) in
  let start := Z.max 0 start in
  let '(r, size) := DecodeRuneInString (skipn (Z.to_nat start) s) in
  if start + Z.of_nat size =? end_ then (r, size) else (RuneError, 1%nat).

(** [ValidString].  Its fast path skips the ASCII bytes eight at a time:
    [rest] is what is left of the string when the first loop ends. *)
Fixpoint skipASCII8 (fuel : nat) (s : bytes) : bytes :=
  match fuel with
  | O => s
  | S fuel' =>
      if (8 <=? length s)%nat then
        let first32 :=
          Z.lor (Z.lor (Z.lor (at_ s 0) (Z.shiftl (at_ s 1) 8)) (Z.shiftl (at_ s 2) 16))
                (Z.shiftl (at_ s 3) 24) in
        let second32 :=
          Z.lor (Z.lor (Z.lor (at_ s 4) (Z.shiftl (at_ s 5) 8)) (Z.shiftl (at_ s 6) 16))
                (Z.shiftl (at_ s 7) 24) in
        if negb (Z.land (Z.lor first32 second32) 0x80808080 =? 0)
        then s  (* found a non ASCII byte: break *)
        else skipASCII8 fuel' (skipn 8 s)
      else s
  end.

(** The second loop of [ValidString]: [s] is [s[i:]]. *)
Fixpoint validFrom (fuel : nat) (s : bytes) : bool :=
  match fuel with
  | O => true
  | S fuel' =>
      match s with
      | [] => true
      | c :: rest =>
          let si := b2z c in
          if si <? RuneSelf then validFrom fuel' rest else
          let x := first si in
          if x =? xx then false (* illegal starter byte *) else
          let size := Z.to_nat (Z.land x 7) in
          if (length s <? size)%nat then false (* short or invalid *) else
          let accept := acceptRanges (Z.shiftr x 4) in
          let c1 := at_ s 1 in
          if (c1 <? fst accept) || (snd accept <? c1) then false
          else if (size =? 2)%nat then validFrom fuel' (skipn size s)
          else
            let c2 := at_ s 2 in
            if (c2 <? locb) || (hicb <? c2) then false
            else if (size =? 3)%nat then validFrom fuel' (skipn size s)
            else
              let c3 := at_ s 3 in
              if (c3 <? locb) || (hicb <? c3) then false
              else validFrom fuel' (skipn size s)
      end
  end.

Definition ValidString (s : bytes) : bool :=
  let s := skipASCII8 (length s) s in
  validFrom (length s) s.

End utf8.

(** ** unicode *)

Module unicode.

Definition MaxLatin1 : Z := 0xFF.

(** The 16-bit ranges of the table [White_Space] past its Latin-1 part
    ([R16[LatinOffset:]]); its 32-bit part is empty.  Every stride is 1. *)
Definition White_Space_R16 : list (Z * Z) :=
  [ (0x1680, 0x1680); (0x2000, 0x200a); (0x2028, 0x2029);
    (0x202f, 0x202f); (0x205f, 0x205f); (0x3000, 0x3000) ].

Definition isExcludingLatin (tab : list (Z * Z)) (r : Z) : bool :=
  existsb (fun range => (fst range <=? r) && (r <=? snd range)) tab.

Definition IsSpace (r : Z) : bool :=
  if r <=? MaxLatin1 then
    match r with
    | 0x09 | 0x0A | 0x0B | 0x0C | 0x0D | 0x20 | 0x85 | 0xA0 => true
    | _ => false
    end
  else isExcludingLatin White_Space_R16 r.

End unicode.

(** ** strings *)

Module strings.

Import utf8 unicode.

(** The table [asciiSpace]. *)
Definition asciiSpace (c : ascii) : bool :=
  match b2z c with
  | 0x09 | 0x0A | 0x0B | 0x0C | 0x0D | 0x20 => true
  | _ => false
  end.

(** [indexFunc]: the index of the first rune [r] with [f r = truth]; [None]
    stands for the -1 of the source.  The loop ranges over the runes of the
    string, [s] being what is left of it at byte offset [i]. *)
Fixpoint indexFunc_loop (fuel : nat) (s : bytes) (i : nat)
    (f : Z -> bool) (truth : bool) : option nat :=
  match fuel with
  | O => None
  | S fuel' =>
      match s with
      | [] => None
      | _ :: _ =>
          let '(r, size) := DecodeRuneInString s in
          if Bool.eqb (f r) truth then Some i
          else indexFunc_loop fuel' (skipn size s) (i + size) f truth
      end
  end.

Definition indexFunc (s : bytes) (f : Z -> bool) (truth : bool) : option nat :=
  indexFunc_loop (length s) s 0 f truth.

(** [lastIndexFunc]: the same from the end, decoding the last rune of
    [s[0:i]] at each turn. *)
Fixpoint lastIndexFunc_loop (fuel : nat) (s : bytes) (i : nat)
    (f : Z -> bool) (truth : bool) : option nat :=
  match fuel with
  | O => None
  | S fuel' =>
      if (0 <? i)%nat then
        let '(r, size) := DecodeLastRuneInString (firstn i s) in
        let i := (i - size)%nat in
        if Bool.eqb (f r) truth then Some i
        else lastIndexFunc_loop fuel' s i f truth
      else None
  end.

Definition lastIndexFunc (s : bytes) (f : Z -> bool) (truth : bool) : option nat :=
  lastIndexFunc_loop (length s) s (length s) f truth.

Definition TrimLeftFunc (s : bytes) (f : Z -> bool) : bytes :=
  match indexFunc s f false with
  | None => []
  | Some i => skipn i s
  end.

Definition TrimRightFunc (s : bytes) (f : Z -> bool) : bytes :=
  match lastIndexFunc s f false with
  | Some i =>
      if RuneSelf <=? at_ s i
      then firstn (i + snd (DecodeRuneInString (skipn i s))) s
      else firstn (i + 1) s
  | None => firstn 0 s
  end.

Definition TrimFunc (s : bytes) (f : Z -> bool) : bytes :=
  TrimRightFunc (TrimLeftFunc s f) f.

(** How one of the two ASCII loops of [TrimSpace] ends. *)
Inductive scan :=
  | AtEnd                     (* the index ran off the string *)
  | NonASCII (rest : bytes)   (* a byte >= RuneSelf: the slow path *)
  | NonSpace (rest : bytes).  (* break *)

(** The first loop of [TrimSpace]: [rest] is [s[start:]]. *)
Fixpoint skipASCIISpace (s : bytes) : scan :=
  match s with
  | [] => AtEnd
  | c :: s' =>
      if RuneSelf <=? b2z c then NonASCII s
      else if asciiSpace c then skipASCIISpace s'
      else NonSpace s
  end.

(** [TrimSpace].  The second loop walks [stop] down from the end of
    [s[start:]]: it is the first loop on the reversed string. *)
Definition TrimSpace (s : bytes) : bytes :=
  match skipASCIISpace s with
  | NonASCII rest => TrimFunc rest IsSpace
  | AtEnd => []
  | NonSpace rest =>
      match skipASCIISpace (rev rest) with
      | NonASCII tser => TrimRightFunc (rev tser) IsSpace
      | AtEnd => []
      | NonSpace tser => rev tser
      end
  end.

(** [Split s sep] for a separator of one byte, the only use the exporter makes
    of it: the pieces of [s] between the occurrences of [sep], at least one. *)
Fixpoint Split (s : bytes) (sep : ascii) : list bytes :=
  match s with
  | [] => [[]]
  | c :: s' =>
      if Ascii.eqb c sep then [] :: Split s' sep
      else match Split s' sep with
           | piece :: pieces => (c :: piece) :: pieces
           | [] => [[c]]
           end
  end.

End strings.

(** ** The outlet registry *)

(** [Outlet] represents a tasmota outlet with its name and IP. *)
Record Outlet := { Name : bytes; IP : bytes }.

(** One turn of the loop of [parseOutlets]; the [slog.Warn] calls are left
    out. *)
Definition parseOutlets_body (outlets : list Outlet) (outletStr : bytes) : list Outlet :=
  let outletStr := strings.TrimSpace outletStr in
  if is_empty outletStr then outlets else
  let parts := strings.Split outletStr ":" in
  if negb (length parts =? 2)%nat then outlets else
  let name := strings.TrimSpace (nth 0 parts []) in
  let ip := strings.TrimSpace (nth 1 parts []) in
  if is_empty name || is_empty ip then outlets else
  outlets ++ [{| Name := name; IP := ip |}].

Definition parseOutlets (outletsStr : bytes) : list Outlet :=
  fold_left parseOutlets_body (strings.Split outletsStr ",") [].


(** The loop of the parser as one function: an entry yields an
    outlet when, trimmed, it splits on [:] into exactly two parts whose
    trimmed name and address are both non-empty; the parser returns the
    outlets of the entries that yield one, in the order of the entries. *)
Definition spec_entry (entry : bytes) : option Outlet :=
  match strings.Split (strings.TrimSpace entry) ":" with
  | [name; address] =>
      let name := strings.TrimSpace name in
      let address := strings.TrimSpace address in
      if is_empty name || is_empty address then None
      else Some {| Name := name; IP := address |}
  | _ => None
  end.

Definition spec_parse (spec : bytes) : list Outlet :=
  omap spec_entry (strings.Split spec ",").

(** The bytes a rune trimmed by [TrimSpace] can be made of: ASCII white space,
    or a byte of a multi-byte sequence. *)
Definition blank (c : ascii) : Prop :=
  strings.asciiSpace c = true \/ utf8.RuneSelf <= b2z c.

(** The bytes of a multi-byte sequence. *)
Definition high (c : ascii) : Prop := utf8.RuneSelf <= b2z c.

(** What one entry adds to the result. *)
Definition outlet_of (entry : bytes) : list Outlet :=
  match spec_entry entry with Some o => [o] | None => [] end.

(** *** The registry format, as the specification words it

    Entries are separated by commas; an entry is trimmed of the white space
    around it, has to split on the colon into exactly two parts, and each part
    is trimmed in turn.  Nothing here goes through the rune decoders or the
    loops of the Go library: white space is given by a table of byte
    sequences, the parts by counting the colons. *)

Definition bytes_of (zs : list Z) : bytes :=
  map (fun z => ascii_of_N (Z.to_N z)) zs.

(** The white-space characters, that is the code points with the Unicode
    property White_Space, each as the bytes of its UTF-8 encoding: U+0009 to
    U+000D, U+0020, U+0085, U+00A0, U+1680, U+2000 to U+200A, U+2028, U+2029,
    U+202F, U+205F and U+3000. *)
Definition whiteSpaceZ : list (list Z) :=
  [ [0x09]; [0x0A]; [0x0B]; [0x0C]; [0x0D]; [0x20];
    [0xC2; 0x85]; [0xC2; 0xA0];
    [0xE1; 0x9A; 0x80];
    [0xE2; 0x80; 0x80]; [0xE2; 0x80; 0x81]; [0xE2; 0x80; 0x82]; [0xE2; 0x80; 0x83];
    [0xE2; 0x80; 0x84]; [0xE2; 0x80; 0x85]; [0xE2; 0x80; 0x86]; [0xE2; 0x80; 0x87];
    [0xE2; 0x80; 0x88]; [0xE2; 0x80; 0x89]; [0xE2; 0x80; 0x8A];
    [0xE2; 0x80; 0xA8]; [0xE2; 0x80; 0xA9]; [0xE2; 0x80; 0xAF];
    [0xE2; 0x81; 0x9F];
    [0xE3; 0x80; 0x80] ].

Definition whiteSpace : list bytes := map bytes_of whiteSpaceZ.

(** [Some rest] when [s] is [w] followed by [rest]. *)
Fixpoint stripPrefix (w s : bytes) : option bytes :=
  match w, s with
  | [], _ => Some s
  | c :: w', d :: s' => if Ascii.eqb c d then stripPrefix w' s' else None
  | _ :: _, [] => None
  end.

(** What is left of [s] without the white-space character it starts with, if
    it starts with one. *)
Definition leadingSpace (s : bytes) : option bytes :=
  fold_right (fun w found => match stripPrefix w s with
                             | Some rest => Some rest
                             | None => found
                             end) None whiteSpace.

(** What is left of [s] without the white-space character it ends with, if
    it ends with one. *)
Definition trailingSpace (s : bytes) : option bytes :=
  fold_right (fun w found => match stripPrefix (rev w) (rev s) with
                             | Some tser => Some (rev tser)
                             | None => found
                             end) None whiteSpace.

(** One character after the other, as long as there is one to take off. *)
Fixpoint strip (one : bytes -> option bytes) (fuel : nat) (s : bytes) : bytes :=
  match fuel with
  | O => s
  | S fuel' =>
      match one s with
      | Some rest => strip one fuel' rest
      | None => s
      end
  end.

Definition spec_trimLeft (s : bytes) : bytes := strip leadingSpace (length s) s.
Definition spec_trimRight (s : bytes) : bytes := strip trailingSpace (length s) s.

(** A string trimmed of the white space around it. *)
Definition spec_trim (s : bytes) : bytes := spec_trimRight (spec_trimLeft s).

(** The part of [s] before the first [sep], and the part after it. *)
Fixpoint before (sep : ascii) (s : bytes) : bytes :=
  match s with
  | [] => []
  | c :: s' => if Ascii.eqb c sep then [] else c :: before sep s'
  end.

Fixpoint after (sep : ascii) (s : bytes) : bytes :=
  match s with
  | [] => []
  | c :: s' => if Ascii.eqb c sep then s' else after sep s'
  end.

(** The outlet an entry stands for: trimmed, it holds exactly one colon, and
    the name before it and the address after it, trimmed, are not empty. *)
Definition spec_outlet (entry : bytes) : option Outlet :=
  let entry := spec_trim entry in
  if (count_occ ascii_dec entry ":"%char =? 1)%nat then
    let name := spec_trim (before ":" entry) in
    let address := spec_trim (after ":" entry) in
    if is_empty name || is_empty address then None
    else Some {| Name := name; IP := address |}
  else None.

(** Entries written one after the other with [sep] in between. *)
Fixpoint join (sep : ascii) (entries : list bytes) : bytes :=
  match entries with
  | [] => []
  | [entry] => entry
  | entry :: entries' => entry ++ sep :: join sep entries'
  end.

(** Two white-space characters outside ASCII: the no-break space U+00A0 and
    the ideographic space U+3000. *)
Definition nbsp : bytes := bytes_of [0xC2; 0xA0].
Definition ideographic_space : bytes := bytes_of [0xE3; 0x80; 0x80].

(** A registry with white space of both kinds around the entries and their
    parts, and with entries that are dropped. *)
Definition padded_entries : list bytes :=
  [ nbsp ++ "livingroom" ++ ideographic_space ++ ":" ++ nbsp ++ "192.168.1.100 ";
    " invalid " : bytes;
    "" : bytes;
    ideographic_space;
    "bedroom:192.168.1.101:80" : bytes;
    " bedroom :" ++ ideographic_space;
    "bedroom : 192.168.1.101" ++ ideographic_space ].

(** *** Tools for the proofs about the decoders *)

(** [f] holds of the [n] numbers from [lo] on. *)
Fixpoint allZ (n : nat) (lo : Z) (f : Z -> bool) : bool :=
  match n with
  | O => true
  | S n' => f lo && allZ n' (lo + 1) f
  end.

(** The runes [DecodeRuneInString] makes of two, three and four bytes. *)
Definition rune2 (b0 b1 : Z) : Z :=
  Z.lor (Z.shiftl (Z.land b0 utf8.mask2) 6) (Z.land b1 utf8.maskx).

Definition rune3 (b0 b1 b2 : Z) : Z :=
  Z.lor (Z.lor (Z.shiftl (Z.land b0 utf8.mask3) 12) (Z.shiftl (Z.land b1 utf8.maskx) 6))
        (Z.land b2 utf8.maskx).

Definition rune4 (b0 b1 b2 b3 : Z) : Z :=
  Z.lor (Z.lor (Z.lor (Z.shiftl (Z.land b0 utf8.mask4) 18)
                      (Z.shiftl (Z.land b1 utf8.maskx) 12))
               (Z.shiftl (Z.land b2 utf8.maskx) 6))
        (Z.land b3 utf8.maskx).

(** The second byte is in the range the first byte accepts. *)
Definition accepted (b0 b1 : Z) : bool :=
  let accept := utf8.acceptRanges (Z.shiftr (utf8.first b0) 4) in
  (fst accept <=? b1) && (b1 <=? snd accept).

(** The bytes are those of a white-space character. *)
Definition isWhiteSpaceZ (zs : list Z) : bool :=
  existsb (fun w => bool_decide (w = zs)) whiteSpaceZ.

(** ** The device status payload *)

Abbreviation float64 := PrimFloat.float.

(** [Energy] contains the power monitoring data. *)
Record Energy := {
  TotalStartTime : bytes;
  Total : float64;
  Yesterday : float64;
  Today : float64;
  Power : float64;
  ApparentPower : float64;
  ReactivePower : float64;
  Factor : float64;
  Voltage : float64;
  Current : float64
}.

(** The struct [ESP32]: ESP32-specific data like temperature. *)
Record ESP32_t := { Temperature : float64 }.

(** The struct [StatusSNS]: the sensor data. *)
Record StatusSNS_t := {
  Time : bytes;
  ENERGY : Energy;
  ESP32 : ESP32_t
}.

(** [TasmotaStatus] represents the JSON response from Tasmota status
    command. *)
Record TasmotaStatus := { StatusSNS : StatusSNS_t }.

(** The zero values [var status TasmotaStatus] starts from. *)
Definition zero_Energy : Energy :=
  {| TotalStartTime := []; Total := 0%float; Yesterday := 0%float;
     Today := 0%float; Power := 0%float; ApparentPower := 0%float;
     ReactivePower := 0%float; Factor := 0%float; Voltage := 0%float;
     Current := 0%float |}.
Definition zero_ESP32 : ESP32_t := {| Temperature := 0%float |}.
Definition zero_StatusSNS : StatusSNS_t :=
  {| Time := []; ENERGY := zero_Energy; ESP32 := zero_ESP32 |}.
Definition zero_TasmotaStatus : TasmotaStatus := {| StatusSNS := zero_StatusSNS |}.

(** Assignments to one field. *)
Definition set_TotalStartTime (x : bytes) (e : Energy) : Energy :=
  let '(Build_Energy _ b c d f g h i j k) := e in Build_Energy x b c d f g h i j k.
Definition set_Total (x : float64) (e : Energy) : Energy :=
  let '(Build_Energy a _ c d f g h i j k) := e in Build_Energy a x c d f g h i j k.
Definition set_Yesterday (x : float64) (e : Energy) : Energy :=
  let '(Build_Energy a b _ d f g h i j k) := e in Build_Energy a b x d f g h i j k.
Definition set_Today (x : float64) (e : Energy) : Energy :=
  let '(Build_Energy a b c _ f g h i j k) := e in Build_Energy a b c x f g h i j k.
Definition set_Power (x : float64) (e : Energy) : Energy :=
  let '(Build_Energy a b c d _ g h i j k) := e in Build_Energy a b c d x g h i j k.
Definition set_ApparentPower (x : float64) (e : Energy) : Energy :=
  let '(Build_Energy a b c d f _ h i j k) := e in Build_Energy a b c d f x h i j k.
Definition set_ReactivePower (x : float64) (e : Energy) : Energy :=
  let '(Build_Energy a b c d f g _ i j k) := e in Build_Energy a b c d f g x i j k.
Definition set_Factor (x : float64) (e : Energy) : Energy :=
  let '(Build_Energy a b c d f g h _ j k) := e in Build_Energy a b c d f g h x j k.
Definition set_Voltage (x : float64) (e : Energy) : Energy :=
  let '(Build_Energy a b c d f g h i _ k) := e in Build_Energy a b c d f g h i x k.
Definition set_Current (x : float64) (e : Energy) : Energy :=
  let '(Build_Energy a b c d f g h i j _) := e in Build_Energy a b c d f g h i j x.
Definition set_Temperature (x : float64) (_ : ESP32_t) : ESP32_t :=
  {| Temperature := x |}.
Definition set_Time (x : bytes) (s : StatusSNS_t) : StatusSNS_t :=
  {| Time := x; ENERGY := ENERGY s; ESP32 := ESP32 s |}.
Definition set_ENERGY (x : Energy) (s : StatusSNS_t) : StatusSNS_t :=
  {| Time := Time s; ENERGY := x; ESP32 := ESP32 s |}.
Definition set_ESP32 (x : ESP32_t) (s : StatusSNS_t) : StatusSNS_t :=
  {| Time := Time s; ENERGY := ENERGY s; ESP32 := x |}.
Definition set_StatusSNS (x : StatusSNS_t) (_ : TasmotaStatus) : TasmotaStatus :=
  {| StatusSNS := x |}.

(** ** encoding/json *)

Module json.

Import utf8.

(** What [strconv.ParseFloat] makes of the literal of a number: a float64, or
    an error when the literal is out of the range of a float64; the literal is
    kept then, for the error the decoder reports. *)
Inductive Number :=
  | InRange (x : float64)
  | OutOfRange (literal : bytes).

(** A JSON text the scanner accepts, as the value it denotes.  The members of
    an object are in the order of the text, repeated keys included. *)
Inductive Value :=
  | JNull
  | JBool (b : bool)
  | JNumber (n : Number)
  | JString (s : bytes)
  | JArray (elems : list Value)
  | JObject (members : list (bytes * Value)).

Inductive Error :=
  | SyntaxError
  | UnmarshalTypeError (Value_ : string) (Type_ : string).

(** [utf8.AppendRune]. *)
Definition byte_ (z : Z) : ascii := ascii_of_N (Z.to_N (Z.land z 0xFF)).

Definition AppendRune (p : bytes) (r : Z) : bytes :=
  if r <=? 0x7F then p ++ [byte_ r]
  else if r <=? 0x7FF then
    p ++ [byte_ (Z.lor 0xC0 (Z.shiftr r 6)); byte_ (Z.lor 0x80 (Z.land r maskx))]
  else
    let r := if (0x10FFFF <? r) || ((0xD800 <=? r) && (r <=? 0xDFFF))
             then RuneError else r in
    if r <=? 0xFFFF then
      p ++ [byte_ (Z.lor 0xE0 (Z.shiftr r 12));
            byte_ (Z.lor 0x80 (Z.land (Z.shiftr r 6) maskx));
            byte_ (Z.lor 0x80 (Z.land r maskx))]
    else
      p ++ [byte_ (Z.lor 0xF0 (Z.shiftr r 18));
            byte_ (Z.lor 0x80 (Z.land (Z.shiftr r 12) maskx));
            byte_ (Z.lor 0x80 (Z.land (Z.shiftr r 6) maskx));
            byte_ (Z.lor 0x80 (Z.land r maskx))].

(** [foldRune]: the smallest rune of the fold orbit of [r].  Two runes beyond
    ASCII have an ASCII letter in their orbit, the Kelvin sign and the long s;
    every other one folds to a rune beyond ASCII, which no field name of the
    exporter contains, and is kept as it is here. *)
Definition foldRune (r : Z) : Z :=
  if r =? 0x212A then 0x4B
  else if r =? 0x17F then 0x53
  else r.

(** [foldName] ([appendFoldedName]): the key under which a name is looked up
    when no field has exactly that name. *)
Fixpoint appendFoldedName (fuel : nat) (out in_ : bytes) : bytes :=
  match fuel with
  | O => out
  | S fuel' =>
      match in_ with
      | [] => out
      | c :: rest =>
          if b2z c <? RuneSelf then
            let c := if (0x61 <=? b2z c) && (b2z c <=? 0x7A)
                     then byte_ (b2z c - 0x20) else c in
            appendFoldedName fuel' (out ++ [c]) rest
          else
            let '(r, n) := DecodeRuneInString in_ in
            appendFoldedName fuel' (AppendRune out (foldRune r)) (skipn n in_)
      end
  end.

Definition foldName (in_ : bytes) : bytes := appendFoldedName (length in_) [] in_.

(** The decoder writes into the destination as it goes and remembers the
    first type error it meets ([saveError]); it returns that error at the
    end. *)
Definition Dec (T : Type) : Type := T -> option Error -> T * option Error.

Definition saveError (saved : option Error) (err : Error) : option Error :=
  match saved with
  | None => Some err
  | Some _ => saved
  end.

(** A field of a struct: its name (the [json] tag) and how a value is stored
    into it. *)
Record field (T : Type) := { name : bytes; store : Value -> Dec T }.
Arguments name {T}.
Arguments store {T}.

Definition fieldOf {T A : Type} (n : bytes) (get : T -> A) (set : A -> T -> T)
    (st : Value -> Dec A) : field T :=
  {| name := n;
     store := fun v dst saved =>
       let '(x, saved') := st v (get dst) saved in (set x dst, saved') |}.

(** [fields.byExactName[key]], else [fields.byFoldedName[foldName(key)]]. *)
Definition lookupField {T : Type} (fields : list (field T)) (key : bytes) : option (field T) :=
  match find (fun f => bool_decide (name f = key)) fields with
  | Some f => Some f
  | None => find (fun f => bool_decide (foldName (name f) = foldName key)) fields
  end.

(** Storing into a float64: [literalStore], [array] and [object] by the kind
    of the destination. *)
Definition float64Store (v : Value) : Dec float64 := fun dst saved =>
  match v with
  | JNull => (dst, saved)
  | JNumber (InRange n) => (n, saved)
  | JNumber (OutOfRange literal) =>
      (dst, saveError saved
              (UnmarshalTypeError
                 (String.append "number " (string_of_list_ascii literal)) "float64"))
  | JBool _ => (dst, saveError saved (UnmarshalTypeError "bool" "float64"))
  | JString _ => (dst, saveError saved (UnmarshalTypeError "string" "float64"))
  | JArray _ => (dst, saveError saved (UnmarshalTypeError "array" "float64"))
  | JObject _ => (dst, saveError saved (UnmarshalTypeError "object" "float64"))
  end.

(** Storing into a string. *)
Definition stringStore (v : Value) : Dec bytes := fun dst saved =>
  match v with
  | JNull => (dst, saved)
  | JString s => (s, saved)
  | JNumber _ => (dst, saveError saved (UnmarshalTypeError "number" "string"))
  | JBool _ => (dst, saveError saved (UnmarshalTypeError "bool" "string"))
  | JArray _ => (dst, saveError saved (UnmarshalTypeError "array" "string"))
  | JObject _ => (dst, saveError saved (UnmarshalTypeError "object" "string"))
  end.

(** One member of an object stored into a struct: a key that names no field
    is skipped with its value. *)
Definition member {T : Type} (fields : list (field T))
    (st : T * option Error) (kv : bytes * Value) : T * option Error :=
  match lookupField fields (fst kv) with
  | Some f => store f (snd kv) (fst st) (snd st)
  | None => st
  end.

(** Storing into a struct: the members of an object in turn, each into the
    field its key names. *)
Definition structStore {T : Type} (type : string) (fields : list (field T))
    (v : Value) : Dec T := fun dst saved =>
  match v with
  | JNull => (dst, saved)
  | JObject members => fold_left (member fields) members (dst, saved)
  | JNumber _ => (dst, saveError saved (UnmarshalTypeError "number" type))
  | JBool _ => (dst, saveError saved (UnmarshalTypeError "bool" type))
  | JString _ => (dst, saveError saved (UnmarshalTypeError "string" type))
  | JArray _ => (dst, saveError saved (UnmarshalTypeError "array" type))
  end.

Definition Energy_fields : list (field Energy) :=
  [ fieldOf "TotalStartTime" TotalStartTime set_TotalStartTime stringStore;
    fieldOf "Total" Total set_Total float64Store;
    fieldOf "Yesterday" Yesterday set_Yesterday float64Store;
    fieldOf "Today" Today set_Today float64Store;
    fieldOf "Power" Power set_Power float64Store;
    fieldOf "ApparentPower" ApparentPower set_ApparentPower float64Store;
    fieldOf "ReactivePower" ReactivePower set_ReactivePower float64Store;
    fieldOf "Factor" Factor set_Factor float64Store;
    fieldOf "Voltage" Voltage set_Voltage float64Store;
    fieldOf "Current" Current set_Current float64Store ].

Definition ESP32_fields : list (field ESP32_t) :=
  [ fieldOf "Temperature" Temperature set_Temperature float64Store ].

Definition StatusSNS_fields : list (field StatusSNS_t) :=
  [ fieldOf "Time" Time set_Time stringStore;
    fieldOf "ENERGY" ENERGY set_ENERGY (structStore "main.Energy" Energy_fields);
    fieldOf "ESP32" ESP32 set_ESP32 (structStore "main.ESP32" ESP32_fields) ].

Definition TasmotaStatus_fields : list (field TasmotaStatus) :=
  [ fieldOf "StatusSNS" StatusSNS set_StatusSNS
      (structStore "main.StatusSNS" StatusSNS_fields) ].

(** [json.Unmarshal(data, &status)]: [data] is [None] when [checkValid]
    rejects the bytes. *)
Definition Unmarshal (data : option Value) (v : TasmotaStatus) : TasmotaStatus * option Error :=
  match data with
  | None => (v, Some SyntaxError)
  | Some j => structStore "main.TasmotaStatus" TasmotaStatus_fields j v None
  end.

End json.

(** ** The device prober *)

(** What comes of the one GET a probe sends, within its deadline. *)
Inductive Reply :=
  | NoRequest                 (* http.NewRequestWithContext fails *)
  | NoResponse                (* client.Do fails: connection error, timeout *)
  | NoBody                    (* io.ReadAll fails *)
  | Body (statusCode : Z) (data : option json.Value).
                              (* the body, [None] when it is not JSON *)

Inductive ProbeError :=
  | FailedToCreateRequest
  | FailedToQuery
  | FailedToRead
  | FailedToParse (err : json.Error).

(** [probeTasmota]: the status, or the error. *)
Definition probeTasmota (reply : Reply) : TasmotaStatus + ProbeError :=
  match reply with
  | NoRequest => inr FailedToCreateRequest
  | NoResponse => inr FailedToQuery
  | NoBody => inr FailedToRead
  | Body _ data =>
      match json.Unmarshal data zero_TasmotaStatus with
      | (_, Some err) => inr (FailedToParse err)
      | (status, None) => inl status
      end
  end.

(** ** The payload schema, as the specification words it *)

Import json.

(** A member is addressed to the field named [n] when its key is [n] up to
    the folding of names. *)
Definition keyed (n : bytes) (kv : bytes * Value) : Prop :=
  foldName (fst kv) = foldName n.

#[global] Instance keyed_dec (n : bytes) (kv : bytes * Value) : Decision (keyed n kv).
Proof. unfold keyed. apply _. Defined.

Definition membersOf (v : Value) : list (bytes * Value) :=
  match v with
  | JObject members => members
  | _ => []
  end.

(** The values an object holds for the field named [n]. *)
Definition under (n : bytes) (v : Value) : list Value :=
  map snd (filter (keyed n) (membersOf v)).

(** The body holds a member for field [fld] of section [sect] of
    ["StatusSNS"]. *)
Definition mentions (sect fld : bytes) (body : Value) : bool :=
  existsb (fun sns =>
             existsb (fun s => match under fld s with [] => false | _ :: _ => true end)
                     (under sect sns))
          (under "StatusSNS" body).

(** The ten numeric fields, each with its section. *)
Record numericField := {
  section : bytes;
  fieldName : bytes;
  read : TasmotaStatus -> float64
}.

Definition numericFields : list numericField :=
  [ {| section := "ENERGY"; fieldName := "Total";
       read := fun s => Total (ENERGY (StatusSNS s)) |};
    {| section := "ENERGY"; fieldName := "Yesterday";
       read := fun s => Yesterday (ENERGY (StatusSNS s)) |};
    {| section := "ENERGY"; fieldName := "Today";
       read := fun s => Today (ENERGY (StatusSNS s)) |};
    {| section := "ENERGY"; fieldName := "Power";
       read := fun s => Power (ENERGY (StatusSNS s)) |};
    {| section := "ENERGY"; fieldName := "ApparentPower";
       read := fun s => ApparentPower (ENERGY (StatusSNS s)) |};
    {| section := "ENERGY"; fieldName := "ReactivePower";
       read := fun s => ReactivePower (ENERGY (StatusSNS s)) |};
    {| section := "ENERGY"; fieldName := "Factor";
       read := fun s => Factor (ENERGY (StatusSNS s)) |};
    {| section := "ENERGY"; fieldName := "Voltage";
       read := fun s => Voltage (ENERGY (StatusSNS s)) |};
    {| section := "ENERGY"; fieldName := "Current";
       read := fun s => Current (ENERGY (StatusSNS s)) |};
    {| section := "ESP32"; fieldName := "Temperature";
       read := fun s => Temperature (ESP32 (StatusSNS s)) |} ].

(** A value fits a field when it is [null] or of the JSON type of the field;
    a number has to be in the range of a float64. *)
Definition fitsFloat64 (x : Value) : bool :=
  match x with
  | JNull | JNumber (InRange _) => true
  | _ => false
  end.

Definition fitsString (x : Value) : bool :=
  match x with
  | JNull | JString _ => true
  | _ => false
  end.

(** An object fits a struct when each of its members that is addressed to a
    field fits that field. *)
Definition fitsStruct {T : Type} (fields : list (field T))
    (fits : bytes -> Value -> bool) (x : Value) : bool :=
  match x with
  | JNull => true
  | JObject members =>
      forallb (fun kv => match lookupField fields (fst kv) with
                         | Some f => fits (name f) (snd kv)
                         | None => true
                         end) members
  | _ => false
  end.

Definition fitsEnergy : Value -> bool :=
  fitsStruct Energy_fields
    (fun n x => if bool_decide (n = ("TotalStartTime" : bytes))
                then fitsString x else fitsFloat64 x).

Definition fitsESP32 : Value -> bool :=
  fitsStruct ESP32_fields (fun _ x => fitsFloat64 x).

Definition fitsStatusSNS : Value -> bool :=
  fitsStruct StatusSNS_fields
    (fun n x => if bool_decide (n = ("Time" : bytes)) then fitsString x
                else if bool_decide (n = ("ENERGY" : bytes)) then fitsEnergy x
                else fitsESP32 x).

Definition fitsTasmotaStatus : Value -> bool :=
  fitsStruct TasmotaStatus_fields (fun _ x => fitsStatusSNS x).

(** A store keeps an error already saved. *)
Definition sticky {A : Type} (st : Value -> Dec A) : Prop :=
  forall x d e, snd (st x d (Some e)) = Some e.

Definition sticky_field {T : Type} (f : field T) : Prop :=
  forall x d e, snd (store f x d (Some e)) = Some e.

(** ** The Prometheus client: gauge vectors *)

Module prometheus.

Module GaugeOpts.
Record t := { Name : bytes; Help : bytes }.
End GaugeOpts.

(** What describes a metric: its name, its help and the names of its labels. *)
Record Desc := { fqName : bytes; help : bytes; variableLabels : list bytes }.

Definition NewGaugeVec (opts : GaugeOpts.t) (labelNames : list bytes) : Desc :=
  {| fqName := GaugeOpts.Name opts;
     help := GaugeOpts.Help opts;
     variableLabels := labelNames |}.

(** The twelve gauge vectors of a collector, each named by the field of
    [TasmotaCollector] that holds it. *)
Inductive GaugeVec :=
  | onGauge
  | voltageGauge
  | currentGauge
  | powerGauge
  | apparentPowerGauge
  | reactivePowerGauge
  | factorGauge
  | todayGauge
  | yesterdayGauge
  | totalGauge
  | upGauge
  | temperatureGauge.

#[global] Instance GaugeVec_eq_dec : EqDecision GaugeVec.
Proof. solve_decision. Defined.

Definition GaugeVec_index (g : GaugeVec) : nat :=
  match g with
  | onGauge => 0 | voltageGauge => 1 | currentGauge => 2 | powerGauge => 3
  | apparentPowerGauge => 4 | reactivePowerGauge => 5 | factorGauge => 6
  | todayGauge => 7 | yesterdayGauge => 8 | totalGauge => 9 | upGauge => 10
  | temperatureGauge => 11
  end%nat.

Definition GaugeVec_at (n : nat) : GaugeVec :=
  match n with
  | 0 => onGauge | 1 => voltageGauge | 2 => currentGauge | 3 => powerGauge
  | 4 => apparentPowerGauge | 5 => reactivePowerGauge | 6 => factorGauge
  | 7 => todayGauge | 8 => yesterdayGauge | 9 => totalGauge | 10 => upGauge
  | _ => temperatureGauge
  end%nat.

#[global] Instance GaugeVec_countable : Countable GaugeVec.
Proof.
  apply (inj_countable' GaugeVec_index GaugeVec_at). intros []; reflexivity.
Defined.

(** A child of a gauge vector, named by the vector and its label values. *)
Abbreviation Gauge := (GaugeVec * list bytes)%type.

(** [validateLabelValues]: as many values as the vector has labels, and each
    of them valid UTF-8. *)
Definition validateLabelValues (vals : list bytes) (expectedNumberOfValues : nat) : bool :=
  (length vals =? expectedNumberOfValues)%nat && forallb utf8.ValidString vals.

(** [v.WithLabelValues(lvs...)], for the vector [v] described by [d]: the one
    child of [v] for these label values, the same at every call, created with
    value 0 the first time.  [None]: [GetMetricWithLabelValues] returns an
    error ([validateLabelValues] fails) and [WithLabelValues] panics. *)
Definition WithLabelValues (d : Desc) (v : GaugeVec) (lvs : list bytes) : option Gauge :=
  if validateLabelValues lvs (length (variableLabels d)) then Some (v, lvs) else None.

(** The values of the children ([valBits]); a child not yet created reads 0. *)
Abbreviation Gauges := (gmap (GaugeVec * list bytes) float64).

Definition valueOf (gs : Gauges) (g : Gauge) : float64 :=
  match gs !! g with
  | Some v => v
  | None => 0%float
  end.

End prometheus.

Import prometheus.

(** ** The metric collector *)

(** [TasmotaCollector]: the outlets and, for each of the twelve fields, the
    description of its gauge vector. *)
Record TasmotaCollector := {
  outlets : list Outlet;
  vec : GaugeVec -> Desc
}.

(** [NewTasmotaCollector] creates a new collector for the given outlets. *)
Definition NewTasmotaCollector (outlets : list Outlet) : TasmotaCollector :=
  {| outlets := outlets;
     vec := fun g =>
       match g with
       | onGauge => NewGaugeVec
           {| GaugeOpts.Name := "tasmota_on";
              GaugeOpts.Help := "Indicates if the tasmota plug is on/off" |} ["outlet" : bytes]
       | voltageGauge => NewGaugeVec
           {| GaugeOpts.Name := "tasmota_voltage_volts";
              GaugeOpts.Help := "voltage of tasmota plug in volt (V)" |} ["outlet" : bytes]
       | currentGauge => NewGaugeVec
           {| GaugeOpts.Name := "tasmota_current_amperes";
              GaugeOpts.Help := "current of tasmota plug in ampere (A)" |} ["outlet" : bytes]
       | powerGauge => NewGaugeVec
           {| GaugeOpts.Name := "tasmota_power_watts";
              GaugeOpts.Help := "current power of tasmota plug in watts (W)" |} ["outlet" : bytes]
       | apparentPowerGauge => NewGaugeVec
           {| GaugeOpts.Name := "tasmota_apparent_power_voltamperes";
              GaugeOpts.Help := "apparent power of tasmota plug in volt-amperes (VA)" |}
           ["outlet" : bytes]
       | reactivePowerGauge => NewGaugeVec
           {| GaugeOpts.Name := "tasmota_reactive_power_voltamperesreactive";
              GaugeOpts.Help := "reactive power of tasmota plug in volt-amperes reactive (VAr)" |}
           ["outlet" : bytes]
       | factorGauge => NewGaugeVec
           {| GaugeOpts.Name := "tasmota_power_factor";
              GaugeOpts.Help := "power factor of tasmota plug" |} ["outlet" : bytes]
       | todayGauge => NewGaugeVec
           {| GaugeOpts.Name := "tasmota_today_kwh_total";
              GaugeOpts.Help := "todays energy usage total in kilowatts hours (kWh)" |}
           ["outlet" : bytes]
       | yesterdayGauge => NewGaugeVec
           {| GaugeOpts.Name := "tasmota_yesterday_kwh_total";
              GaugeOpts.Help := "yesterdays energy usage total in kilowatts hours (kWh)" |}
           ["outlet" : bytes]
       | totalGauge => NewGaugeVec
           {| GaugeOpts.Name := "tasmota_kwh_total";
              GaugeOpts.Help := "total energy usage in kilowatts hours (kWh)" |} ["outlet" : bytes]
       | upGauge => NewGaugeVec
           {| GaugeOpts.Name := "tasmota_up";
              GaugeOpts.Help := "Indicates if the tasmota outlet is reachable" |} ["outlet" : bytes]
       | temperatureGauge => NewGaugeVec
           {| GaugeOpts.Name := "tasmota_temperature_celsius";
              GaugeOpts.Help := "temperature of the ESP32 chip in celsius" |} ["outlet" : bytes]
       end |}.

(** What a goroutine of [Collect] does: it sets a gauge child, sends it on
    [ch], or panics. *)
Inductive Instr :=
  | GaugeSet (g : Gauge) (val : float64)   (* g.Set(val) *)
  | GaugeCollect (g : Gauge)               (* g.Collect(ch), that is ch <- g *)
  | Panic.                                 (* WithLabelValues panics *)

(** The three lines the source repeats for each metric:
    [m := vec.WithLabelValues(outlet.Name); m.Set(val); m.Collect(ch)]. *)
Definition emit (c : TasmotaCollector) (v : GaugeVec) (outlet : Outlet) (val : float64)
    : list Instr :=
  match WithLabelValues (vec c v) v [Name outlet] with
  | Some m => [GaugeSet m val; GaugeCollect m]
  | None => [Panic]
  end.

(** The goroutine [Collect] starts for [outlet], from the moment its probe
    has returned; the [slog] calls are left out.  Nothing recovers from a
    panic: what follows a [Panic] is never run. *)
Definition goroutine (c : TasmotaCollector) (outlet : Outlet)
    (probed : TasmotaStatus + ProbeError) : list Instr :=
  match probed with
  | inr err =>
      (* Only send up=0 metric for failed outlets, omit all other metrics *)
      emit c upGauge outlet 0
  | inl status =>
      emit c upGauge outlet 1 ++
      (if (0 <? Power (ENERGY (StatusSNS status)))%float
       then emit c onGauge outlet 1
       else emit c onGauge outlet 0) ++
      emit c voltageGauge outlet (Voltage (ENERGY (StatusSNS status))) ++
      emit c currentGauge outlet (Current (ENERGY (StatusSNS status))) ++
      emit c powerGauge outlet (Power (ENERGY (StatusSNS status))) ++
      emit c apparentPowerGauge outlet (ApparentPower (ENERGY (StatusSNS status))) ++
      emit c reactivePowerGauge outlet (ReactivePower (ENERGY (StatusSNS status))) ++
      emit c factorGauge outlet (Factor (ENERGY (StatusSNS status))) ++
      emit c todayGauge outlet (Today (ENERGY (StatusSNS status))) ++
      emit c yesterdayGauge outlet (Yesterday (ENERGY (StatusSNS status))) ++
      emit c totalGauge outlet (Total (ENERGY (StatusSNS status))) ++
      emit c temperatureGauge outlet (Temperature (ESP32 (StatusSNS status)))
  end.

(** One call of [Collect] in progress: what each of its goroutines has left
    to run (the goroutine of the i-th outlet at index i), the metrics sent on
    its [ch] and not yet taken by the sink, and the metrics the sink has
    taken, each with the value it read from it ([Write]) at that moment.  A
    metric on [ch] is the gauge child itself, not a copy of its value.  The
    index of the sending goroutine is kept with each metric, to tell whose it
    is. *)
Record Scrape := {
  goroutines : list (list Instr);
  ch : list (nat * Gauge);
  received : list (nat * (Gauge * float64))
}.

(** The process while it serves: the values of the gauge children, which
    belong to the collector and are shared by all the calls of [Collect]; the
    calls of [Collect] in progress, one for each request to [/metrics] (the
    handler serves each request on a goroutine of its own and nothing
    keeps two calls apart); and whether a goroutine has panicked, which ends
    the process. *)
Record State := {
  gauges : Gauges;
  scrapes : list Scrape;
  panicked : bool
}.

(** One move of the scheduler: goroutine [i] of the [k]-th call runs its next
    instruction, or the sink of the [k]-th call takes the next metric from
    its [ch] and reads it. *)
Inductive Move :=
  | Run (k i : nat)
  | Receive (k : nat).

Definition step (m : Move) (st : State) : option State :=
  if panicked st then None else
  match m with
  | Run k i =>
      match scrapes st !! k with
      | Some sc =>
          match goroutines sc !! i with
          | Some (GaugeSet g val :: rest) =>
              Some {| gauges := <[g := val]> (gauges st);
                      scrapes :=
                        <[k := {| goroutines := <[i := rest]> (goroutines sc);
                                  ch := ch sc;
                                  received := received sc |}]> (scrapes st);
                      panicked := false |}
          | Some (GaugeCollect g :: rest) =>
              Some {| gauges := gauges st;
                      scrapes :=
                        <[k := {| goroutines := <[i := rest]> (goroutines sc);
                                  ch := ch sc ++ [(i, g)];
                                  received := received sc |}]> (scrapes st);
                      panicked := false |}
          | Some (Panic :: rest) =>
              Some {| gauges := gauges st;
                      scrapes := scrapes st;
                      panicked := true |}
          | _ => None
          end
      | None => None
      end
  | Receive k =>
      match scrapes st !! k with
      | Some sc =>
          match ch sc with
          | (i, g) :: rest =>
              Some {| gauges := gauges st;
                      scrapes :=
                        <[k := {| goroutines := goroutines sc;
                                  ch := rest;
                                  received :=
                                    received sc ++ [(i, (g, valueOf (gauges st) g))] |}]>
                          (scrapes st);
                      panicked := false |}
          | [] => None
          end
      | None => None
      end
  end.

Fixpoint run (schedule : list Move) (st : State) : option State :=
  match schedule with
  | [] => Some st
  | m :: schedule' =>
      match step m st with
      | Some st' => run schedule' st'
      | None => None
      end
  end.

(** The [k]-th call of [Collect] is over: [wg.Wait()] has returned and the
    sink has taken every metric; the process is alive. *)
Definition finished (k : nat) (st : State) : Prop :=
  panicked st = false /\
  exists sc, scrapes st !! k = Some sc /\
             Forall (fun rest : list Instr => rest = []) (goroutines sc) /\ ch sc = [].

(** [Collect]: one goroutine per outlet.  [replies i] is what the network
    does with the probe of the i-th outlet. *)
Definition Collect (c : TasmotaCollector) (replies : nat -> Reply) : Scrape :=
  {| goroutines := imap (fun i outlet => goroutine c outlet (probeTasmota (replies i)))
                        (outlets c);
     ch := [];
     received := [] |}.

(** The process serving [requests] requests to [/metrics], each with its own
    call of [Collect]; [replies k i] is what the network does with the probe
    of the i-th outlet in the k-th call, [gs] the values the gauges have from
    the requests served before.  A call whose goroutines have not moved yet
    stands for one that starts later. *)
Definition serving (c : TasmotaCollector) (replies : nat -> nat -> Reply)
    (requests : nat) (gs : Gauges) : State :=
  {| gauges := gs;
     scrapes := map (fun k => Collect c (replies k)) (seq 0 requests);
     panicked := false |}.

(** What reaches the sink. *)
Record Observation := {
  metric_name : bytes;
  labels : list (bytes * bytes);
  value : float64
}.

Definition observation (c : TasmotaCollector) (m : Gauge * float64) : Observation :=
  {| metric_name := fqName (vec c (fst (fst m)));
     labels := combine (variableLabels (vec c (fst (fst m)))) (snd (fst m));
     value := snd m |}.

(** The metrics the sink took from the goroutine of the i-th outlet, in the
    order it took them. *)
Definition receivedFrom (i : nat) (sc : Scrape) : list (Gauge * float64) :=
  map snd (filter (fun m => fst m = i) (received sc)).

Definition observationsOf (c : TasmotaCollector) (i : nat) (sc : Scrape)
    : list Observation :=
  map (observation c) (receivedFrom i sc).

(** The metrics a goroutine sends when it does not panic, with the values it
    sets them to. *)
Definition metrics (outlet : Outlet) (probed : TasmotaStatus + ProbeError)
    : list (Gauge * float64) :=
  match probed with
  | inr err => [((upGauge, [Name outlet]), 0%float)]
  | inl status =>
      [ ((upGauge, [Name outlet]), 1%float);
        ((onGauge, [Name outlet]),
         if (0 <? Power (ENERGY (StatusSNS status)))%float then 1%float else 0%float);
        ((voltageGauge, [Name outlet]), Voltage (ENERGY (StatusSNS status)));
        ((currentGauge, [Name outlet]), Current (ENERGY (StatusSNS status)));
        ((powerGauge, [Name outlet]), Power (ENERGY (StatusSNS status)));
        ((apparentPowerGauge, [Name outlet]), ApparentPower (ENERGY (StatusSNS status)));
        ((reactivePowerGauge, [Name outlet]), ReactivePower (ENERGY (StatusSNS status)));
        ((factorGauge, [Name outlet]), Factor (ENERGY (StatusSNS status)));
        ((todayGauge, [Name outlet]), Today (ENERGY (StatusSNS status)));
        ((yesterdayGauge, [Name outlet]), Yesterday (ENERGY (StatusSNS status)));
        ((totalGauge, [Name outlet]), Total (ENERGY (StatusSNS status)));
        ((temperatureGauge, [Name outlet]), Temperature (ESP32 (StatusSNS status))) ]
  end.

(** ** The shape of a goroutine, and what holds while the process serves *)

(** The [k]-th call of [Collect]; a call that does not exist has nothing. *)
Definition scrape (k : nat) (st : State) : Scrape :=
  match scrapes st !! k with
  | Some sc => sc
  | None => {| goroutines := []; ch := []; received := [] |}
  end.

(** The two instructions for one metric. *)
Definition block (m : Gauge * float64) : list Instr :=
  [GaugeSet (fst m) (snd m); GaugeCollect (fst m)].

Definition program (ms : list (Gauge * float64)) : list Instr :=
  flat_map block ms.

(** The label values of the gauge child an instruction works on. *)
Definition labelOf (ins : Instr) : option (list bytes) :=
  match ins with
  | GaugeSet g _ => Some (snd g)
  | GaugeCollect g => Some (snd g)
  | Panic => None
  end.

(** Every goroutine works on the gauge children labelled with the name of its
    own outlet. *)
Definition labelled (c : TasmotaCollector) (sc : Scrape) : Prop :=
  forall j rest,
    goroutines sc !! j = Some rest ->
    exists o, outlets c !! j = Some o /\
              Forall (fun ins => forall l, labelOf ins = Some l -> l = [Name o]) rest.

(** The move is made by a goroutine that works on the gauge children of the
    i-th outlet without being goroutine [i] of call [k]: the goroutine of the
    same outlet in another call, or the goroutine of an outlet that has the
    same name, in any call. *)
Definition meddles (c : TasmotaCollector) (k i : nat) (m : Move) : bool :=
  match m with
  | Run k' j =>
      negb ((k' =? k)%nat && (j =? i)%nat)
      && bool_decide (Name <$> outlets c !! j = Name <$> outlets c !! i)
  | Receive _ => false
  end.

Definition quiet (c : TasmotaCollector) (k i : nat) (schedule : list Move) : bool :=
  forallb (fun m => negb (meddles c k i m)) schedule.

(** From the first move of goroutine [i] of call [k] on, no other goroutine
    works on the gauge children of its outlet. *)
Fixpoint undisturbed (c : TasmotaCollector) (k i : nat) (schedule : list Move) : bool :=
  match schedule with
  | [] => true
  | Run k' j :: rest =>
      if (k' =? k)%nat && (j =? i)%nat then quiet c k i rest
      else undisturbed c k i rest
  | Receive _ :: rest => undisturbed c k i rest
  end.

Definition sentBy (i : nat) (sc : Scrape) : list Gauge :=
  map snd (filter (fun m => fst m = i) (ch sc)).

(** Where goroutine [i] of call [k] stands in the metrics [ms] it has to
    send: [D1] has been taken by the sink, [D2] is on the channel, [R] is
    still to be sent, the first of [R] being perhaps already set.  The values
    are known under [Q], which stands for: no other goroutine has worked on
    these gauge children since. *)
Definition tracks (Q : Prop) (k i : nat) (ms : list (Gauge * float64))
    (st : State) : Prop :=
  exists sc D1 D2 R,
    scrapes st !! k = Some sc /\
    ms = D1 ++ D2 ++ R /\
    map fst (receivedFrom i sc) = map fst D1 /\
    sentBy i sc = map fst D2 /\
    (Q ->
       receivedFrom i sc = D1 /\
       Forall (fun m => valueOf (gauges st) (fst m) = snd m) D2) /\
    (goroutines sc !! i = Some (program R) \/
     exists m R',
       R = m :: R' /\
       goroutines sc !! i = Some (GaugeCollect (fst m) :: program R') /\
       (Q -> valueOf (gauges st) (fst m) = snd m)).

(** Goroutine [i] of call [k] has not moved: it has [prog] to run and has
    sent nothing. *)
Definition idle (k i : nat) (prog : list Instr) (st : State) : Prop :=
  exists sc,
    scrapes st !! k = Some sc /\
    goroutines sc !! i = Some prog /\
    receivedFrom i sc = [] /\
    sentBy i sc = [].

(** Every metric in flight or taken comes from one of the [n] goroutines. *)
Definition tagged (n : nat) (sc : Scrape) : Prop :=
  length (goroutines sc) = n /\
  Forall (fun m => (fst m < n)%nat) (ch sc) /\
  Forall (fun m => (fst m < n)%nat) (received sc).

(** No goroutine has a [Panic] ahead. *)
Definition panic_free (st : State) : Prop :=
  Forall (fun sc => Forall (Forall (fun ins => ins <> Panic)) (goroutines sc))
         (scrapes st).

(** What is left to do in a call, and in all of them. *)
Definition toDo (sc : Scrape) : nat :=
  (2 * length (concat (goroutines sc)) + length (ch sc))%nat.

Definition work (st : State) : nat := sum_list_with toDo (scrapes st).

(** The call is over. *)
Definition done (sc : Scrape) : Prop :=
  Forall (fun rest => rest = []) (goroutines sc) /\ ch sc = [].

(** Every call is over and the process is alive. *)
Definition all_finished (st : State) : Prop :=
  panicked st = false /\ Forall done (scrapes st).

(** A gauge observation labelled with the name of an outlet. *)
Definition gauge_obs (name : bytes) (o : Outlet) (v : float64) : Observation :=
  {| metric_name := name; labels := [("outlet" : bytes, Name o)]; value := v |}.

(** The names of the twelve metrics of a reachable outlet, in the order its
    goroutine sends them. *)
Definition reachable_names : list bytes :=
  [ "tasmota_up" : bytes; "tasmota_on" : bytes; "tasmota_voltage_volts" : bytes;
    "tasmota_current_amperes" : bytes; "tasmota_power_watts" : bytes;
    "tasmota_apparent_power_voltamperes" : bytes;
    "tasmota_reactive_power_voltamperesreactive" : bytes;
    "tasmota_power_factor" : bytes; "tasmota_today_kwh_total" : bytes;
    "tasmota_yesterday_kwh_total" : bytes; "tasmota_kwh_total" : bytes;
    "tasmota_temperature_celsius" : bytes ].

(** The observations of one metric among those of an outlet. *)
Definition named (name : bytes) (obs : list Observation) : list Observation :=
  filter (fun ob => metric_name ob = name) obs.

(** The reachability gauges among the metrics the sink of a call has taken. *)
Definition upReceived (sc : Scrape) : list (nat * (Gauge * float64)) :=
  filter (fun m => fst (fst (snd m)) = upGauge) (received sc).

(** *** Scenarios *)

(** A body with the readings of the smoke test of the repository. *)
Definition reading_body (power temperature : float64) : json.Value :=
  json.JObject
    [("StatusSNS" : bytes,
      json.JObject
        [("Time" : bytes, json.JString "2025-01-15T10:30:00");
         ("ENERGY" : bytes,
          json.JObject
            [("TotalStartTime" : bytes, json.JString "2025-01-15T00:00:00");
             ("Total" : bytes, json.JNumber (InRange 1.5%float));
             ("Yesterday" : bytes, json.JNumber (InRange 0.8%float));
             ("Today" : bytes, json.JNumber (InRange 0.7%float));
             ("Power" : bytes, json.JNumber (InRange power));
             ("ApparentPower" : bytes, json.JNumber (InRange 50%float));
             ("ReactivePower" : bytes, json.JNumber (InRange 20%float));
             ("Factor" : bytes, json.JNumber (InRange 0.9%float));
             ("Voltage" : bytes, json.JNumber (InRange 240%float));
             ("Current" : bytes, json.JNumber (InRange 0.2%float))]);
         ("ESP32" : bytes,
          json.JObject [("Temperature" : bytes, json.JNumber (InRange temperature))])])].

(** One outlet, as in the tests of the repository. *)
Definition test_outlet : Outlet := {| Name := "test-outlet"; IP := "127.0.0.1:8080" |}.
Definition failing_outlet : Outlet :=
  {| Name := "failing-outlet"; IP := "127.0.0.1:8081" |}.

(** A third outlet, under a name of its own. *)
Definition kitchen_outlet : Outlet := {| Name := "kitchen"; IP := "192.168.1.102" |}.

(** An outlet as [parseOutlets] returns it for the flag made of the byte
    0xFF, a colon and an address: its name is not valid UTF-8. *)
Definition garbled_outlet : Outlet :=
  {| Name := [ascii_of_nat 255]; IP := "192.168.1.100" |}.

Definition garbled_flag : bytes := ascii_of_nat 255 :: ":192.168.1.100".

(** One request; a goroutine run to its end, then the sink. *)
Definition in_turn (instrs : nat) : list Move :=
  repeat (Run 0 0) instrs ++ repeat (Receive 0) (instrs / 2).


(** The first outlet does not answer, the others do. *)
Definition one_down (i : nat) : Reply :=
  match i with
  | O => NoResponse
  | _ => Body 200 (Some (reading_body 45.2%float 42.5%float))
  end.










(** Two requests at the same time for two outlets with different names.  In
    the first request the first outlet answers, with an active power of
    [power], and the second does not; in the second request both answer, with
    other readings. *)
Definition busy_replies (power : float64) (k i : nat) : Reply :=
  match k, i with
  | O, O => Body 200 (Some (reading_body power 42.5%float))
  | O, S _ => NoResponse
  | S _, _ => Body 200 (Some (reading_body 7%float 30%float))
  end.

(** The goroutine of the first outlet in the second request has run when its
    goroutine in the first request starts; the goroutines of the second
    outlet, in both requests, run in between the moves of that one. *)
Definition busy_up : list Move :=
  repeat (Run 1 0) 24 ++ repeat (Run 1 1) 3
  ++ [Run 0 1; Run 0 0; Run 1 1; Run 0 0; Receive 0; Run 0 1; Receive 0; Run 1 1]
  ++ repeat (Run 0 0) 22 ++ repeat (Run 1 1) 19
  ++ repeat (Receive 0) 11 ++ repeat (Receive 1) 24.


(** The state a schedule leads to. *)
Definition outcome (schedule : list Move) (st : State) : State :=
  match run schedule st with
  | Some st' => st'
  | None => st
  end.

(** The schedule can be run from the state: every move of it is enabled. *)
Definition runs (schedule : list Move) (st : State) : bool :=
  match run schedule st with
  | Some _ => true
  | None => false
  end.

(** [done] and [finished], as tests. *)
Definition is_done (sc : Scrape) : bool :=
  forallb (fun rest : list Instr => match rest with [] => true | _ :: _ => false end)
          (goroutines sc)
  && match ch sc with [] => true | _ :: _ => false end.

Definition is_finished (k : nat) (st : State) : bool :=
  negb (panicked st)
  && match scrapes st !! k with
     | Some sc => is_done sc
     | None => false
     end.

(** ** [Describe] *)

(** [Describe] sends the descriptor of each of the twelve gauge vectors, in
    the order of the source. *)
Definition Describe (c : TasmotaCollector) : list Desc :=
  [ vec c onGauge; vec c voltageGauge; vec c currentGauge; vec c powerGauge;
    vec c apparentPowerGauge; vec c reactivePowerGauge; vec c factorGauge;
    vec c todayGauge; vec c yesterdayGauge; vec c totalGauge; vec c upGauge;
    vec c temperatureGauge ].

(** ** [main] *)

(** The levels of [log/slog] the flag [-log-level] can select. *)
Inductive Level := LevelDebug | LevelInfo | LevelWarn | LevelError.

Inductive Handler :=
  | TextHandler (level : Level)    (* slog.NewTextHandler: a terminal *)
  | JSONHandler (level : Level).   (* slog.NewJSONHandler: a container *)

(** The error [http.ListenAndServe] returns; it never returns [nil]. *)
Inductive ServeError := ErrServerClosed | OtherServeError.

(** The exporter once it serves: the logger, the collector registered with
    the default registry and the address it listens on. *)
Record Server := {
  handler : Handler;
  registered : TasmotaCollector;
  addr : bytes
}.

(** What happens while [http.ListenAndServe] runs and how it returns: the
    requests to [/metrics] that come in, what the network does with their
    probes, the moves the scheduler makes (a move that is not enabled is
    passed over), and the error the server ends with if the process lives
    that long. *)
Record Traffic := {
  requests : nat;
  answers : nat -> nat -> Reply;
  moves : list Move;
  serveError : ServeError
}.

(** The state the scheduler's moves lead to. *)
Definition play (schedule : list Move) (st : State) : State :=
  fold_left (fun st m => match step m st with
                         | Some st' => st'
                         | None => st
                         end) schedule st.

(** How [main] ends: it logs [message] with [slog.Error] and exits with
    status 1 before it serves anything, or it serves and the process ends
    with an exit status. *)
Inductive Ending :=
  | Refused (message : bytes)
  | Served (server : Server) (status : Z).

(** The [switch *logLevel] of [main]. *)
Definition levelOf (logLevel : bytes) : option Level :=
  if bool_decide (logLevel = ("debug" : bytes)) then Some LevelDebug
  else if bool_decide (logLevel = ("info" : bytes)) then Some LevelInfo
  else if bool_decide (logLevel = ("warn" : bytes)) then Some LevelWarn
  else if bool_decide (logLevel = ("error" : bytes)) then Some LevelError
  else None.

(** [main], from the values of its three flags, whether standard output is a
    terminal, and what happens while it serves.  The [slog.Info] calls are
    left out; [prometheus.MustRegister] registers the collector, whose
    descriptors are fixed and have different names.  A goroutine of
    [Collect] that panics ends the process with status 2, the server not
    returning; otherwise [main] ends as the error of the server has it. *)
Definition main (listenAddr outlets logLevel : bytes) (isTerminal : bool)
    (traffic : Traffic) : Ending :=
  match levelOf logLevel with
  | None => Refused "invalid log level"
  | Some level =>
      let handler := if isTerminal then TextHandler level else JSONHandler level in
      if is_empty outlets then Refused "--outlets flag is required" else
      let outletList := parseOutlets outlets in
      if (length outletList =? 0)%nat
      then Refused "no valid outlet configurations found" else
      let collector := NewTasmotaCollector outletList in
      Served {| handler := handler; registered := collector; addr := listenAddr |}
             (if panicked (play (moves traffic)
                             (serving collector (answers traffic) (requests traffic) ∅))
              then 2
              else match serveError traffic with
                   | ErrServerClosed => 0
                   | OtherServeError => 1
                   end)
  end.

(** ** What the properties below speak of *)

(** A string with an ASCII white-space byte at one of its ends. *)
Definition padded (t : bytes) : Prop :=
  exists c rest,
    strings.asciiSpace c = true /\ (t = c :: rest \/ t = rest ++ [c]).

(** The first byte of a string, if any, is no ASCII white space. *)
Definition solid_head (t : bytes) : Prop :=
  forall c rest, t = c :: rest -> strings.asciiSpace c = false.

(** The same for its last byte. *)
Definition solid_last (t : bytes) : Prop :=
  forall c rest, t = rest ++ [c] -> strings.asciiSpace c = false.

(** The number of metrics the goroutine of the i-th outlet sends. *)
Definition observationCount (replies : nat -> Reply) (i : nat) : nat :=
  match probeTasmota (replies i) with
  | inl _ => 12
  | inr _ => 1
  end.

(** The gauge children the sink of a call has taken, in the order it took
    them: what a registry tells one metric from another by. *)
Definition identities (sc : Scrape) : list Gauge :=
  map (fun m => fst (snd m)) (received sc).

(** * Proofs *)


(** ** [strings.Split] *)

Lemma Split_nonempty (s : bytes) (sep : ascii) : strings.Split s sep <> [].
Proof.
  destruct s as [|c s]; simpl; [discriminate|].
  destruct (Ascii.eqb c sep); [discriminate|].
  destruct (strings.Split s sep); discriminate.
Qed.

Lemma Split_app (s1 s2 : bytes) (sep : ascii) :
  strings.Split (s1 ++ sep :: s2) sep = strings.Split s1 sep ++ strings.Split s2 sep.
Proof.
  induction s1 as [|c s1 IH]; simpl.
  - now rewrite Ascii.eqb_refl.
  - rewrite IH. destruct (Ascii.eqb c sep); [reflexivity|].
    pose proof (Split_nonempty s1 sep) as Hne.
    destruct (strings.Split s1 sep); [contradiction|reflexivity].
Qed.

Lemma Split_length (s : bytes) (sep : ascii) :
  length (strings.Split s sep) = S (count_occ ascii_dec s sep).
Proof.
  induction s as [|c s IH]; simpl; [reflexivity|].
  destruct (Ascii.eqb_spec c sep) as [->|Hne].
  - destruct (ascii_dec sep sep); [|contradiction]. simpl. now rewrite IH.
  - destruct (ascii_dec c sep); [contradiction|].
    pose proof (Split_nonempty s sep).
    destruct (strings.Split s sep); [contradiction|]. exact IH.
Qed.

Lemma Split_no_sep (s : bytes) (sep : ascii) :
  ~ In sep s -> strings.Split s sep = [s].
Proof.
  induction s as [|c s IH]; simpl; intros Hnot; [reflexivity|].
  destruct (Ascii.eqb_spec c sep) as [->|Hne]; [tauto|].
  rewrite IH by tauto. reflexivity.
Qed.

(** ** The loop of [parseOutlets] as one function *)

Lemma parseOutlets_body_spec (outlets : list Outlet) (entry : bytes) :
  parseOutlets_body outlets entry = outlets ++ outlet_of entry.
Proof.
  unfold parseOutlets_body, outlet_of, spec_entry.
  destruct (strings.TrimSpace entry) as [|c t] eqn:Ht.
  - simpl. symmetry. apply app_nil_r.
  - remember (strings.Split (c :: t) ":") as parts eqn:Hparts.
    change (is_empty (c :: t)) with false. cbv iota.
    destruct parts as [|p0 [|p1 [|p2 ps]]]; simpl;
      try (symmetry; apply app_nil_r).
    destruct (is_empty (strings.TrimSpace p0) || is_empty (strings.TrimSpace p1));
      [symmetry; apply app_nil_r | reflexivity].
Qed.

Lemma fold_parseOutlets_body (entries : list bytes) (outlets : list Outlet) :
  fold_left parseOutlets_body entries outlets = outlets ++ omap spec_entry entries.
Proof.
  revert outlets. induction entries as [|e entries IH]; intros outlets; simpl.
  - now rewrite app_nil_r.
  - rewrite IH, parseOutlets_body_spec. unfold outlet_of.
    destruct (spec_entry e); simpl; rewrite <- app_assoc; reflexivity.
Qed.

Lemma parseOutlets_spec_parse (s : bytes) : parseOutlets s = spec_parse s.
Proof. unfold parseOutlets, spec_parse. now rewrite fold_parseOutlets_body. Qed.

Lemma parseOutlets_app (s1 s2 : bytes) :
  parseOutlets (s1 ++ "," ++ s2) = parseOutlets s1 ++ parseOutlets s2.
Proof.
  rewrite !parseOutlets_spec_parse. unfold spec_parse.
  change (s1 ++ "," ++ s2) with (s1 ++ ","%char :: s2).
  rewrite Split_app. apply omap_app.
Qed.

(** ** What [TrimSpace] removes *)

Lemma b2z_range (c : ascii) : 0 <= b2z c < 256.
Proof.
  unfold b2z. pose proof (N_ascii_bounded c) as Hb. lia.
Qed.

Lemma IsSpace_ascii (c : ascii) :
  b2z c < utf8.RuneSelf -> unicode.IsSpace (b2z c) = true -> strings.asciiSpace c = true.
Proof.
  destruct c as [[] [] [] [] [] [] [] []]; vm_compute; congruence.
Qed.

Lemma first_cases (b : Z) :
  (b < 0x80 /\ utf8.first b = utf8.as_) \/
  (0x80 <= b /\ utf8.first b = utf8.xx) \/
  (0xC2 <= b /\
   In (utf8.first b) [utf8.s1; utf8.s2; utf8.s3; utf8.s4; utf8.s5; utf8.s6; utf8.s7]).
Proof.
  unfold utf8.first.
  repeat match goal with
         | |- context [if ?b <? ?c then _ else _] => destruct (Z.ltb_spec b c)
         | |- context [if ?b =? ?c then _ else _] => destruct (Z.eqb_spec b c)
         end; simpl;
    first [ left; split; [lia|reflexivity]
          | right; left; split; [lia|reflexivity]
          | right; right; split; [lia|simpl; auto 10] ].
Qed.

Lemma DecodeRuneInString_spec (s : bytes) (r : Z) (size : nat) :
  s <> [] ->
  utf8.DecodeRuneInString s = (r, size) ->
  (1 <= size <= length s)%nat /\
  (Forall high (firstn size s) \/
   (size = 1%nat /\ r = at_ s 0 /\ r < utf8.RuneSelf)).
Proof.
  destruct s as [|c0 t]; [congruence|]. intros _.
  unfold utf8.DecodeRuneInString.
  change (at_ (c0 :: t) 0) with (b2z c0).
  change (length (c0 :: t) <? 1)%nat with false. cbv iota.
  pose proof (b2z_range c0) as R0.
  destruct (first_cases (b2z c0)) as [[Hlt E]|[[Hge E]|[Hge Hin]]].
  - rewrite E. simpl. rewrite Z.land_0_r, Z.lor_0_r.
    change (Z.lnot 0) with (-1). rewrite Z.land_m1_r.
    intros [= <- <-]. split; [simpl; lia|]. right. unfold utf8.RuneSelf. auto.
  - rewrite E. simpl. intros [= _ <-]. split; [simpl; lia|]. left.
    simpl. constructor; [|constructor]. unfold high, utf8.RuneSelf. lia.
  - simpl in Hin.
    destruct Hin as [E|[E|[E|[E|[E|[E|[E|[]]]]]]]]; rewrite <- E; clear E;
      unfold utf8.s1, utf8.s2, utf8.s3, utf8.s4, utf8.s5, utf8.s6, utf8.s7,
             utf8.locb, utf8.hicb;
      destruct t as [|c1 [|c2 [|c3 t]]]; simpl; unfold at_; simpl;
      repeat match goal with
             | |- context [if ?b then _ else _] => destruct b eqn:?
             end;
      intros [= <- <-]; (split; [simpl; lia|]); left; simpl;
      repeat match goal with
             | H : _ || _ = false |- _ =>
                 apply orb_false_elim in H; destruct H as [?H _]
             | H : (_ <? _) = false |- _ => apply Z.ltb_ge in H
             end;
      try change (take 0 t) with (@nil ascii);
      unfold high, utf8.RuneSelf, utf8.locb in *;
      repeat constructor; lia.
Qed.

Lemma backToRuneStart_le (fuel : nat) (s : bytes) (lim start : Z) :
  utf8.backToRuneStart fuel s lim start <= start.
Proof.
  revert start. induction fuel as [|fuel IH]; intros start; simpl; [lia|].
  destruct (start <? lim); [lia|].
  destruct (utf8.RuneStart _); [lia|].
  specialize (IH (start - 1)). lia.
Qed.

Lemma at_skipn (s : bytes) (k i : nat) : at_ (skipn k s) i = at_ s (k + i).
Proof.
  unfold at_. f_equal. revert s. induction k as [|k IH]; intros s; [reflexivity|].
  destruct s as [|c s]; simpl; [now destruct i|apply IH].
Qed.

Lemma skipn_last_byte (s : bytes) :
  s <> [] -> skipn (length s - 1) s = [nth (length s - 1) s Ascii.zero].
Proof.
  induction s as [|c s IH]; [congruence|]. intros _.
  destruct s as [|c' s]; [reflexivity|].
  replace (length (c :: c' :: s) - 1)%nat with (S (length (c' :: s) - 1))
    by (simpl; lia).
  simpl skipn. simpl nth. apply IH. discriminate.
Qed.

Lemma DecodeLastRuneInString_spec (p : bytes) (r : Z) (size : nat) :
  p <> [] ->
  utf8.DecodeLastRuneInString p = (r, size) ->
  (1 <= size <= length p)%nat /\
  (Forall high (skipn (length p - size) p) \/
   (size = 1%nat /\ r = at_ p (length p - 1) /\ r < utf8.RuneSelf)).
Proof.
  intros Hne. unfold utf8.DecodeLastRuneInString.
  assert (0 < length p)%nat as Hlen by (destruct p; [congruence|simpl; lia]).
  destruct (Z.eqb_spec (Z.of_nat (length p)) 0) as [E|_]; [lia|].
  replace (Z.to_nat (Z.of_nat (length p) - 1)) with (length p - 1)%nat by lia.
  destruct (Z.ltb_spec (at_ p (length p - 1)) utf8.RuneSelf) as [Hlt|Hge].
  - intros [= <- <-]. split; [lia|]. right. auto.
  - set (start := Z.max 0 _).
    assert (0 <= start < Z.of_nat (length p)) as Hstart.
    { subst start.
      pose proof (backToRuneStart_le (S utf8.UTFMax) p
                    (Z.max 0 (Z.of_nat (length p) - Z.of_nat utf8.UTFMax))
                    (Z.of_nat (length p) - 1 - 1)).
      lia. }
    assert (Forall high (skipn (length p - 1) p)) as Hlast.
    { rewrite skipn_last_byte by assumption. repeat constructor. exact Hge. }
    destruct (utf8.DecodeRuneInString (skipn (Z.to_nat start) p)) as [r' size'] eqn:Hdec.
    destruct (Z.eqb_spec (start + Z.of_nat size') (Z.of_nat (length p))) as [Hsum|_].
    + intros [= <- <-].
      apply DecodeRuneInString_spec in Hdec.
      2:{ intros Hnil. apply (f_equal (@length ascii)) in Hnil.
          rewrite length_skipn in Hnil. simpl in Hnil. lia. }
      destruct Hdec as [Hsize [Hhigh|(-> & _ & _)]].
      * split; [lia|]. left.
        replace (length p - size')%nat with (Z.to_nat start) by lia.
        rewrite firstn_all2 in Hhigh; [exact Hhigh|].
        rewrite length_skipn. lia.
      * split; [lia|]. left. exact Hlast.
    + intros [= <- <-]. split; [lia|]. left. exact Hlast.
Qed.

Lemma high_blank (c : ascii) : high c -> blank c.
Proof. intros H. right. exact H. Qed.

Lemma Forall_high_blank (s : bytes) : Forall high s -> Forall blank s.
Proof. induction 1; constructor; auto using high_blank. Qed.

Lemma Forall_skipn_le {A} (P : A -> Prop) (s : list A) (a b : nat) :
  (a <= b)%nat -> Forall P (skipn a s) -> Forall P (skipn b s).
Proof.
  intros Hab H. replace b with (a + (b - a))%nat by lia.
  rewrite <- drop_drop. now apply Forall_drop.
Qed.

Lemma skipn_split {A} (s : list A) (j i : nat) :
  (j <= i)%nat -> (i <= length s)%nat ->
  skipn j s = skipn j (firstn i s) ++ skipn i s.
Proof.
  intros Hji Hi. rewrite <- (firstn_skipn i s) at 1.
  rewrite skipn_app, length_firstn.
  replace (j - Nat.min i (length s))%nat with 0%nat by lia. reflexivity.
Qed.

(** The bytes of a rune that [IsSpace] holds of, read forwards. *)
Lemma DecodeRuneInString_space (s : bytes) (r : Z) (size : nat) :
  s <> [] ->
  utf8.DecodeRuneInString s = (r, size) ->
  unicode.IsSpace r = true ->
  Forall blank (firstn size s).
Proof.
  intros Hne Hdec Hsp.
  destruct (DecodeRuneInString_spec s r size Hne Hdec) as [_ [Hh|(-> & -> & Hlt)]].
  - now apply Forall_high_blank.
  - destruct s as [|c t]; [congruence|]. simpl. constructor; [|constructor].
    left. now apply IsSpace_ascii.
Qed.

(** The same, read backwards. *)
Lemma DecodeLastRuneInString_space (p : bytes) (r : Z) (size : nat) :
  p <> [] ->
  utf8.DecodeLastRuneInString p = (r, size) ->
  unicode.IsSpace r = true ->
  Forall blank (skipn (length p - size) p).
Proof.
  intros Hne Hdec Hsp.
  destruct (DecodeLastRuneInString_spec p r size Hne Hdec) as [_ [Hh|(-> & -> & Hlt)]].
  - now apply Forall_high_blank.
  - rewrite skipn_last_byte by assumption. constructor; [|constructor].
    left. now apply IsSpace_ascii.
Qed.

Lemma indexFunc_loop_spec (fuel : nat) (s : bytes) (i : nat) :
  (length s <= fuel)%nat ->
  match strings.indexFunc_loop fuel s i unicode.IsSpace false with
  | Some j => exists k, j = (i + k)%nat /\ (k <= length s)%nat /\ Forall blank (firstn k s)
  | None => Forall blank s
  end.
Proof.
  revert s i. induction fuel as [|fuel IH]; intros s i Hfuel.
  - destruct s; [constructor|simpl in Hfuel; lia].
  - simpl. destruct s as [|c t]; [constructor|].
    destruct (utf8.DecodeRuneInString (c :: t)) as [r size] eqn:Hdec.
    assert (c :: t <> []) as Hne by discriminate.
    destruct (DecodeRuneInString_spec _ _ _ Hne Hdec) as [Hsize _].
    destruct (unicode.IsSpace r) eqn:Hsp; simpl Bool.eqb; cbv iota.
    + pose proof (DecodeRuneInString_space _ _ _ Hne Hdec Hsp) as Hbl.
      specialize (IH (skipn size (c :: t)) (i + size)%nat).
      rewrite length_skipn in IH. specialize (IH ltac:(simpl in *; lia)).
      destruct (strings.indexFunc_loop fuel _ _ _ _) as [j|].
      * destruct IH as (k & -> & Hk & Hbl').
        exists (size + k)%nat. split; [lia|]. split; [lia|].
        rewrite <- take_take_drop. apply Forall_app. split; assumption.
      * rewrite <- (firstn_skipn size (c :: t)). apply Forall_app. split; assumption.
    + exists 0%nat. split; [lia|]. split; [lia|]. constructor.
Qed.

Lemma TrimLeftFunc_spec (s : bytes) :
  exists pre, s = pre ++ strings.TrimLeftFunc s unicode.IsSpace /\ Forall blank pre.
Proof.
  unfold strings.TrimLeftFunc, strings.indexFunc.
  pose proof (indexFunc_loop_spec (length s) s 0 (Nat.le_refl _)) as H.
  destruct (strings.indexFunc_loop _ _ _ _ _) as [j|].
  - destruct H as (k & -> & _ & Hbl). exists (firstn k s).
    now rewrite firstn_skipn.
  - exists s. now rewrite app_nil_r.
Qed.

Lemma lastIndexFunc_loop_spec (fuel : nat) (s : bytes) (i : nat) :
  (i <= length s)%nat -> (i <= fuel)%nat ->
  Forall blank (skipn i s) ->
  match strings.lastIndexFunc_loop fuel s i unicode.IsSpace false with
  | Some j => (j < i)%nat /\ Forall blank (skipn (S j) s)
  | None => Forall blank s
  end.
Proof.
  revert i. induction fuel as [|fuel IH]; intros i Hi Hfuel Hbl.
  - replace i with 0%nat in Hbl by lia. exact Hbl.
  - simpl. destruct (Nat.ltb_spec 0 i) as [Hpos|Hzero].
    2:{ replace i with 0%nat in Hbl by lia. exact Hbl. }
    destruct (utf8.DecodeLastRuneInString (firstn i s)) as [r size] eqn:Hdec.
    assert (length (firstn i s) = i) as Hlen by (rewrite length_firstn; lia).
    assert (firstn i s <> []) as Hne.
    { intros E. rewrite E in Hlen. simpl in Hlen. lia. }
    destruct (DecodeLastRuneInString_spec _ _ _ Hne Hdec) as [Hsize Hshape].
    rewrite Hlen in Hsize, Hshape.
    destruct (unicode.IsSpace r) eqn:Hsp; simpl Bool.eqb; cbv iota.
    + pose proof (DecodeLastRuneInString_space _ _ _ Hne Hdec Hsp) as Hbl'.
      rewrite Hlen in Hbl'.
      specialize (IH (i - size)%nat ltac:(lia) ltac:(lia)).
      assert (Forall blank (skipn (i - size) s)) as Hall.
      { rewrite (skipn_split s (i - size) i) by lia.
        apply Forall_app. split; assumption. }
      specialize (IH Hall).
      destruct (strings.lastIndexFunc_loop fuel s _ _ _) as [j|]; [|exact IH].
      destruct IH as [Hj Hblj]. split; [lia|exact Hblj].
    + split; [lia|].
      rewrite (skipn_split s (S (i - size)) i) by lia.
      apply Forall_app. split; [|exact Hbl].
      destruct Hshape as [Hh|(-> & _)].
      * apply Forall_high_blank.
        apply (Forall_skipn_le _ _ (i - size)%nat); [lia|exact Hh].
      * replace (S (i - 1)) with i by lia.
        rewrite skipn_all2 by lia. constructor.
Qed.

Lemma TrimRightFunc_spec (s : bytes) :
  exists post, s = strings.TrimRightFunc s unicode.IsSpace ++ post /\ Forall blank post.
Proof.
  unfold strings.TrimRightFunc, strings.lastIndexFunc.
  pose proof (lastIndexFunc_loop_spec (length s) s (length s)
                (Nat.le_refl _) (Nat.le_refl _)) as H.
  rewrite skipn_all in H. specialize (H ltac:(constructor)).
  destruct (strings.lastIndexFunc_loop _ _ _ _ _) as [j|].
  - destruct H as [Hj Hbl].
    assert (forall k, (S j <= k)%nat ->
            exists post, s = firstn k s ++ post /\ Forall blank post) as Hk.
    { intros k Hle. exists (skipn k s). rewrite firstn_skipn. split; [reflexivity|].
      now apply (Forall_skipn_le _ _ (S j)). }
    destruct (utf8.RuneSelf <=? at_ s j).
    + apply Hk.
      destruct (utf8.DecodeRuneInString (skipn j s)) as [r wid] eqn:Hdec.
      apply DecodeRuneInString_spec in Hdec; [simpl; lia|].
      intros E. apply (f_equal (@length ascii)) in E.
      rewrite length_skipn in E. simpl in E. lia.
    + apply Hk. lia.
  - exists s. split; [reflexivity|exact H].
Qed.

Lemma TrimFunc_spec (s : bytes) :
  exists pre post,
    s = pre ++ strings.TrimFunc s unicode.IsSpace ++ post /\
    Forall blank pre /\ Forall blank post.
Proof.
  unfold strings.TrimFunc.
  destruct (TrimLeftFunc_spec s) as (pre & Hs & Hpre).
  destruct (TrimRightFunc_spec (strings.TrimLeftFunc s unicode.IsSpace))
    as (post & Ht & Hpost).
  exists pre, post. rewrite <- Ht. auto.
Qed.

Lemma skipASCIISpace_spec (s : bytes) :
  match strings.skipASCIISpace s with
  | strings.AtEnd => Forall blank s
  | strings.NonASCII rest | strings.NonSpace rest =>
      exists pre, s = pre ++ rest /\ Forall blank pre
  end.
Proof.
  induction s as [|c s IH]; simpl; [constructor|].
  destruct (utf8.RuneSelf <=? b2z c); [exists []; split; [reflexivity|constructor]|].
  destruct (strings.asciiSpace c) eqn:Hsp; [|exists []; split; [reflexivity|constructor]].
  assert (blank c) as Hc by (left; exact Hsp).
  destruct (strings.skipASCIISpace s) as [|rest|rest].
  - constructor; assumption.
  - destruct IH as (pre & -> & Hpre). exists (c :: pre). split; [reflexivity|].
    constructor; assumption.
  - destruct IH as (pre & -> & Hpre). exists (c :: pre). split; [reflexivity|].
    constructor; assumption.
Qed.

(** [TrimSpace] returns a piece of its argument, and what it cuts off on
    either side is made of blank bytes only. *)
Lemma TrimSpace_spec (s : bytes) :
  exists pre post,
    s = pre ++ strings.TrimSpace s ++ post /\ Forall blank pre /\ Forall blank post.
Proof.
  unfold strings.TrimSpace.
  pose proof (skipASCIISpace_spec s) as H1.
  destruct (strings.skipASCIISpace s) as [|rest|rest].
  - exists s, []. rewrite app_nil_r. repeat split; [assumption|constructor].
  - destruct H1 as (pre & -> & Hpre).
    destruct (TrimFunc_spec rest) as (pre' & post & Hrest & Hpre' & Hpost).
    exists (pre ++ pre'), post. rewrite <- app_assoc, <- Hrest.
    repeat split; [|assumption]. apply Forall_app. split; assumption.
  - destruct H1 as (pre & -> & Hpre).
    pose proof (skipASCIISpace_spec (rev rest)) as H2.
    destruct (strings.skipASCIISpace (rev rest)) as [|tser|tser].
    + exists (pre ++ rest), []. rewrite app_nil_r.
      repeat split; [|constructor]. apply Forall_app. split; [assumption|].
      rewrite <- (rev_involutive rest). now apply Forall_rev.
    + destruct H2 as (q & Hq & Hbl).
      apply (f_equal (@rev ascii)) in Hq. rewrite rev_involutive, rev_app_distr in Hq.
      destruct (TrimRightFunc_spec (rev tser)) as (post & Ht & Hpost).
      exists pre, (post ++ rev q).
      repeat split; [|assumption|].
      * rewrite Hq. f_equal. rewrite app_assoc. f_equal. exact Ht.
      * apply Forall_app. split; [assumption|]. now apply Forall_rev.
    + destruct H2 as (q & Hq & Hbl).
      apply (f_equal (@rev ascii)) in Hq. rewrite rev_involutive, rev_app_distr in Hq.
      exists pre, (rev q). rewrite <- Hq.
      repeat split; [assumption|]. now apply Forall_rev.
Qed.

Lemma count_occ_blank (s : bytes) (c : ascii) :
  ~ blank c -> Forall blank s -> count_occ ascii_dec s c = 0%nat.
Proof.
  intros Hc Hs. apply count_occ_not_In. intros Hin.
  rewrite Forall_forall in Hs. apply Hc, Hs.
  now apply list_elem_of_In.
Qed.

Lemma TrimSpace_count_occ (s : bytes) (c : ascii) :
  ~ blank c ->
  count_occ ascii_dec (strings.TrimSpace s) c = count_occ ascii_dec s c.
Proof.
  intros Hc. destruct (TrimSpace_spec s) as (pre & post & Hs & Hpre & Hpost).
  rewrite Hs at 2. rewrite !count_occ_app.
  rewrite (count_occ_blank pre), (count_occ_blank post) by assumption. lia.
Qed.

Lemma colon_not_blank : ~ blank ":".
Proof. unfold blank. vm_compute. intros [H|H]; [discriminate|now apply H]. Qed.

Lemma parseOutlets_single (entry : bytes) :
  ~ In ","%char entry -> parseOutlets entry = outlet_of entry.
Proof.
  intros Hno. unfold parseOutlets. rewrite Split_no_sep by assumption.
  simpl. now rewrite parseOutlets_body_spec.
Qed.


(** ** The rune decoders and the table of white space *)

Lemma allZ_spec (n : nat) (lo : Z) (f : Z -> bool) :
  allZ n lo f = true -> forall z, lo <= z < lo + Z.of_nat n -> f z = true.
Proof.
  revert lo. induction n as [|n IH]; intros lo Hall z Hz; [lia|].
  simpl in Hall. apply andb_prop in Hall as [Hlo Hrest].
  destruct (Z.eq_dec z lo) as [->|Hne]; [exact Hlo|].
  apply (IH (lo + 1) Hrest). lia.
Qed.

Lemma byte_b2z (c : ascii) : ascii_of_N (Z.to_N (b2z c)) = c.
Proof. unfold b2z. rewrite N2Z.id. apply ascii_N_embedding. Qed.

Lemma bytes_of_b2z (w : bytes) : bytes_of (map b2z w) = w.
Proof.
  unfold bytes_of. rewrite map_map. induction w as [|c w IH]; [reflexivity|].
  simpl. now rewrite byte_b2z, IH.
Qed.

Lemma isWhiteSpaceZ_In (w : bytes) :
  isWhiteSpaceZ (map b2z w) = true -> In w whiteSpace.
Proof.
  unfold isWhiteSpaceZ, whiteSpace. intros H.
  apply existsb_exists in H as (wz & Hin & Heq). apply bool_decide_eq_true in Heq.
  rewrite <- (bytes_of_b2z w), <- Heq. now apply in_map.
Qed.

Lemma first_ranges (b : Z) :
  0 <= b ->
  (utf8.first b = utf8.s1 -> 0xC2 <= b < 0xE0) /\
  (utf8.first b = utf8.s2 -> b = 0xE0) /\
  (utf8.first b = utf8.s3 -> 0xE1 <= b < 0xF0) /\
  (utf8.first b = utf8.s4 -> b = 0xED) /\
  (utf8.first b = utf8.s5 -> b = 0xF0) /\
  (utf8.first b = utf8.s6 -> 0xF1 <= b < 0xF4) /\
  (utf8.first b = utf8.s7 -> b = 0xF4).
Proof.
  intros Hb. unfold utf8.first.
  repeat match goal with
         | |- context [if ?b <? ?c then _ else _] => destruct (Z.ltb_spec b c)
         | |- context [if ?b =? ?c then _ else _] => destruct (Z.eqb_spec b c)
         end;
    repeat match goal with |- _ /\ _ => split end; intros E; try discriminate E; lia.
Qed.

Lemma spaces2 :
  allZ 30 0xC2 (fun b0 =>
    allZ 64 0x80 (fun b1 =>
      implb (unicode.IsSpace (rune2 b0 b1)) (isWhiteSpaceZ [b0; b1]))) = true.
Proof. vm_compute. reflexivity. Qed.

Lemma spaces3 :
  allZ 16 0xE0 (fun b0 =>
    allZ 64 0x80 (fun b1 =>
      allZ 64 0x80 (fun b2 =>
        implb (accepted b0 b1 && unicode.IsSpace (rune3 b0 b1 b2))
              (isWhiteSpaceZ [b0; b1; b2])))) = true.
Proof. vm_compute. reflexivity. Qed.

Lemma heads4 :
  allZ 5 0xF0 (fun b0 =>
    allZ 64 0x80 (fun b1 =>
      implb (accepted b0 b1)
            (16 <=? Z.log2 (Z.lor (Z.shiftl (Z.land b0 utf8.mask4) 18)
                                  (Z.shiftl (Z.land b1 utf8.maskx) 12))))) = true.
Proof. vm_compute. reflexivity. Qed.

Lemma IsSpace_small (r : Z) : unicode.IsSpace r = true -> r <= 0x3000.
Proof.
  unfold unicode.IsSpace, unicode.MaxLatin1.
  destruct (Z.leb_spec r 0xFF); [lia|].
  unfold unicode.isExcludingLatin, unicode.White_Space_R16. simpl.
  repeat match goal with
         | |- context [?a <=? ?b] => destruct (Z.leb_spec a b)
         end; simpl; intros E; try discriminate E; lia.
Qed.

Lemma rune4_large (b0 b1 b2 b3 : Z) :
  0xF0 <= b0 < 0xF5 -> 0x80 <= b1 < 0xC0 -> accepted b0 b1 = true ->
  0 <= b2 -> 0 <= b3 ->
  unicode.IsSpace (rune4 b0 b1 b2 b3) = false.
Proof.
  intros H0 H1 Hacc H2 H3.
  destruct (unicode.IsSpace (rune4 b0 b1 b2 b3)) eqn:Hsp; [|reflexivity].
  apply IsSpace_small in Hsp. exfalso.
  pose proof (allZ_spec _ _ _ heads4 b0 ltac:(lia)) as Hh. cbv beta in Hh.
  pose proof (allZ_spec _ _ _ Hh b1 ltac:(lia)) as Hh1. cbv beta in Hh1.
  rewrite Hacc in Hh1. simpl in Hh1. apply Z.leb_le in Hh1.
  unfold rune4 in Hsp.
  set (head := Z.lor (Z.shiftl (Z.land b0 utf8.mask4) 18)
                     (Z.shiftl (Z.land b1 utf8.maskx) 12)) in *.
  set (c := Z.shiftl (Z.land b2 utf8.maskx) 6) in *.
  set (d := Z.land b3 utf8.maskx) in *.
  assert (0 <= head) as Hhead.
  { subst head. apply Z.lor_nonneg. split; apply Z.shiftl_nonneg, Z.land_nonneg; lia. }
  assert (0 <= c) as Hc by (subst c; apply Z.shiftl_nonneg, Z.land_nonneg; lia).
  assert (0 <= d) as Hd by (subst d; apply Z.land_nonneg; lia).
  assert (0 <= Z.lor head c) as Hhc by (apply Z.lor_nonneg; lia).
  assert (16 <= Z.log2 (Z.lor (Z.lor head c) d)) as Hlog.
  { rewrite !Z.log2_lor by assumption. lia. }
  assert (0 < Z.lor (Z.lor head c) d) as Hpos.
  { destruct (Z.lt_ge_cases 0 (Z.lor (Z.lor head c) d)) as [|Hle]; [assumption|].
    rewrite (Z.log2_nonpos _ Hle) in Hlog. lia. }
  pose proof (Z.log2_spec _ Hpos) as [Hlow _].
  pose proof (Z.pow_le_mono_r 2 16 (Z.log2 (Z.lor (Z.lor head c) d)) ltac:(lia) Hlog)
    as Hpow.
  change (2 ^ 16) with 65536 in Hpow. lia.
Qed.

(** The conditions of the decoder, as ranges. *)
Ltac ranges :=
  repeat match goal with
         | H : _ || _ = false |- _ =>
             apply orb_false_elim in H; destruct H as [?H ?H]
         | H : (_ <? _) = false |- _ => apply Z.ltb_ge in H
         | H : (_ <? _) = true |- _ => apply Z.ltb_lt in H
         end.

(** A rune that is white space comes from the bytes of a white-space
    character. *)
Lemma DecodeRuneInString_white (P : list Z -> Prop) (c0 : ascii) (t : bytes)
      (r : Z) (size : nat) :
  (forall zs, isWhiteSpaceZ zs = true -> P zs) ->
  utf8.DecodeRuneInString (c0 :: t) = (r, size) ->
  unicode.IsSpace r = true ->
  P (map b2z (firstn size (c0 :: t))).
Proof.
  intros HP. unfold utf8.DecodeRuneInString.
  change (at_ (c0 :: t) 0) with (b2z c0).
  change (length (c0 :: t) <? 1)%nat with false. cbv iota.
  pose proof (b2z_range c0) as R0.
  pose proof (first_ranges (b2z c0) ltac:(lia))
    as (F1 & F2 & F3 & F4 & F5 & F6 & F7).
  destruct (first_cases (b2z c0)) as [[Hlt E]|[[Hge E]|[Hge Hin]]].
  - rewrite E. simpl. rewrite Z.land_0_r, Z.lor_0_r.
    change (Z.lnot 0) with (-1). rewrite Z.land_m1_r.
    intros [= <- <-] Hsp. simpl. apply HP.
    apply IsSpace_ascii in Hsp; [|exact Hlt]. clear -Hsp.
    destruct c0 as [[] [] [] [] [] [] [] []]; vm_compute in Hsp; try discriminate Hsp;
      vm_compute; reflexivity.
  - rewrite E. simpl. change (Z.lnot (-1)) with 0.
    rewrite Z.land_0_r, Z.lor_0_l, Z.land_m1_r.
    intros [= <- _] Hsp. vm_compute in Hsp. discriminate Hsp.
  - simpl in Hin.
    destruct Hin as [E|[E|[E|[E|[E|[E|[E|[]]]]]]]]; symmetry in E;
      [ specialize (F1 E) | specialize (F2 E) | specialize (F3 E) | specialize (F4 E)
      | specialize (F5 E) | specialize (F6 E) | specialize (F7 E) ];
      pose proof (eq_refl : accepted (b2z c0) = accepted (b2z c0)) as Hacc;
      unfold accepted at 2 in Hacc;
      rewrite E; rewrite E in Hacc; clear E;
      unfold utf8.s1, utf8.s2, utf8.s3, utf8.s4, utf8.s5, utf8.s6, utf8.s7,
             utf8.locb, utf8.hicb in *;
      destruct t as [|c1 [|c2 [|c3 t]]]; simpl; unfold at_; simpl;
      try pose proof (b2z_range c1) as R1;
      try pose proof (b2z_range c2) as R2;
      try pose proof (b2z_range c3) as R3;
      repeat match goal with
             | |- context [if ?b then _ else _] => destruct b eqn:?
             end;
      intros [= <- <-] Hsp;
      try (lazymatch type of Hsp with
           | unicode.IsSpace utf8.RuneError = _ => idtac
           | unicode.IsSpace 65533 = _ => idtac
           end; vm_compute in Hsp; discriminate Hsp);
      ranges; unfold utf8.locb, utf8.hicb in *; simpl.
    all: try (apply HP;
              pose proof (allZ_spec _ _ _ spaces2 (b2z c0) ltac:(lia)) as Hc0;
              cbv beta in Hc0;
              pose proof (allZ_spec _ _ _ Hc0 (b2z c1) ltac:(lia)) as Hc1;
              cbv beta in Hc1; unfold rune2 in Hc1;
              rewrite Hsp in Hc1; exact Hc1).
    all: try (apply HP;
              pose proof (allZ_spec _ _ _ spaces3 (b2z c0) ltac:(lia)) as Hc0;
              cbv beta in Hc0;
              pose proof (allZ_spec _ _ _ Hc0 (b2z c1) ltac:(lia)) as Hc1;
              cbv beta in Hc1;
              pose proof (allZ_spec _ _ _ Hc1 (b2z c2) ltac:(lia)) as Hc2;
              cbv beta in Hc2; unfold rune3 in Hc2;
              rewrite Hsp in Hc2;
              replace (accepted (b2z c0) (b2z c1)) with true in Hc2
                by (rewrite Hacc; cbv beta; simpl; unfold utf8.locb, utf8.hicb; symmetry; apply andb_true_iff;
                    split; apply Z.leb_le; lia);
              exact Hc2).
    all: try (exfalso;
              assert (unicode.IsSpace (rune4 (b2z c0) (b2z c1) (b2z c2) (b2z c3)) = false)
                as Hno
                by (apply rune4_large; try lia;
                    rewrite Hacc; cbv beta; simpl; unfold utf8.locb, utf8.hicb; apply andb_true_iff; split; apply Z.leb_le; lia);
              unfold rune4 in Hno; congruence).
Qed.

(** *** White space at the head of a string *)

Lemma whiteSpace_decodes :
  Forall (fun w => forall rest, exists r,
            utf8.DecodeRuneInString (w ++ rest) = (r, length w) /\
            unicode.IsSpace r = true) whiteSpace.
Proof.
  unfold whiteSpace, whiteSpaceZ. simpl map.
  repeat (apply List.Forall_cons;
          [intros rest; eexists; split; [vm_compute; reflexivity|vm_compute; reflexivity]|]).
  apply List.Forall_nil.
Qed.

Lemma whiteSpace_decode (w rest : bytes) :
  In w whiteSpace ->
  exists r, utf8.DecodeRuneInString (w ++ rest) = (r, length w) /\
            unicode.IsSpace r = true.
Proof.
  intros Hin. pose proof whiteSpace_decodes as H.
  rewrite List.Forall_forall in H. apply (H w Hin).
Qed.

Lemma DecodeRuneInString_table (c : ascii) (t : bytes) (r : Z) (size : nat) :
  utf8.DecodeRuneInString (c :: t) = (r, size) ->
  unicode.IsSpace r = true ->
  In (firstn size (c :: t)) whiteSpace.
Proof.
  intros Hdec Hsp. apply isWhiteSpaceZ_In.
  apply (DecodeRuneInString_white (fun zs => isWhiteSpaceZ zs = true) c t r size);
    auto.
Qed.

Lemma stripPrefix_Some (w s rest : bytes) :
  stripPrefix w s = Some rest <-> s = w ++ rest.
Proof.
  revert s. induction w as [|c w IH]; intros s; simpl.
  - split; [intros [= ->]; reflexivity|intros ->; reflexivity].
  - destruct s as [|d s]; [split; discriminate|].
    destruct (Ascii.eqb_spec c d) as [->|Hne].
    + rewrite IH. split; [intros ->; reflexivity|intros [= ->]; reflexivity].
    + split; [discriminate|intros [= E _]; congruence].
Qed.

Lemma leadingSpace_Some (s rest : bytes) :
  leadingSpace s = Some rest -> exists w, In w whiteSpace /\ s = w ++ rest.
Proof.
  unfold leadingSpace. generalize whiteSpace as table.
  induction table as [|w table IH]; simpl; [discriminate|].
  destruct (stripPrefix w s) as [rest'|] eqn:E.
  - intros [= ->]. apply stripPrefix_Some in E. eauto.
  - intros H. destruct (IH H) as (w' & Hin & Hs). eauto.
Qed.

Lemma leadingSpace_None (s : bytes) :
  leadingSpace s = None -> forall w rest, In w whiteSpace -> s <> w ++ rest.
Proof.
  unfold leadingSpace. generalize whiteSpace as table.
  induction table as [|w table IH]; simpl; [tauto|].
  destruct (stripPrefix w s) as [rest'|] eqn:E; [discriminate|].
  intros H w' rest [<-|Hin] Hs.
  - apply stripPrefix_Some in Hs. congruence.
  - exact (IH H w' rest Hin Hs).
Qed.

(** The first character of a string is white space exactly when the rune the
    decoder reads there is, and it is as wide as the decoder says. *)
Lemma leadingSpace_decode (c : ascii) (t : bytes) (r : Z) (size : nat) :
  utf8.DecodeRuneInString (c :: t) = (r, size) ->
  leadingSpace (c :: t)
    = if unicode.IsSpace r then Some (skipn size (c :: t)) else None.
Proof.
  intros Hdec.
  destruct (leadingSpace (c :: t)) as [rest|] eqn:Hlead.
  - apply leadingSpace_Some in Hlead as (w & Hin & Hs).
    destruct (whiteSpace_decode w rest Hin) as (r' & Hdec' & Hsp).
    rewrite <- Hs, Hdec in Hdec'. injection Hdec' as -> ->.
    rewrite Hsp, Hs, skipn_app, skipn_all, Nat.sub_diag. reflexivity.
  - destruct (unicode.IsSpace r) eqn:Hsp; [|reflexivity].
    pose proof (DecodeRuneInString_table c t r size Hdec Hsp) as Hin.
    exfalso. apply (leadingSpace_None _ Hlead _ (skipn size (c :: t)) Hin).
    now rewrite firstn_skipn.
Qed.

Lemma leadingSpace_nil : leadingSpace [] = None.
Proof. vm_compute. reflexivity. Qed.

Lemma leadingSpace_shorter (s rest : bytes) :
  leadingSpace s = Some rest -> (length rest < length s)%nat.
Proof.
  intros H. apply leadingSpace_Some in H as (w & Hin & ->).
  rewrite length_app. enough (length w <> 0)%nat by lia.
  destruct w; [|discriminate]. exfalso. revert Hin. vm_compute.
  intuition discriminate.
Qed.

(** Fuel past the length of the string changes nothing. *)
Lemma strip_fuel (one : bytes -> option bytes) (fuel : nat) (s : bytes) :
  (forall s rest, one s = Some rest -> (length rest < length s)%nat) ->
  (length s <= fuel)%nat ->
  strip one fuel s = strip one (length s) s.
Proof.
  intros Hone. revert s.
  assert (forall n fuel s, (length s <= n)%nat -> (length s <= fuel)%nat ->
          strip one fuel s = strip one n s) as H.
  { induction n as [|n IH]; intros fuel' s Hn Hfuel.
    - destruct s; [|simpl in Hn; lia]. destruct fuel'; simpl; [reflexivity|].
      destruct (one []) as [rest|] eqn:E; [|reflexivity].
      apply Hone in E. simpl in E. lia.
    - destruct fuel' as [|fuel'].
      + destruct s; [|simpl in Hfuel; lia]. simpl.
        destruct (one []) as [rest|] eqn:E; [|reflexivity].
        apply Hone in E. simpl in E. lia.
      + simpl. destruct (one s) as [rest|] eqn:E; [|reflexivity].
        apply Hone in E. apply IH; lia. }
  intros s Hfuel. apply H; lia.
Qed.

Lemma indexFunc_loop_strip (fuel : nat) (s : bytes) (i : nat) :
  (length s <= fuel)%nat ->
  match strings.indexFunc_loop fuel s i unicode.IsSpace false with
  | Some j => exists k, j = (i + k)%nat /\ skipn k s = strip leadingSpace fuel s
  | None => strip leadingSpace fuel s = []
  end.
Proof.
  revert s i. induction fuel as [|fuel IH]; intros s i Hfuel.
  - destruct s; [reflexivity|simpl in Hfuel; lia].
  - simpl. destruct s as [|c t]; [now rewrite leadingSpace_nil|].
    destruct (utf8.DecodeRuneInString (c :: t)) as [r size] eqn:Hdec.
    rewrite (leadingSpace_decode c t r size Hdec).
    assert (c :: t <> []) as Hne by discriminate.
    destruct (DecodeRuneInString_spec _ _ _ Hne Hdec) as [Hsize _].
    destruct (unicode.IsSpace r) eqn:Hsp; simpl Bool.eqb; cbv iota.
    + specialize (IH (skipn size (c :: t)) (i + size)%nat).
      rewrite length_skipn in IH. specialize (IH ltac:(simpl in *; lia)).
      destruct (strings.indexFunc_loop fuel _ _ _ _) as [j|]; [|exact IH].
      destruct IH as (k & -> & Hk). exists (size + k)%nat. split; [lia|].
      rewrite <- Hk. symmetry. apply drop_drop.
    + exists 0%nat. split; [lia|reflexivity].
Qed.

(** [TrimLeftFunc] with [IsSpace] takes the white space off the head of the
    string, one character of the table after the other. *)
Lemma TrimLeftFunc_trimLeft (s : bytes) :
  strings.TrimLeftFunc s unicode.IsSpace = spec_trimLeft s.
Proof.
  unfold strings.TrimLeftFunc, strings.indexFunc, spec_trimLeft.
  pose proof (indexFunc_loop_strip (length s) s 0 (Nat.le_refl _)) as H.
  destruct (strings.indexFunc_loop _ _ _ _ _) as [j|].
  - destruct H as (k & -> & Hk). exact Hk.
  - symmetry. exact H.
Qed.

(** *** White space at the end of a string *)

Lemma RuneStart_byte (c : ascii) :
  utf8.RuneStart (b2z c) = negb ((0x80 <=? b2z c) && (b2z c <=? 0xBF)).
Proof. destruct c as [[] [] [] [] [] [] [] []]; vm_compute; reflexivity. Qed.

Lemma RuneStart_past (s : bytes) (i : nat) :
  (length s <= i)%nat -> utf8.RuneStart (at_ s i) = true.
Proof. intros H. unfold at_. rewrite nth_overflow by exact H. reflexivity. Qed.

Lemma at_app_l (q w : bytes) (i : nat) :
  (i < length q)%nat -> at_ (q ++ w) i = at_ q i.
Proof. intros H. unfold at_. now rewrite app_nth1. Qed.

Lemma at_app_r (q w : bytes) (i : nat) :
  (length q <= i)%nat -> at_ (q ++ w) i = at_ w (i - length q).
Proof. intros H. unfold at_. now rewrite app_nth2. Qed.

Lemma DecodeRuneInString_ascii (c : ascii) (t : bytes) :
  b2z c < utf8.RuneSelf -> utf8.DecodeRuneInString (c :: t) = (b2z c, 1%nat).
Proof.
  intros Hlt. unfold utf8.DecodeRuneInString.
  change (at_ (c :: t) 0) with (b2z c).
  change (length (c :: t) <? 1)%nat with false. cbv iota.
  unfold utf8.RuneSelf in Hlt.
  destruct (first_cases (b2z c)) as [[_ E]|[[Hge _]|[Hge _]]]; [|lia|lia].
  rewrite E. simpl. rewrite Z.land_0_r, Z.lor_0_r.
  change (Z.lnot 0) with (-1). now rewrite Z.land_m1_r.
Qed.

Lemma backToRuneStart_found (k : nat) (fuel : nat) (s : bytes) (lim start : Z) :
  (k < fuel)%nat -> lim <= start - Z.of_nat k ->
  (forall j, (j < k)%nat ->
             utf8.RuneStart (at_ s (Z.to_nat (start - Z.of_nat j))) = false) ->
  utf8.RuneStart (at_ s (Z.to_nat (start - Z.of_nat k))) = true ->
  utf8.backToRuneStart fuel s lim start = start - Z.of_nat k.
Proof.
  revert fuel start. induction k as [|k IH]; intros fuel start Hfuel Hlim Hno Hyes.
  - destruct fuel as [|fuel]; [lia|]. simpl.
    destruct (Z.ltb_spec start lim); [lia|].
    rewrite Z.sub_0_r in Hyes. rewrite Hyes. lia.
  - destruct fuel as [|fuel]; [lia|]. simpl.
    destruct (Z.ltb_spec start lim); [lia|].
    specialize (Hno 0%nat ltac:(lia)) as H0. rewrite Z.sub_0_r in H0. rewrite H0.
    rewrite (IH fuel (start - 1)); [lia|lia|lia| |].
    + intros j Hj. specialize (Hno (S j) ltac:(lia)).
      replace (start - 1 - Z.of_nat j) with (start - Z.of_nat (S j)) by lia. exact Hno.
    + replace (start - 1 - Z.of_nat k) with (start - Z.of_nat (S k)) by lia. exact Hyes.
Qed.

(** A character of several bytes is read backwards as it is read forwards. *)
Lemma DecodeLastRuneInString_app (q w : bytes) (r : Z) :
  (2 <= length w <= 4)%nat ->
  utf8.RuneStart (at_ w 0) = true ->
  (forall j, (1 <= j < length w)%nat -> utf8.RuneStart (at_ w j) = false) ->
  utf8.DecodeRuneInString w = (r, length w) ->
  utf8.DecodeLastRuneInString (q ++ w) = (r, length w).
Proof.
  intros Hlen Hstart Hcont Hdec. unfold utf8.DecodeLastRuneInString.
  rewrite length_app.
  destruct (Z.eqb_spec (Z.of_nat (length q + length w)) 0) as [E|_]; [lia|].
  replace (Z.to_nat (Z.of_nat (length q + length w) - 1))
    with (length q + length w - 1)%nat by lia.
  rewrite at_app_r by lia.
  replace (length q + length w - 1 - length q)%nat with (length w - 1)%nat by lia.
  assert (utf8.RuneSelf <= at_ w (length w - 1)) as Hhigh.
  { specialize (Hcont (length w - 1)%nat ltac:(lia)).
    unfold at_ in *. rewrite RuneStart_byte in Hcont.
    apply negb_false_iff, andb_true_iff in Hcont as [H1 _].
    apply Z.leb_le in H1. exact H1. }
  destruct (Z.ltb_spec (at_ w (length w - 1)) utf8.RuneSelf) as [Hlt|_]; [lia|].
  rewrite (backToRuneStart_found (length w - 2)).
  - replace (Z.max 0 (Z.of_nat (length q + length w) - 1 - 1 - Z.of_nat (length w - 2)))
      with (Z.of_nat (length q)) by lia.
    rewrite Nat2Z.id, skipn_app, skipn_all, Nat.sub_diag.
    change ([] ++ skipn 0 w) with w. rewrite Hdec.
    destruct (Z.eqb_spec (Z.of_nat (length q) + Z.of_nat (length w))
                (Z.of_nat (length q + length w))); [reflexivity|lia].
  - unfold utf8.UTFMax. lia.
  - unfold utf8.UTFMax. lia.
  - intros j Hj.
    replace (Z.to_nat (Z.of_nat (length q + length w) - 1 - 1 - Z.of_nat j))
      with (length q + (length w - 2 - j))%nat by lia.
    rewrite at_app_r by lia.
    replace (length q + (length w - 2 - j) - length q)%nat
      with (length w - 2 - j)%nat by lia.
    apply Hcont. lia.
  - replace (Z.to_nat (Z.of_nat (length q + length w) - 1 - 1
                       - Z.of_nat (length w - 2)))
      with (length q + 0)%nat by lia.
    rewrite at_app_r by lia.
    replace (length q + 0 - length q)%nat with 0%nat by lia. exact Hstart.
Qed.

Lemma DecodeLastRuneInString_ascii (q : bytes) (c : ascii) :
  b2z c < utf8.RuneSelf -> utf8.DecodeLastRuneInString (q ++ [c]) = (b2z c, 1%nat).
Proof.
  intros Hlt. unfold utf8.DecodeLastRuneInString. rewrite length_app.
  destruct (Z.eqb_spec (Z.of_nat (length q + length [c])) 0) as [E|_];
    [simpl in E; lia|].
  replace (Z.to_nat (Z.of_nat (length q + length [c]) - 1)) with (length q)
    by (simpl; lia).
  rewrite at_app_r by lia. rewrite Nat.sub_diag.
  change (at_ [c] 0) with (b2z c).
  destruct (Z.ltb_spec (b2z c) utf8.RuneSelf); [reflexivity|lia].
Qed.

Lemma whiteSpace_decodes_last :
  Forall (fun w => forall q, exists r,
            utf8.DecodeLastRuneInString (q ++ w) = (r, length w) /\
            unicode.IsSpace r = true) whiteSpace.
Proof.
  unfold whiteSpace, whiteSpaceZ. simpl map.
  repeat (apply List.Forall_cons;
          [intros q;
           first
             [ eexists; split;
               [apply DecodeLastRuneInString_ascii; vm_compute; reflexivity
               |vm_compute; reflexivity]
             | eexists; split;
               [apply DecodeLastRuneInString_app;
                [simpl; lia
                |vm_compute; reflexivity
                |intros j Hj; simpl in Hj;
                 destruct j as [|[|[|[|j]]]]; try lia; vm_compute; reflexivity
                |vm_compute; reflexivity]
               |vm_compute; reflexivity] ]|]).
  apply List.Forall_nil.
Qed.

Lemma whiteSpace_decode_last (q w : bytes) :
  In w whiteSpace ->
  exists r, utf8.DecodeLastRuneInString (q ++ w) = (r, length w) /\
            unicode.IsSpace r = true.
Proof.
  intros Hin. pose proof whiteSpace_decodes_last as H.
  rewrite List.Forall_forall in H. apply (H w Hin).
Qed.

(** What the backward decoder returns is the error rune, or what the forward
    decoder reads in the last bytes of the string. *)
Lemma DecodeLastRuneInString_inv (p : bytes) (r : Z) (size : nat) :
  p <> [] ->
  utf8.DecodeLastRuneInString p = (r, size) ->
  (r = utf8.RuneError /\ size = 1%nat) \/
  ((1 <= size <= length p)%nat /\
   utf8.DecodeRuneInString (skipn (length p - size) p) = (r, size)).
Proof.
  intros Hne. unfold utf8.DecodeLastRuneInString.
  assert (0 < length p)%nat as Hlen by (destruct p; [congruence|simpl; lia]).
  destruct (Z.eqb_spec (Z.of_nat (length p)) 0) as [E|_]; [lia|].
  replace (Z.to_nat (Z.of_nat (length p) - 1)) with (length p - 1)%nat by lia.
  destruct (Z.ltb_spec (at_ p (length p - 1)) utf8.RuneSelf) as [Hlt|Hge].
  - intros [= <- <-]. right. split; [lia|].
    rewrite skipn_last_byte by assumption. now apply DecodeRuneInString_ascii.
  - set (start := Z.max 0 _).
    assert (0 <= start < Z.of_nat (length p)) as Hstart.
    { subst start.
      pose proof (backToRuneStart_le (S utf8.UTFMax) p
                    (Z.max 0 (Z.of_nat (length p) - Z.of_nat utf8.UTFMax))
                    (Z.of_nat (length p) - 1 - 1)).
      lia. }
    destruct (utf8.DecodeRuneInString (skipn (Z.to_nat start) p)) as [r' size'] eqn:Hdec.
    destruct (Z.eqb_spec (start + Z.of_nat size') (Z.of_nat (length p))) as [Hsum|_].
    + intros [= <- <-]. right.
      pose proof Hdec as Hspec. apply DecodeRuneInString_spec in Hspec.
      2:{ intros Hnil. apply (f_equal (@length ascii)) in Hnil.
          rewrite length_skipn in Hnil. simpl in Hnil. lia. }
      destruct Hspec as [Hsize _]. split; [lia|].
      replace (length p - size')%nat with (Z.to_nat start) by lia. exact Hdec.
    + intros [= <- <-]. left. split; reflexivity.
Qed.

Lemma DecodeLastRuneInString_table (p : bytes) (r : Z) (size : nat) :
  p <> [] ->
  utf8.DecodeLastRuneInString p = (r, size) ->
  unicode.IsSpace r = true ->
  (size <= length p)%nat /\ In (skipn (length p - size) p) whiteSpace.
Proof.
  intros Hne Hdec Hsp.
  destruct (DecodeLastRuneInString_inv p r size Hne Hdec) as [[-> _]|[Hsize Hfwd]].
  - vm_compute in Hsp. discriminate Hsp.
  - split; [lia|].
    assert (length (skipn (length p - size) p) = size) as Hlen
      by (rewrite length_skipn; lia).
    destruct (skipn (length p - size) p) as [|c t] eqn:E; [simpl in Hlen; lia|].
    pose proof (DecodeRuneInString_table c t r size Hfwd Hsp) as Hin.
    rewrite firstn_all2 in Hin by lia. exact Hin.
Qed.

Lemma trailingSpace_Some (s p : bytes) :
  trailingSpace s = Some p -> exists w, In w whiteSpace /\ s = p ++ w.
Proof.
  unfold trailingSpace. generalize whiteSpace as table.
  induction table as [|w table IH]; simpl; [discriminate|].
  destruct (stripPrefix (rev w) (rev s)) as [tser|] eqn:E.
  - intros [= <-]. apply stripPrefix_Some in E. exists w. split; [now left|].
    apply (f_equal (@rev ascii)) in E.
    now rewrite rev_involutive, rev_app_distr, rev_involutive in E.
  - intros H. destruct (IH H) as (w' & Hin & Hs). eauto.
Qed.

Lemma trailingSpace_None (s : bytes) :
  trailingSpace s = None -> forall w p, In w whiteSpace -> s <> p ++ w.
Proof.
  unfold trailingSpace. generalize whiteSpace as table.
  induction table as [|w table IH]; simpl; [tauto|].
  destruct (stripPrefix (rev w) (rev s)) as [tser|] eqn:E; [discriminate|].
  intros H w' p [<-|Hin] Hs.
  - assert (stripPrefix (rev w) (rev s) = Some (rev p)) as E'
      by (apply stripPrefix_Some; now rewrite Hs, rev_app_distr).
    congruence.
  - exact (IH H w' p Hin Hs).
Qed.

(** The last character of a string is white space exactly when the rune the
    decoder reads there is, and it is as wide as the decoder says. *)
Lemma trailingSpace_decode (p : bytes) (r : Z) (size : nat) :
  p <> [] ->
  utf8.DecodeLastRuneInString p = (r, size) ->
  trailingSpace p
    = if unicode.IsSpace r then Some (firstn (length p - size) p) else None.
Proof.
  intros Hne Hdec.
  destruct (trailingSpace p) as [q|] eqn:Htrail.
  - apply trailingSpace_Some in Htrail as (w & Hin & Hs).
    destruct (whiteSpace_decode_last q w Hin) as (r' & Hdec' & Hsp).
    rewrite <- Hs, Hdec in Hdec'. injection Hdec' as -> ->.
    rewrite Hsp, Hs, length_app, Nat.add_sub, firstn_app, firstn_all, Nat.sub_diag.
    simpl. now rewrite app_nil_r.
  - destruct (unicode.IsSpace r) eqn:Hsp; [|reflexivity].
    destruct (DecodeLastRuneInString_table p r size Hne Hdec Hsp) as [_ Hin].
    exfalso. apply (trailingSpace_None _ Htrail _ (firstn (length p - size) p) Hin).
    now rewrite firstn_skipn.
Qed.

Lemma trailingSpace_nil : trailingSpace [] = None.
Proof. vm_compute. reflexivity. Qed.

Lemma whiteSpace_nonempty (w : bytes) : In w whiteSpace -> (1 <= length w)%nat.
Proof.
  intros Hin. destruct w; [|simpl; lia]. exfalso. revert Hin. vm_compute.
  intuition discriminate.
Qed.

Lemma whiteSpace_starts (w : bytes) :
  In w whiteSpace -> utf8.RuneStart (at_ w 0) = true.
Proof.
  intros Hin.
  assert (Forall (fun w => utf8.RuneStart (at_ w 0) = true) whiteSpace) as H
    by (unfold whiteSpace, whiteSpaceZ; simpl map;
        repeat (apply List.Forall_cons; [vm_compute; reflexivity|]);
        apply List.Forall_nil).
  rewrite List.Forall_forall in H. exact (H w Hin).
Qed.

Lemma trailingSpace_shorter (s p : bytes) :
  trailingSpace s = Some p -> (length p < length s)%nat.
Proof.
  intros H. apply trailingSpace_Some in H as (w & Hin & ->).
  rewrite length_app. pose proof (whiteSpace_nonempty w Hin). lia.
Qed.

(** A byte that is not followed by a continuation byte is read as a rune of
    one byte. *)
Lemma DecodeRuneInString_width_one (c0 : ascii) (t : bytes) :
  utf8.RuneStart (at_ (c0 :: t) 1) = true ->
  snd (utf8.DecodeRuneInString (c0 :: t)) = 1%nat.
Proof.
  unfold utf8.DecodeRuneInString.
  change (at_ (c0 :: t) 0) with (b2z c0).
  change (length (c0 :: t) <? 1)%nat with false. cbv iota.
  destruct (first_cases (b2z c0)) as [[Hlt E]|[[Hge E]|[Hge Hin]]].
  - rewrite E. reflexivity.
  - rewrite E. reflexivity.
  - simpl in Hin.
    destruct Hin as [E|[E|[E|[E|[E|[E|[E|[]]]]]]]]; rewrite <- E; clear E;
      unfold utf8.s1, utf8.s2, utf8.s3, utf8.s4, utf8.s5, utf8.s6, utf8.s7,
             utf8.locb, utf8.hicb;
      destruct t as [|c1 t]; try (intros _; reflexivity);
      change (at_ (c0 :: c1 :: t) 1) with (b2z c1);
      rewrite RuneStart_byte; intros Hc1;
      apply negb_true_iff in Hc1; simpl;
      repeat match goal with
             | |- context [if ?b then _ else _] => destruct b eqn:?
             end; try reflexivity;
      ranges; unfold utf8.locb, utf8.hicb in *;
      exfalso; apply andb_false_iff in Hc1 as [Hc1|Hc1]; apply Z.leb_gt in Hc1; lia.
Qed.

(** A rune of several bytes is read from those bytes, whatever comes after
    them. *)
Lemma DecodeRuneInString_app (c0 : ascii) (t q : bytes) (r : Z) (size : nat) :
  utf8.DecodeRuneInString (c0 :: t) = (r, size) ->
  (2 <= size)%nat ->
  utf8.DecodeRuneInString (firstn size (c0 :: t) ++ q) = (r, size).
Proof.
  unfold utf8.DecodeRuneInString at 1.
  change (at_ (c0 :: t) 0) with (b2z c0).
  change (length (c0 :: t) <? 1)%nat with false. cbv iota.
  destruct (first_cases (b2z c0)) as [[Hlt E]|[[Hge E]|[Hge Hin]]].
  - rewrite E. simpl. intros [= _ <-]. lia.
  - rewrite E. simpl. intros [= _ <-]. lia.
  - simpl in Hin.
    destruct Hin as [E|[E|[E|[E|[E|[E|[E|[]]]]]]]]; symmetry in E; rewrite E;
      unfold utf8.s1, utf8.s2, utf8.s3, utf8.s4, utf8.s5, utf8.s6, utf8.s7 in *;
      destruct t as [|c1 [|c2 [|c3 t]]]; simpl; unfold at_; simpl;
      repeat match goal with
             | |- context [if ?b then _ else _] => destruct b eqn:?
             end;
      intros [= <- <-] Hsize; try lia;
      unfold utf8.DecodeRuneInString; simpl; unfold at_; simpl; rewrite E; simpl;
      repeat match goal with
             | H : ?b = _ |- context [if ?b then _ else _] => rewrite H
             end;
      reflexivity.
Qed.

Lemma firstn_firstn_le {A} (s : list A) (a b : nat) :
  (a <= b)%nat -> firstn a (firstn b s) = firstn a s.
Proof. intros H. rewrite firstn_firstn. f_equal. lia. Qed.

Lemma at_firstn (s : bytes) (n i : nat) :
  (i < n)%nat -> at_ (firstn n s) i = at_ s i.
Proof.
  intros H. unfold at_. f_equal. revert s i H.
  induction n as [|n IH]; intros s i H; [lia|].
  destruct s as [|c s]; [reflexivity|]. destruct i as [|i]; [reflexivity|].
  simpl. apply IH. lia.
Qed.

(** The loop of [lastIndexFunc] stops at the last rune that is not white
    space: at the end of what is left when the white space is taken off, one
    character of the table after the other. *)
Lemma lastIndexFunc_loop_strip (fuel : nat) (s : bytes) (i : nat) :
  (i <= length s)%nat -> (i <= fuel)%nat ->
  utf8.RuneStart (at_ s i) = true ->
  match strings.lastIndexFunc_loop fuel s i unicode.IsSpace false with
  | Some j =>
      exists r size,
        (1 <= size)%nat /\ (j + size <= length s)%nat /\
        utf8.DecodeLastRuneInString (firstn (j + size) s) = (r, size) /\
        utf8.RuneStart (at_ s (j + size)) = true /\
        strip trailingSpace fuel (firstn i s) = firstn (j + size) s
  | None => strip trailingSpace fuel (firstn i s) = []
  end.
Proof.
  revert i. induction fuel as [|fuel IH]; intros i Hi Hfuel Hnext.
  - replace i with 0%nat by lia. reflexivity.
  - cbn [strings.lastIndexFunc_loop strip].
    destruct (Nat.ltb_spec 0 i) as [Hpos|Hzero].
    2:{ replace i with 0%nat by lia. change (firstn 0 s) with (@nil ascii).
        now rewrite trailingSpace_nil. }
    destruct (utf8.DecodeLastRuneInString (firstn i s)) as [r size] eqn:Hdec.
    assert (length (firstn i s) = i) as Hlen by (rewrite length_firstn; lia).
    assert (firstn i s <> []) as Hne.
    { intros E. rewrite E in Hlen. simpl in Hlen. lia. }
    destruct (DecodeLastRuneInString_spec _ _ _ Hne Hdec) as [Hsize _].
    rewrite Hlen in Hsize.
    rewrite (trailingSpace_decode _ r size Hne Hdec), Hlen.
    destruct (unicode.IsSpace r) eqn:Hsp; simpl Bool.eqb; cbv iota.
    + rewrite firstn_firstn_le by lia.
      apply IH; [lia|lia|].
      destruct (DecodeLastRuneInString_table _ _ _ Hne Hdec Hsp) as [_ Hin].
      rewrite Hlen in Hin. apply whiteSpace_starts in Hin.
      rewrite at_skipn, Nat.add_0_r, at_firstn in Hin by lia. exact Hin.
    + exists r, size.
      replace (i - size + size)%nat with i by lia.
      repeat split; try assumption; lia.
Qed.

(** [TrimRightFunc] with [IsSpace] takes the white space off the end of the
    string, one character of the table after the other. *)
Lemma TrimRightFunc_trimRight (s : bytes) :
  strings.TrimRightFunc s unicode.IsSpace = spec_trimRight s.
Proof.
  unfold strings.TrimRightFunc, strings.lastIndexFunc, spec_trimRight.
  pose proof (lastIndexFunc_loop_strip (length s) s (length s)
                (Nat.le_refl _) (Nat.le_refl _)
                (RuneStart_past s (length s) (Nat.le_refl _))) as H.
  rewrite firstn_all in H.
  destruct (strings.lastIndexFunc_loop _ _ _ _ _) as [j|]; [|now rewrite H].
  destruct H as (r & size & Hsize & Hle & Hdec & Hnext & ->).
  assert (length (firstn (j + size) s) = (j + size)%nat) as Hlen
    by (rewrite length_firstn; lia).
  assert (firstn (j + size) s <> []) as Hne.
  { intros E. rewrite E in Hlen. simpl in Hlen. lia. }
  assert (skipn j s = skipn j (firstn (j + size) s) ++ skipn (j + size) s) as Hsplit
    by (apply skipn_split; lia).
  assert (length (skipn j (firstn (j + size) s)) = size) as Hlast
    by (rewrite length_skipn; lia).
  destruct (Nat.eq_dec size 1%nat) as [->|Hmore].
  - destruct (Z.leb_spec utf8.RuneSelf (at_ s j)); [|reflexivity].
    destruct (skipn j s) as [|c0 t] eqn:E.
    { apply (f_equal (@length ascii)) in E. rewrite length_skipn in E.
      simpl in E. lia. }
    rewrite DecodeRuneInString_width_one; [reflexivity|].
    rewrite <- E, at_skipn. exact Hnext.
  - destruct (DecodeLastRuneInString_inv _ _ _ Hne Hdec) as [[_ ->]|[_ Hfwd]]; [lia|].
    rewrite Hlen in Hfwd. replace (j + size - size)%nat with j in Hfwd by lia.
    destruct (skipn j (firstn (j + size) s)) as [|c0 t] eqn:E;
      [simpl in Hlast; lia|].
    pose proof (DecodeRuneInString_app c0 t (skipn (j + size) s) r size Hfwd
                  ltac:(lia)) as Happ.
    rewrite firstn_all2 in Happ by lia. rewrite <- Hsplit in Happ.
    rewrite Happ. simpl snd.
    assert (c0 :: t <> []) as Hne' by discriminate.
    destruct (DecodeRuneInString_spec _ _ _ Hne' Hfwd) as [_ [Hhigh|(-> & _)]];
      [|lia].
    assert (utf8.RuneSelf <= at_ s j) as Hj.
    { replace (at_ s j) with (b2z c0).
      - destruct size; [lia|]. simpl in Hhigh. now apply Forall_cons in Hhigh as [Hc _].
      - replace (at_ s j) with (at_ (skipn j s) 0)
          by (rewrite at_skipn; f_equal; lia).
        rewrite Hsplit. reflexivity. }
    destruct (Z.leb_spec utf8.RuneSelf (at_ s j)); [reflexivity|lia].
Qed.

(** [TrimFunc] with [IsSpace]. *)
Lemma TrimFunc_trim (s : bytes) : strings.TrimFunc s unicode.IsSpace = spec_trim s.
Proof.
  unfold strings.TrimFunc, spec_trim.
  now rewrite TrimLeftFunc_trimLeft, TrimRightFunc_trimRight.
Qed.

(** *** The two loops of [TrimSpace] over the ASCII bytes *)

Lemma IsSpace_asciiSpace (c : ascii) :
  b2z c < utf8.RuneSelf -> unicode.IsSpace (b2z c) = strings.asciiSpace c.
Proof. destruct c as [[] [] [] [] [] [] [] []]; vm_compute; congruence. Qed.

Lemma leadingSpace_ascii (c : ascii) (t : bytes) :
  b2z c < utf8.RuneSelf ->
  leadingSpace (c :: t) = if strings.asciiSpace c then Some t else None.
Proof.
  intros Hlt.
  rewrite (leadingSpace_decode c t _ _ (DecodeRuneInString_ascii c t Hlt)).
  now rewrite IsSpace_asciiSpace.
Qed.

Lemma trailingSpace_ascii (q : bytes) (c : ascii) :
  b2z c < utf8.RuneSelf ->
  trailingSpace (q ++ [c]) = if strings.asciiSpace c then Some q else None.
Proof.
  intros Hlt.
  assert (q ++ [c] <> []) as Hne by (destruct q; discriminate).
  rewrite (trailingSpace_decode _ _ _ Hne (DecodeLastRuneInString_ascii q c Hlt)).
  rewrite IsSpace_asciiSpace by exact Hlt.
  rewrite length_app, Nat.add_sub, firstn_app, firstn_all, Nat.sub_diag.
  simpl. now rewrite app_nil_r.
Qed.

Lemma skipASCIISpace_trimLeft (s : bytes) :
  match strings.skipASCIISpace s with
  | strings.AtEnd => spec_trimLeft s = []
  | strings.NonASCII rest => spec_trimLeft s = spec_trimLeft rest
  | strings.NonSpace rest => spec_trimLeft s = rest
  end.
Proof.
  induction s as [|c s IH]; [reflexivity|]. cbn [strings.skipASCIISpace].
  destruct (Z.leb_spec utf8.RuneSelf (b2z c)) as [Hge|Hlt]; [reflexivity|].
  assert (spec_trimLeft (c :: s)
          = if strings.asciiSpace c then spec_trimLeft s else c :: s) as ->.
  { unfold spec_trimLeft. cbn [length strip].
    rewrite (leadingSpace_ascii c s Hlt). now destruct (strings.asciiSpace c). }
  destruct (strings.asciiSpace c); [exact IH|reflexivity].
Qed.

Lemma skipASCIISpace_trimRight (l : bytes) :
  match strings.skipASCIISpace l with
  | strings.AtEnd => spec_trimRight (rev l) = []
  | strings.NonASCII tser => spec_trimRight (rev l) = spec_trimRight (rev tser)
  | strings.NonSpace tser => spec_trimRight (rev l) = rev tser
  end.
Proof.
  induction l as [|c l IH]; [reflexivity|]. cbn [strings.skipASCIISpace].
  destruct (Z.leb_spec utf8.RuneSelf (b2z c)) as [Hge|Hlt]; [reflexivity|].
  assert (spec_trimRight (rev (c :: l))
          = if strings.asciiSpace c then spec_trimRight (rev l) else rev (c :: l))
    as ->.
  { unfold spec_trimRight. cbn [rev]. rewrite length_app, Nat.add_1_r.
    cbn [strip]. rewrite (trailingSpace_ascii (rev l) c Hlt).
    now destruct (strings.asciiSpace c). }
  destruct (strings.asciiSpace c); [exact IH|reflexivity].
Qed.

(** [TrimSpace] takes off the white space of the table, character by
    character, from the head of the string and then from its end. *)
Lemma TrimSpace_trim (s : bytes) : strings.TrimSpace s = spec_trim s.
Proof.
  unfold strings.TrimSpace, spec_trim.
  pose proof (skipASCIISpace_trimLeft s) as Hleft.
  destruct (strings.skipASCIISpace s) as [|rest|rest]; rewrite Hleft.
  - reflexivity.
  - apply TrimFunc_trim.
  - pose proof (skipASCIISpace_trimRight (rev rest)) as Hright.
    rewrite rev_involutive in Hright.
    destruct (strings.skipASCIISpace (rev rest)) as [|tser|tser]; rewrite Hright.
    + reflexivity.
    + apply TrimRightFunc_trimRight.
    + reflexivity.
Qed.

(** *** Entries *)

Lemma Split_two (s : bytes) (sep : ascii) :
  count_occ ascii_dec s sep = 1%nat ->
  strings.Split s sep = [before sep s; after sep s].
Proof.
  induction s as [|c s IH]; simpl; [discriminate|].
  destruct (Ascii.eqb_spec c sep) as [->|Hne].
  - destruct (ascii_dec sep sep); [|contradiction]. intros [= Hnone].
    rewrite Split_no_sep; [reflexivity|]. now apply (count_occ_not_In ascii_dec).
  - destruct (ascii_dec c sep); [contradiction|]. intros Hone.
    now rewrite (IH Hone).
Qed.

(** The loop body of the parser does to an entry what the registry format
    says. *)
Lemma spec_entry_outlet (entry : bytes) : spec_entry entry = spec_outlet entry.
Proof.
  unfold spec_entry, spec_outlet. rewrite TrimSpace_trim. cbv zeta.
  destruct (Nat.eqb_spec (count_occ ascii_dec (spec_trim entry) ":"%char) 1)
    as [Hone|Hother].
  - rewrite (Split_two _ _ Hone), !TrimSpace_trim. reflexivity.
  - pose proof (Split_length (spec_trim entry) ":") as Hlen.
    destruct (strings.Split (spec_trim entry) ":") as [|p0 [|p1 [|p2 ps]]];
      simpl in Hlen; try reflexivity; lia.
Qed.

Lemma Split_join (entries : list bytes) (sep : ascii) :
  entries <> [] ->
  Forall (fun entry => ~ In sep entry) entries ->
  strings.Split (join sep entries) sep = entries.
Proof.
  induction entries as [|e entries IH]; [congruence|]. intros _ Hall.
  apply Forall_cons in Hall as [He Hall].
  destruct entries as [|e' entries].
  - simpl. now apply Split_no_sep.
  - change (join sep (e :: e' :: entries)) with (e ++ sep :: join sep (e' :: entries)).
    rewrite Split_app, (Split_no_sep e sep He), IH; [reflexivity|discriminate|exact Hall].
Qed.

Lemma join_Split (s : bytes) (sep : ascii) :
  join sep (strings.Split s sep) = s /\
  Forall (fun entry => ~ In sep entry) (strings.Split s sep).
Proof.
  induction s as [|c s [IHj IHn]]; simpl.
  - split; [reflexivity|]. constructor; [tauto|constructor].
  - pose proof (Split_nonempty s sep) as Hne.
    destruct (strings.Split s sep) as [|p ps]; [contradiction|].
    destruct (Ascii.eqb_spec c sep) as [->|Hc].
    + split; [|constructor; [tauto|exact IHn]].
      change (join sep ([] :: p :: ps)) with (sep :: join sep (p :: ps)).
      now rewrite IHj.
    + apply Forall_cons in IHn as [Hp Hps]. split.
      * destruct ps as [|p' ps]; [simpl in *; now rewrite IHj|].
        change (join sep ((c :: p) :: p' :: ps))
          with (c :: join sep (p :: p' :: ps)).
        now rewrite IHj.
      * constructor; [|exact Hps]. simpl. intros [E|Hin]; [congruence|tauto].
Qed.

Lemma parseOutlets_join (entries : list bytes) :
  entries <> [] ->
  Forall (fun entry => ~ In ","%char entry) entries ->
  parseOutlets (join "," entries) = omap spec_outlet entries.
Proof.
  intros Hne Hall. rewrite parseOutlets_spec_parse. unfold spec_parse.
  rewrite Split_join by assumption.
  clear. induction entries as [|e entries IH]; [reflexivity|].
  change (omap spec_entry (e :: entries))
    with (match spec_entry e with
          | Some o => o :: omap spec_entry entries
          | None => omap spec_entry entries
          end).
  change (omap spec_outlet (e :: entries))
    with (match spec_outlet e with
          | Some o => o :: omap spec_outlet entries
          | None => omap spec_outlet entries
          end).
  now rewrite spec_entry_outlet, IH.
Qed.

Lemma entries_of (s : bytes) :
  exists entries : list bytes,
    entries <> [] /\ Forall (fun entry => ~ In ","%char entry) entries /\
    s = join "," entries.
Proof.
  exists (strings.Split s ","). destruct (join_Split s ",") as [Hj Hn].
  split; [apply Split_nonempty|]. split; [exact Hn|now rewrite Hj].
Qed.

(** ** The claims about the registry parser *)

(** C4: a string is a list of entries with commas in between, and
    [parseOutlets] returns one outlet for each entry that, trimmed of the
    white space around it, holds exactly one [:] and so splits into two parts,
    whose trimmed name and address are both non-empty; every other entry is
    dropped.  ["livingroom:192.168.1.100"] gives the single outlet
    {livingroom, 192.168.1.100}, and [""], ["invalid"], ["livingroom:"] and
    [":192.168.1.100"] give the empty sequence.  White space is what Unicode
    calls so, in UTF-8: the no-break space and the ideographic space are
    trimmed as the ASCII space is. *)
Theorem parseOutlets_entries :
  (forall entries : list bytes,
      entries <> [] ->
      Forall (fun entry => ~ In ","%char entry) entries ->
      parseOutlets (join "," entries) = omap spec_outlet entries) /\
  (forall s : bytes, exists entries : list bytes,
      entries <> [] /\ Forall (fun entry => ~ In ","%char entry) entries /\
      s = join "," entries) /\
  parseOutlets "livingroom:192.168.1.100"
    = [{| Name := "livingroom"; IP := "192.168.1.100" |}] /\
  parseOutlets " livingroom : 192.168.1.100 , bedroom : 192.168.1.101 "
    = [{| Name := "livingroom"; IP := "192.168.1.100" |};
       {| Name := "bedroom"; IP := "192.168.1.101" |}] /\
  parseOutlets "" = [] /\
  parseOutlets "invalid" = [] /\
  parseOutlets "livingroom:" = [] /\
  parseOutlets ":192.168.1.100" = [] /\
  parseOutlets (nbsp ++ "livingroom" ++ ideographic_space ++ ":" ++ nbsp
                ++ "192.168.1.100" ++ ideographic_space)
    = [{| Name := "livingroom"; IP := "192.168.1.100" |}].
Proof.
  split; [exact parseOutlets_join|].
  split; [exact entries_of|].
  repeat split; vm_compute; reflexivity.
Qed.

Lemma parseOutlets_entries_witness :
  parseOutlets (join "," padded_entries)
    = [{| Name := "livingroom"; IP := "192.168.1.100" |};
       {| Name := "bedroom"; IP := "192.168.1.101" |}].
Proof.
  rewrite (proj1 parseOutlets_entries).
  - vm_compute. reflexivity.
  - discriminate.
  - unfold padded_entries.
    repeat (apply List.Forall_cons; [vm_compute; intuition discriminate|]).
    apply List.Forall_nil.
Defined.

(** C5: the outlets of the entries before a comma come, in their order, before
    the outlets of the entries after it, and what an entry yields does not
    depend on the entries before it: an entry that repeats an earlier name or
    address is kept. *)
Theorem parseOutlets_keeps_order_and_duplicates :
  (forall s1 s2 : bytes,
      parseOutlets (s1 ++ "," ++ s2) = parseOutlets s1 ++ parseOutlets s2) /\
  (forall s : bytes,
      parseOutlets (s ++ "," ++ s) = parseOutlets s ++ parseOutlets s) /\
  parseOutlets "a:1,b:2,a:3,c:1,a:1"
    = [{| Name := "a"; IP := "1" |}; {| Name := "b"; IP := "2" |};
       {| Name := "a"; IP := "3" |}; {| Name := "c"; IP := "1" |};
       {| Name := "a"; IP := "1" |}].
Proof.
  split; [exact parseOutlets_app|].
  split; [intros s; apply parseOutlets_app|].
  vm_compute. reflexivity.
Qed.

(** C10: the parser checks nothing about an entry beyond the split and the
    trimming: an entry that splits into a name and an address, both non-empty
    once trimmed, is accepted whatever the address looks like, and an entry
    whose address contains a [:] is dropped. *)
Theorem parseOutlets_no_format_validation :
  (forall entry name address : bytes,
      ~ In ","%char entry ->
      strings.Split (strings.TrimSpace entry) ":" = [name; address] ->
      strings.TrimSpace name <> [] ->
      strings.TrimSpace address <> [] ->
      parseOutlets entry
        = [{| Name := strings.TrimSpace name; IP := strings.TrimSpace address |}]) /\
  (forall name address : bytes,
      ~ In ","%char (name ++ ":" ++ address) ->
      In ":"%char address ->
      parseOutlets (name ++ ":" ++ address) = []).
Proof.
  split.
  - intros entry name address Hno Hsplit Hname Haddr.
    rewrite parseOutlets_single by assumption.
    unfold outlet_of, spec_entry. rewrite Hsplit. cbv zeta.
    destruct (strings.TrimSpace name); [congruence|].
    destruct (strings.TrimSpace address); [congruence|]. reflexivity.
  - intros name address Hno Hin.
    rewrite parseOutlets_single by assumption.
    unfold outlet_of, spec_entry.
    pose proof (Split_length (strings.TrimSpace (name ++ ":" ++ address)) ":") as Hlen.
    rewrite (TrimSpace_count_occ _ _ colon_not_blank) in Hlen.
    rewrite !count_occ_app in Hlen.
    apply (count_occ_In ascii_dec) in Hin.
    change (count_occ ascii_dec (":" : bytes) ":"%char) with 1%nat in Hlen.
    destruct (strings.Split _ ":") as [|p0 [|p1 [|p2 ps]]]; simpl in Hlen;
      try reflexivity; lia.
Qed.

Lemma parseOutlets_no_format_validation_witness :
  parseOutlets " plug : not an address! "
    = [{| Name := "plug"; IP := "not an address!" |}] /\
  parseOutlets "plug:192.168.1.100:8080" = [] /\
  parseOutlets "plug:[fe80::1]" = [].
Proof.
  split; [|split].
  - apply (proj1 parseOutlets_no_format_validation
             (" plug : not an address! " : bytes) ("plug " : bytes)
             (" not an address!" : bytes)).
    + vm_compute. intuition discriminate.
    + vm_compute. reflexivity.
    + vm_compute. discriminate.
    + vm_compute. discriminate.
  - apply (proj2 parseOutlets_no_format_validation
             ("plug" : bytes) ("192.168.1.100:8080" : bytes)).
    + vm_compute. intuition discriminate.
    + vm_compute. tauto.
  - apply (proj2 parseOutlets_no_format_validation
             ("plug" : bytes) ("[fe80::1]" : bytes)).
    + vm_compute. intuition discriminate.
    + vm_compute. tauto.
Defined.

(** ** The struct decoder *)

Lemma lookupField_Some {T : Type} (fields : list (field T)) (key : bytes) (f : field T) :
  lookupField fields key = Some f ->
  In f fields /\ foldName (name f) = foldName key.
Proof.
  unfold lookupField.
  destruct (find (fun f => bool_decide (name f = key)) fields) as [f'|] eqn:Hexact.
  - intros [= <-]. apply find_some in Hexact as [Hin Hname].
    apply bool_decide_eq_true in Hname. split; [exact Hin|now rewrite Hname].
  - intros Hfold. apply find_some in Hfold as [Hin Hname].
    apply bool_decide_eq_true in Hname. split; assumption.
Qed.

Lemma member_unknown {T : Type} (fields : list (field T))
    (ms1 ms2 : list (bytes * Value)) (k : bytes) (x : Value) (st : T * option Error) :
  lookupField fields k = None ->
  fold_left (member fields) (ms1 ++ (k, x) :: ms2) st
  = fold_left (member fields) (ms1 ++ ms2) st.
Proof.
  intros Hnone. rewrite !fold_left_app. simpl.
  unfold member at 2. simpl. rewrite Hnone. reflexivity.
Qed.

(** What the members that are not addressed to a field leave untouched. *)
Lemma fold_member_frame {T A : Type} (get : T -> A) (fields : list (field T))
    (P : bytes * Value -> Prop) (ms : list (bytes * Value)) :
  Forall P ms ->
  (forall kv f d s, P kv -> lookupField fields (fst kv) = Some f ->
                    get (fst (store f (snd kv) d s)) = get d) ->
  forall d s, get (fst (fold_left (member fields) ms (d, s))) = get d.
Proof.
  intros Hall Hframe. induction Hall as [|kv ms Hkv _ IH]; intros d s; [reflexivity|].
  simpl. unfold member at 2. simpl.
  destruct (lookupField fields (fst kv)) as [f|] eqn:Hf; [|apply IH].
  destruct (store f (snd kv) d s) as [d' s'] eqn:Hst.
  rewrite IH. change d' with (fst (d', s')). rewrite <- Hst. now apply Hframe.
Qed.

Lemma saveError_Some (e : Error) (err : Error) : saveError (Some e) err = Some e.
Proof. reflexivity. Qed.

Lemma float64Store_sticky : sticky float64Store.
Proof. intros x d e. destruct x as [| |[]| | |]; reflexivity. Qed.

Lemma stringStore_sticky : sticky stringStore.
Proof. intros x d e. destruct x; reflexivity. Qed.

Lemma fieldOf_store {T A : Type} (n : bytes) (get : T -> A) (set : A -> T -> T)
    (st : Value -> Dec A) (x : Value) (d : T) (s : option Error) :
  store (fieldOf n get set st) x d s
  = (set (fst (st x (get d) s)) d, snd (st x (get d) s)).
Proof. unfold fieldOf. simpl. destruct (st x (get d) s). reflexivity. Qed.

Lemma fieldOf_sticky {T A : Type} (n : bytes) (get : T -> A) (set : A -> T -> T)
    (st : Value -> Dec A) :
  sticky st -> sticky_field (fieldOf n get set st).
Proof. intros Hst x d e. rewrite fieldOf_store. apply Hst. Qed.

Lemma fold_member_sticky {T : Type} (fields : list (field T)) (ms : list (bytes * Value)) :
  Forall sticky_field fields ->
  forall d e, snd (fold_left (member fields) ms (d, Some e)) = Some e.
Proof.
  intros Hfields. induction ms as [|kv ms IH]; intros d e; [reflexivity|].
  simpl. unfold member at 2. simpl.
  destruct (lookupField fields (fst kv)) as [f|] eqn:Hf; [|apply IH].
  apply lookupField_Some in Hf as [Hin _].
  rewrite Forall_forall in Hfields. apply list_elem_of_In in Hin.
  pose proof (Hfields f Hin (snd kv) d e) as Hs.
  destruct (store f (snd kv) d (Some e)) as [d' s']. simpl in Hs. subst s'. apply IH.
Qed.

Lemma structStore_sticky {T : Type} (type : string) (fields : list (field T)) :
  Forall sticky_field fields -> sticky (structStore type fields).
Proof.
  intros Hfields x d e. destruct x; try reflexivity.
  simpl. now apply fold_member_sticky.
Qed.

(** When the decoder saves an error. *)
Lemma fold_member_error {T : Type} (fields : list (field T))
    (fits : bytes -> Value -> bool) (ms : list (bytes * Value)) :
  Forall sticky_field fields ->
  (forall f, In f fields ->
     forall x d, snd (store f x d None) = None <-> fits (name f) x = true) ->
  forall d,
    snd (fold_left (member fields) ms (d, None)) = None <->
    forallb (fun kv => match lookupField fields (fst kv) with
                       | Some f => fits (name f) (snd kv)
                       | None => true
                       end) ms = true.
Proof.
  intros Hsticky Hfits. induction ms as [|kv ms IH]; intros d; [simpl; tauto|].
  simpl. unfold member at 2. simpl.
  destruct (lookupField fields (fst kv)) as [f|] eqn:Hf; [|apply IH].
  apply lookupField_Some in Hf as [Hin _].
  specialize (Hfits f Hin (snd kv) d).
  destruct (store f (snd kv) d None) as [d' [e|]]; simpl in Hfits.
  - rewrite fold_member_sticky by assumption.
    destruct (fits (name f) (snd kv)); simpl; [|split; discriminate].
    destruct Hfits as [_ Hfits]. specialize (Hfits eq_refl). discriminate.
  - destruct Hfits as [Hfits _]. rewrite (Hfits eq_refl). simpl. apply IH.
Qed.

Lemma structStore_error {T : Type} (type : string) (fields : list (field T))
    (fits : bytes -> Value -> bool) :
  Forall sticky_field fields ->
  (forall f, In f fields ->
     forall x d, snd (store f x d None) = None <-> fits (name f) x = true) ->
  forall x d,
    snd (structStore type fields x d None) = None <-> fitsStruct fields fits x = true.
Proof.
  intros Hsticky Hfits x d. destruct x; simpl; try tauto; try (split; discriminate).
  now apply fold_member_error.
Qed.

Lemma float64Store_error (x : Value) (d : float64) :
  snd (float64Store x d None) = None <-> fitsFloat64 x = true.
Proof. destruct x as [| |[]| | |]; simpl; split; congruence. Qed.

Lemma stringStore_error (x : Value) (d : bytes) :
  snd (stringStore x d None) = None <-> fitsString x = true.
Proof. destruct x; simpl; split; congruence. Qed.

Lemma structStore_frame {T A : Type} (get : T -> A) (type : string)
    (fields : list (field T)) (P : bytes * Value -> Prop) (x : Value) :
  Forall P (membersOf x) ->
  (forall kv f d s, P kv -> lookupField fields (fst kv) = Some f ->
                    get (fst (store f (snd kv) d s)) = get d) ->
  forall d s, get (fst (structStore type fields x d s)) = get d.
Proof.
  intros Hall Hframe d s. destruct x; try reflexivity.
  simpl in *. now apply (fold_member_frame get fields P).
Qed.

Lemma under_Forall (n : bytes) (x : Value) (Q : Value -> Prop) :
  (forall y, In y (under n x) -> Q y) ->
  Forall (fun kv => keyed n kv -> Q (snd kv)) (membersOf x).
Proof.
  intros H. apply Forall_forall. intros kv Hin Hk. apply H.
  unfold under. apply in_map. apply list_elem_of_In.
  apply list_elem_of_filter. split; [exact Hk|exact Hin].
Qed.

Lemma under_nil_Forall (n : bytes) (x : Value) :
  under n x = [] -> Forall (fun kv => ~ keyed n kv) (membersOf x).
Proof.
  intros H. apply Forall_forall. intros kv Hin Hk.
  assert (In (snd kv) (under n x)) as Hy.
  { unfold under. apply in_map. apply list_elem_of_In.
    apply list_elem_of_filter. split; [exact Hk|exact Hin]. }
  rewrite H in Hy. exact Hy.
Qed.

Lemma mentions_false (sect fld : bytes) (body : Value) :
  mentions sect fld body = false ->
  forall sns, In sns (under "StatusSNS" body) ->
  forall s, In s (under sect sns) -> under fld s = [].
Proof.
  unfold mentions. intros H sns Hsns s Hs.
  destruct (under fld s) as [|y ys] eqn:Hu; [reflexivity|exfalso].
  apply not_true_iff_false in H. apply H.
  apply existsb_exists. exists sns. split; [exact Hsns|].
  apply existsb_exists. exists s. split; [exact Hs|]. now rewrite Hu.
Qed.

(** The fields of the four structs keep a saved error. *)
Lemma Energy_fields_sticky : Forall sticky_field Energy_fields.
Proof.
  unfold Energy_fields.
  repeat (apply List.Forall_cons;
          [apply fieldOf_sticky; first [exact stringStore_sticky | exact float64Store_sticky]|]).
  apply List.Forall_nil.
Qed.

Lemma ESP32_fields_sticky : Forall sticky_field ESP32_fields.
Proof.
  unfold ESP32_fields.
  apply List.Forall_cons; [apply fieldOf_sticky; exact float64Store_sticky|].
  apply List.Forall_nil.
Qed.

Lemma StatusSNS_fields_sticky : Forall sticky_field StatusSNS_fields.
Proof.
  unfold StatusSNS_fields.
  repeat (apply List.Forall_cons;
          [apply fieldOf_sticky;
           first [ exact stringStore_sticky
                 | apply structStore_sticky; exact Energy_fields_sticky
                 | apply structStore_sticky; exact ESP32_fields_sticky ]|]).
  apply List.Forall_nil.
Qed.

Lemma TasmotaStatus_fields_sticky : Forall sticky_field TasmotaStatus_fields.
Proof.
  unfold TasmotaStatus_fields.
  apply List.Forall_cons;
    [apply fieldOf_sticky, structStore_sticky; exact StatusSNS_fields_sticky|].
  apply List.Forall_nil.
Qed.

(** A value is stored into a struct without an error exactly when it fits. *)
Lemma Energy_error (x : Value) (d : Energy) :
  snd (structStore "main.Energy" Energy_fields x d None) = None <-> fitsEnergy x = true.
Proof.
  apply structStore_error; [exact Energy_fields_sticky|].
  intros f Hin y e. simpl in Hin.
  repeat (destruct Hin as [<-|Hin];
          [rewrite fieldOf_store; simpl snd;
           first [apply stringStore_error | apply float64Store_error]|]).
  contradiction.
Qed.

Lemma ESP32_error (x : Value) (d : ESP32_t) :
  snd (structStore "main.ESP32" ESP32_fields x d None) = None <-> fitsESP32 x = true.
Proof.
  apply structStore_error; [exact ESP32_fields_sticky|].
  intros f Hin y e. simpl in Hin.
  destruct Hin as [<-|[]]. rewrite fieldOf_store. apply float64Store_error.
Qed.

Lemma StatusSNS_error (x : Value) (d : StatusSNS_t) :
  snd (structStore "main.StatusSNS" StatusSNS_fields x d None) = None
  <-> fitsStatusSNS x = true.
Proof.
  apply structStore_error; [exact StatusSNS_fields_sticky|].
  intros f Hin y e. simpl in Hin.
  destruct Hin as [<-|[<-|[<-|[]]]]; rewrite fieldOf_store; simpl snd.
  - apply stringStore_error.
  - apply Energy_error.
  - apply ESP32_error.
Qed.

Lemma TasmotaStatus_error (x : Value) (d : TasmotaStatus) :
  snd (structStore "main.TasmotaStatus" TasmotaStatus_fields x d None) = None
  <-> fitsTasmotaStatus x = true.
Proof.
  apply structStore_error; [exact TasmotaStatus_fields_sticky|].
  intros f Hin y e. simpl in Hin.
  destruct Hin as [<-|[]]. rewrite fieldOf_store. apply StatusSNS_error.
Qed.

Lemma probeTasmota_fits (code : Z) (x : Value) :
  (exists status, probeTasmota (Body code (Some x)) = inl status)
  <-> fitsTasmotaStatus x = true.
Proof.
  rewrite <- (TasmotaStatus_error x zero_TasmotaStatus).
  unfold probeTasmota, Unmarshal.
  destruct (structStore _ _ x zero_TasmotaStatus None) as [status [e|]]; simpl.
  - split; [intros [? [=]]|discriminate].
  - split; [reflexivity|]. intros _. now exists status.
Qed.

(** A member addressed to another field leaves the field named [n] alone. *)
Lemma structStore_frame_named {T A : Type} (get : T -> A) (type : string)
    (fields : list (field T)) (n : bytes) (Q : Value -> Prop) (x : Value) :
  (forall f, In f fields -> foldName (name f) <> foldName n ->
             forall y d s, get (fst (store f y d s)) = get d) ->
  (forall f, In f fields -> foldName (name f) = foldName n ->
             forall y d s, Q y -> get (fst (store f y d s)) = get d) ->
  (forall y, In y (under n x) -> Q y) ->
  forall d s, get (fst (structStore type fields x d s)) = get d.
Proof.
  intros Hother Hsame HQ.
  apply (structStore_frame get type fields (fun kv => keyed n kv -> Q (snd kv))).
  - now apply under_Forall.
  - intros kv f d s Hkv Hf. apply lookupField_Some in Hf as [Hin Hname].
    destruct (decide (foldName (name f) = foldName n)) as [E|NE].
    + apply (Hsame f Hin E). apply Hkv. unfold keyed. congruence.
    + now apply Hother.
Qed.

Ltac each_field Hin :=
  simpl in Hin;
  repeat (destruct Hin as [<-|Hin]; [|]); try contradiction.

(** A numeric field of [Energy] no member is addressed to keeps its value. *)
Lemma Energy_frame (n : bytes) (get : Energy -> float64) (x : Value) :
  In (n, get)
     [ ("Total" : bytes, Total); ("Yesterday" : bytes, Yesterday);
       ("Today" : bytes, Today); ("Power" : bytes, Power);
       ("ApparentPower" : bytes, ApparentPower);
       ("ReactivePower" : bytes, ReactivePower); ("Factor" : bytes, Factor);
       ("Voltage" : bytes, Voltage); ("Current" : bytes, Current) ] ->
  under n x = [] ->
  forall d s, get (fst (structStore "main.Energy" Energy_fields x d s)) = get d.
Proof.
  intros Hn Hu.
  apply (structStore_frame_named get _ _ n (fun _ => False)).
  - intros f Hin Hne y d s. simpl in Hn.
    repeat (destruct Hn as [[= <- <-]|Hn];
            [each_field Hin; try (exfalso; apply Hne; reflexivity);
             rewrite fieldOf_store; destruct d; reflexivity|]).
    contradiction.
  - intros f Hin He y d s [].
  - rewrite Hu. intros y [].
Qed.

Lemma ESP32_frame (x : Value) :
  under "Temperature" x = [] ->
  forall d s,
    Temperature (fst (structStore "main.ESP32" ESP32_fields x d s)) = Temperature d.
Proof.
  intros Hu.
  apply (structStore_frame_named Temperature _ _ "Temperature" (fun _ => False)).
  - intros f Hin Hne y d s. each_field Hin;
      try (exfalso; apply Hne; reflexivity).
  - intros f Hin He y d s [].
  - rewrite Hu. intros y [].
Qed.

Lemma StatusSNS_frame_ENERGY (n : bytes) (get : Energy -> float64) (x : Value) :
  In (n, get)
     [ ("Total" : bytes, Total); ("Yesterday" : bytes, Yesterday);
       ("Today" : bytes, Today); ("Power" : bytes, Power);
       ("ApparentPower" : bytes, ApparentPower);
       ("ReactivePower" : bytes, ReactivePower); ("Factor" : bytes, Factor);
       ("Voltage" : bytes, Voltage); ("Current" : bytes, Current) ] ->
  (forall e, In e (under "ENERGY" x) -> under n e = []) ->
  forall d s,
    get (ENERGY (fst (structStore "main.StatusSNS" StatusSNS_fields x d s)))
    = get (ENERGY d).
Proof.
  intros Hn Hu.
  apply (structStore_frame_named (fun d => get (ENERGY d)) _ _ "ENERGY"
           (fun e => under n e = [])); [| |exact Hu].
  - intros f Hin Hne y d s. each_field Hin;
      try (exfalso; apply Hne; reflexivity); rewrite fieldOf_store; reflexivity.
  - intros f Hin He y d s Hy. each_field Hin;
      try (vm_compute in He; discriminate He).
    rewrite fieldOf_store. simpl. now apply (Energy_frame n).
Qed.

Lemma StatusSNS_frame_ESP32 (x : Value) :
  (forall e, In e (under "ESP32" x) -> under "Temperature" e = []) ->
  forall d s,
    Temperature (ESP32 (fst (structStore "main.StatusSNS" StatusSNS_fields x d s)))
    = Temperature (ESP32 d).
Proof.
  intros Hu.
  apply (structStore_frame_named (fun d => Temperature (ESP32 d)) _ _ "ESP32"
           (fun e => under "Temperature" e = [])); [| |exact Hu].
  - intros f Hin Hne y d s. each_field Hin;
      try (exfalso; apply Hne; reflexivity); rewrite fieldOf_store; reflexivity.
  - intros f Hin He y d s Hy. each_field Hin;
      try (vm_compute in He; discriminate He).
    rewrite fieldOf_store. simpl. now apply ESP32_frame.
Qed.

(** A numeric field the body holds no member for is left at its zero value. *)
Lemma numericField_absent (nf : numericField) (body : Value) :
  In nf numericFields ->
  mentions (section nf) (fieldName nf) body = false ->
  read nf (fst (Unmarshal (Some body) zero_TasmotaStatus)) = 0%float.
Proof.
  intros Hnf Hm. pose proof (mentions_false _ _ _ Hm) as Hu. clear Hm.
  unfold Unmarshal.
  transitivity (read nf zero_TasmotaStatus);
    [|simpl in Hnf; repeat (destruct Hnf as [<-|Hnf]; [reflexivity|]); contradiction].
  apply (structStore_frame_named (read nf) _ _ "StatusSNS"
           (fun sns => forall s, In s (under (section nf) sns) ->
                                 under (fieldName nf) s = [])); [| |exact Hu].
  - intros f Hin Hne y d s. each_field Hin;
      try (exfalso; apply Hne; reflexivity).
  - intros f Hin _ y d s Hy. each_field Hin.
    rewrite fieldOf_store. simpl fst.
    simpl in Hnf.
    repeat (destruct Hnf as [<-|Hnf];
            [cbn [read section fieldName set_StatusSNS StatusSNS] in *;
             first [ refine (StatusSNS_frame_ENERGY _ _ y _ Hy _ _); simpl; tauto
                   | apply (StatusSNS_frame_ESP32 y); exact Hy ]|]).
    contradiction.
Qed.

Lemma lookupField_None {T : Type} (fields : list (field T)) (key : bytes) :
  (forall f, In f fields -> foldName (name f) <> foldName key) ->
  lookupField fields key = None.
Proof.
  intros Hno. destruct (lookupField fields key) as [f|] eqn:Hf; [|reflexivity].
  apply lookupField_Some in Hf as [Hin Hname]. now destruct (Hno f Hin).
Qed.

(** ** The claim about the payload *)

(** C6, as the specification states it, fails: a well-formed JSON object
    whose ["Power"] member is a string is rejected by the decoder, so the probe
    is unreachable although the body is not malformed. *)
Lemma probeTasmota_rejects_wrong_type :
  probeTasmota
    (Body 200
       (Some (JObject
          [("StatusSNS" : bytes,
            JObject [("ENERGY" : bytes,
                      JObject [("Power" : bytes, JString "45.2")])])])))
  = inr (FailedToParse (UnmarshalTypeError "string" "float64")) /\
  ~ (forall (code : Z) (members : list (bytes * Value)),
       exists status, probeTasmota (Body code (Some (JObject members))) = inl status).
Proof.
  split; [vm_compute; reflexivity|].
  intros H.
  destruct (H 200
              [("StatusSNS" : bytes,
                JObject [("ENERGY" : bytes,
                          JObject [("Power" : bytes, JString "45.2")])])])
    as [status Hs].
  vm_compute in Hs. discriminate Hs.
Qed.

(** C6, amended: the decoder skips a member whose key names no field of the
    struct it is filling (names compared exactly, then folded); a numeric
    field the body holds no member for is left at zero; and the probe of a
    body that is valid JSON fails exactly when a member addressed to a field
    holds neither [null] nor a value of the JSON type of that field (a number
    has to be in the range of a float64).  A body that is not valid JSON
    fails. *)
Theorem Unmarshal_tolerant :
  (forall (T : Type) (type : string) (fields : list (field T))
          (ms1 ms2 : list (bytes * Value)) (k : bytes) (x : Value)
          (d : T) (s : option Error),
      (forall f, In f fields -> foldName (name f) <> foldName k) ->
      structStore type fields (JObject (ms1 ++ (k, x) :: ms2)) d s
      = structStore type fields (JObject (ms1 ++ ms2)) d s) /\
  (forall (nf : numericField) (body : Value),
      In nf numericFields ->
      mentions (section nf) (fieldName nf) body = false ->
      read nf (fst (Unmarshal (Some body) zero_TasmotaStatus)) = 0%float) /\
  (forall (code : Z) (body : Value),
      (exists status, probeTasmota (Body code (Some body)) = inl status)
      <-> fitsTasmotaStatus body = true) /\
  (forall code : Z, probeTasmota (Body code None) = inr (FailedToParse SyntaxError)).
Proof.
  split; [|split; [|split]].
  - intros T type fields ms1 ms2 k x d s Hno. simpl.
    apply member_unknown. now apply lookupField_None.
  - exact numericField_absent.
  - exact probeTasmota_fits.
  - reflexivity.
Qed.

Lemma Unmarshal_tolerant_witness :
  structStore "main.Energy" Energy_fields
    (JObject ([("Power" : bytes, JNumber (InRange 45.2%float))]
              ++ ("Frequency" : bytes, JString "50") ::
              [("voltage" : bytes, JNumber (InRange 240%float))]))
    zero_Energy None
  = structStore "main.Energy" Energy_fields
      (JObject ([("Power" : bytes, JNumber (InRange 45.2%float))]
                ++ [("voltage" : bytes, JNumber (InRange 240%float))]))
      zero_Energy None /\
  Current (ENERGY (StatusSNS (fst (Unmarshal
    (Some (JObject
       [("StatusSNS" : bytes,
         JObject [("ENERGY" : bytes,
                   JObject [("Power" : bytes, JNumber (InRange 45.2%float))])])]))
    zero_TasmotaStatus)))) = 0%float.
Proof.
  split.
  - apply (proj1 Unmarshal_tolerant).
    intros f Hin. simpl in Hin.
    repeat (destruct Hin as [<-|Hin]; [vm_compute; discriminate|]).
    contradiction.
  - apply (proj1 (proj2 Unmarshal_tolerant)
             {| section := "ENERGY"; fieldName := "Current";
                read := fun s => Current (ENERGY (StatusSNS s)) |}).
    + simpl. tauto.
    + vm_compute. reflexivity.
Defined.
(** ** The goroutines of [Collect] *)

Lemma WithLabelValues_New (l : list Outlet) (v : GaugeVec) (n : bytes) :
  WithLabelValues (vec (NewTasmotaCollector l) v) v [n]
  = if utf8.ValidString n then Some (v, [n]) else None.
Proof.
  unfold WithLabelValues, validateLabelValues.
  destruct v; cbn [NewTasmotaCollector vec NewGaugeVec variableLabels length Nat.eqb
                   forallb andb];
    destruct (utf8.ValidString n); reflexivity.
Qed.

Lemma emit_valid (l : list Outlet) (v : GaugeVec) (o : Outlet) (val : float64) :
  utf8.ValidString (Name o) = true ->
  emit (NewTasmotaCollector l) v o val = block ((v, [Name o]), val).
Proof. intros Hv. unfold emit. now rewrite WithLabelValues_New, Hv. Qed.

Lemma emit_invalid (l : list Outlet) (v : GaugeVec) (o : Outlet) (val : float64) :
  utf8.ValidString (Name o) = false ->
  emit (NewTasmotaCollector l) v o val = [Panic].
Proof. intros Hv. unfold emit. now rewrite WithLabelValues_New, Hv. Qed.

Lemma goroutine_program (l : list Outlet) (o : Outlet) (p : TasmotaStatus + ProbeError) :
  utf8.ValidString (Name o) = true ->
  goroutine (NewTasmotaCollector l) o p = program (metrics o p).
Proof.
  intros Hv. destruct p as [status|err]; unfold goroutine, metrics, program.
  - destruct (0 <? Power (ENERGY (StatusSNS status)))%float;
      rewrite !emit_valid by exact Hv; reflexivity.
  - rewrite emit_valid by exact Hv. reflexivity.
Qed.

Lemma goroutine_panics (l : list Outlet) (o : Outlet) (p : TasmotaStatus + ProbeError) :
  utf8.ValidString (Name o) = false ->
  exists rest, goroutine (NewTasmotaCollector l) o p = Panic :: rest.
Proof.
  intros Hv. destruct p as [status|err]; unfold goroutine.
  - rewrite (emit_invalid l upGauge) by exact Hv. eexists. reflexivity.
  - rewrite emit_invalid by exact Hv. eexists. reflexivity.
Qed.

Lemma emit_label (l : list Outlet) (v : GaugeVec) (o : Outlet) (val : float64) :
  Forall (fun ins => forall lv, labelOf ins = Some lv -> lv = [Name o])
         (emit (NewTasmotaCollector l) v o val).
Proof.
  unfold emit. rewrite WithLabelValues_New.
  destruct (utf8.ValidString (Name o)); repeat constructor;
    simpl; intros lv [=]; congruence.
Qed.

Lemma goroutine_label (l : list Outlet) (o : Outlet) (p : TasmotaStatus + ProbeError) :
  Forall (fun ins => forall lv, labelOf ins = Some lv -> lv = [Name o])
         (goroutine (NewTasmotaCollector l) o p).
Proof.
  destruct p as [status|err]; unfold goroutine; [|apply emit_label].
  repeat (apply Forall_app; split; [|try apply emit_label]);
    try apply emit_label.
  destruct (0 <? Power (ENERGY (StatusSNS status)))%float; apply emit_label.
Qed.

Lemma metrics_label (o : Outlet) (p : TasmotaStatus + ProbeError) :
  Forall (fun m => snd (fst m) = [Name o]) (metrics o p).
Proof.
  destruct p as [status|err]; unfold metrics; repeat constructor.
Qed.

Lemma metrics_NoDup (o : Outlet) (p : TasmotaStatus + ProbeError) :
  NoDup (map fst (metrics o p)).
Proof.
  destruct p as [status|err]; unfold metrics; simpl.
  - repeat (apply NoDup_cons_2;
            [rewrite ?elem_of_cons, elem_of_nil; intuition congruence|]).
    apply NoDup_nil_2.
  - apply NoDup_cons_2; [rewrite elem_of_nil; tauto|]. apply NoDup_nil_2.
Qed.

Lemma program_head_set (R : list (Gauge * float64)) (g : Gauge) (v : float64)
    (rest : list Instr) :
  program R = GaugeSet g v :: rest ->
  exists R', R = (g, v) :: R' /\ rest = GaugeCollect g :: program R'.
Proof.
  destruct R as [|[g' v'] R']; simpl; [discriminate|].
  intros [= -> -> <-]. now exists R'.
Qed.

Lemma program_head_collect (R : list (Gauge * float64)) (g : Gauge) (rest : list Instr) :
  program R <> GaugeCollect g :: rest.
Proof. destruct R as [|[g' v'] R']; simpl; discriminate. Qed.

Lemma program_head_panic (R : list (Gauge * float64)) (rest : list Instr) :
  program R <> Panic :: rest.
Proof. destruct R as [|[g' v'] R']; simpl; discriminate. Qed.

Lemma program_nil (R : list (Gauge * float64)) : program R = [] -> R = [].
Proof. destruct R as [|[g' v'] R']; simpl; [reflexivity|discriminate]. Qed.

Lemma program_panic_free (R : list (Gauge * float64)) :
  Forall (fun ins => ins <> Panic) (program R).
Proof. induction R as [|m R IH]; simpl; repeat constructor; try discriminate. exact IH. Qed.

Lemma valueOf_insert (gs : Gauges) (g : Gauge) (v : float64) :
  valueOf (<[g := v]> gs) g = v.
Proof. unfold valueOf. now rewrite lookup_insert_eq. Qed.

Lemma valueOf_insert_ne (gs : Gauges) (g g' : Gauge) (v : float64) :
  g <> g' -> valueOf (<[g := v]> gs) g' = valueOf gs g'.
Proof. intros Hne. unfold valueOf. now rewrite lookup_insert_ne. Qed.

(** ** The moves *)

(** The four ways a move is made. *)
Lemma step_inv (m : Move) (st st' : State) :
  step m st = Some st' ->
  panicked st = false /\
  ((exists k i sc g v rest,
       m = Run k i /\ scrapes st !! k = Some sc /\
       goroutines sc !! i = Some (GaugeSet g v :: rest) /\
       st' = {| gauges := <[g := v]> (gauges st);
                scrapes := <[k := {| goroutines := <[i := rest]> (goroutines sc);
                                     ch := ch sc;
                                     received := received sc |}]> (scrapes st);
                panicked := false |}) \/
   (exists k i sc g rest,
       m = Run k i /\ scrapes st !! k = Some sc /\
       goroutines sc !! i = Some (GaugeCollect g :: rest) /\
       st' = {| gauges := gauges st;
                scrapes := <[k := {| goroutines := <[i := rest]> (goroutines sc);
                                     ch := ch sc ++ [(i, g)];
                                     received := received sc |}]> (scrapes st);
                panicked := false |}) \/
   (exists k i sc rest,
       m = Run k i /\ scrapes st !! k = Some sc /\
       goroutines sc !! i = Some (Panic :: rest) /\
       st' = {| gauges := gauges st; scrapes := scrapes st; panicked := true |}) \/
   (exists k sc i g rest,
       m = Receive k /\ scrapes st !! k = Some sc /\
       ch sc = (i, g) :: rest /\
       st' = {| gauges := gauges st;
                scrapes := <[k := {| goroutines := goroutines sc;
                                     ch := rest;
                                     received :=
                                       received sc ++ [(i, (g, valueOf (gauges st) g))] |}]>
                             (scrapes st);
                panicked := false |})).
Proof.
  unfold step. destruct (panicked st); [discriminate|]. intros Hstep.
  split; [reflexivity|].
  destruct m as [k i|k]; destruct (scrapes st !! k) as [sc|] eqn:Hk; try discriminate.
  - destruct (goroutines sc !! i) as [[|[g v|g|] rest]|] eqn:Hi; try discriminate;
      injection Hstep as <-.
    + left. now exists k, i, sc, g, v, rest.
    + right. left. now exists k, i, sc, g, rest.
    + right. right. left. now exists k, i, sc, rest.
  - destruct (ch sc) as [|[i g] rest] eqn:Hch; [discriminate|].
    injection Hstep as <-. right. right. right. now exists k, sc, i, g, rest.
Qed.

Lemma run_invariant (P : State -> Prop) (schedule : list Move) (st st' : State) :
  (forall m s s', step m s = Some s' -> P s -> P s') ->
  run schedule st = Some st' -> P st -> P st'.
Proof.
  intros Hstep. revert st. induction schedule as [|m schedule IH]; intros st; simpl.
  - now intros [= <-].
  - destruct (step m st) as [st1|] eqn:Hm; [|discriminate].
    intros Hrun HP. apply (IH st1 Hrun). now apply (Hstep m st).
Qed.

Lemma run_app (l1 l2 : list Move) (st : State) :
  run (l1 ++ l2) st = match run l1 st with Some st1 => run l2 st1 | None => None end.
Proof.
  revert st. induction l1 as [|m l1 IH]; intros st; simpl; [reflexivity|].
  destruct (step m st); [apply IH|reflexivity].
Qed.

(** ** What every move keeps *)

Lemma step_labelled (c : TasmotaCollector) (m : Move) (st st' : State) :
  step m st = Some st' ->
  Forall (labelled c) (scrapes st) -> Forall (labelled c) (scrapes st').
Proof.
  intros Hstep Hlab.
  assert (forall k sc, scrapes st !! k = Some sc -> labelled c sc) as Hlook.
  { intros k sc Hk. rewrite Forall_forall in Hlab. apply Hlab.
    now apply list_elem_of_lookup_2 in Hk. }
  destruct (step_inv _ _ _ Hstep) as
    (_ & [(k & i & sc & g & v & rest & -> & Hk & Hi & ->)
         |[(k & i & sc & g & rest & -> & Hk & Hi & ->)
          |[(k & i & sc & rest & -> & Hk & Hi & ->)
           |(k & sc & i & g & rest & -> & Hk & Hch & ->)]]]); simpl; try exact Hlab.
  - apply Forall_insert; [exact Hlab|]. intros j rest' Hj. simpl in Hj.
    destruct (decide (i = j)) as [<-|Hne].
    + rewrite list_lookup_insert_eq in Hj by (now apply lookup_lt_Some in Hi).
      injection Hj as <-. destruct (Hlook k sc Hk i _ Hi) as (o & Ho & Hall).
      exists o. split; [exact Ho|]. now inversion Hall.
    + rewrite list_lookup_insert_ne in Hj by assumption. now apply (Hlook k sc Hk).
  - apply Forall_insert; [exact Hlab|]. intros j rest' Hj. simpl in Hj.
    destruct (decide (i = j)) as [<-|Hne].
    + rewrite list_lookup_insert_eq in Hj by (now apply lookup_lt_Some in Hi).
      injection Hj as <-. destruct (Hlook k sc Hk i _ Hi) as (o & Ho & Hall).
      exists o. split; [exact Ho|]. now inversion Hall.
    + rewrite list_lookup_insert_ne in Hj by assumption. now apply (Hlook k sc Hk).
  - apply Forall_insert; [exact Hlab|]. intros j rest' Hj. simpl in Hj.
    now apply (Hlook k sc Hk).
Qed.

Section Tracks.

Variable c : TasmotaCollector.
Variable Q : Prop.
Variables k i : nat.
Variable o : Outlet.
Variable ms : list (Gauge * float64).

Hypothesis Ho : outlets c !! i = Some o.
Hypothesis Hnd : NoDup (map fst ms).
Hypothesis Hms : Forall (fun m => snd (fst m) = [Name o]) ms.

(** What [tracks] looks at: the call and the values of the gauges of [ms]. *)
Lemma tracks_frame (st st' : State) :
  scrapes st' !! k = scrapes st !! k ->
  (Q -> forall m, In m ms -> valueOf (gauges st') (fst m) = valueOf (gauges st) (fst m)) ->
  tracks Q k i ms st -> tracks Q k i ms st'.
Proof.
  intros Hsame Hval (sc & D1 & D2 & R & Hk & Hsplit & Hrecv & Hsent & Hv & Hpos).
  exists sc, D1, D2, R. rewrite Hsame.
  split; [exact Hk|]. split; [exact Hsplit|]. split; [exact Hrecv|].
  split; [exact Hsent|]. split.
  - intros HQ. destruct (Hv HQ) as [HD1 HD2]. split; [exact HD1|].
    apply Forall_forall. intros m Hm. rewrite Forall_forall in HD2.
    rewrite Hval; [now apply HD2|exact HQ|].
    rewrite Hsplit. apply list_elem_of_In in Hm.
    apply in_or_app. right. apply in_or_app. now left.
  - destruct Hpos as [Hp|(m & R' & -> & Hp & Hm)]; [now left|right].
    exists m, R'. split; [reflexivity|]. split; [exact Hp|]. intros HQ.
    rewrite Hval; [now apply Hm|exact HQ|].
    rewrite Hsplit. apply in_or_app. right. apply in_or_app. right. now left.
Qed.

(** A gauge set by a goroutine that does not meddle is none of [ms]. *)
Lemma other_gauge (k' j : nat) (sc : Scrape) (g : Gauge) (v : float64)
    (rest : list Instr) (m : Gauge * float64) :
  labelled c sc ->
  goroutines sc !! j = Some (GaugeSet g v :: rest) ->
  meddles c k i (Run k' j) = false ->
  (k', j) <> (k, i) ->
  In m ms -> g <> fst m.
Proof.
  intros Hlab Hj Hmed Hne Hin ->.
  destruct (Hlab j _ Hj) as (o' & Ho' & Hall).
  inversion Hall as [|ins rest0 Hg _ [Eins Erest]].
  specialize (Hg _ eq_refl). simpl in Hg.
  rewrite Forall_forall in Hms. apply list_elem_of_In in Hin.
  rewrite (Hms _ Hin) in Hg. injection Hg as Hg.
  unfold meddles in Hmed. rewrite Ho, Ho' in Hmed. simpl in Hmed.
  apply andb_false_iff in Hmed as [Hmed|Hmed].
  - apply negb_false_iff, andb_true_iff in Hmed as [E1 E2].
    apply Nat.eqb_eq in E1, E2. apply Hne. congruence.
  - apply bool_decide_eq_false in Hmed. apply Hmed. congruence.
Qed.

Lemma step_tracks (m : Move) (st st' : State) :
  step m st = Some st' ->
  (Q -> meddles c k i m = false) ->
  Forall (labelled c) (scrapes st) ->
  tracks Q k i ms st -> tracks Q k i ms st'.
Proof.
  intros Hstep Hmed Hlab Htr.
  assert (forall k' sc', scrapes st !! k' = Some sc' -> labelled c sc') as Hlook.
  { intros k' sc' Hk'. rewrite Forall_forall in Hlab. apply Hlab.
    now apply list_elem_of_lookup_2 in Hk'. }
  destruct (step_inv _ _ _ Hstep) as
    (_ & [(k' & j & sc' & g & v & rest & -> & Hk' & Hj & ->)
         |[(k' & j & sc' & g & rest & -> & Hk' & Hj & ->)
          |[(k' & j & sc' & rest & -> & Hk' & Hj & ->)
           |(k' & sc' & j & g & rest & -> & Hk' & Hch & ->)]]]).
  - (* a goroutine sets a gauge *)
    destruct (decide ((k', j) = (k, i))) as [[= -> ->]|Hne].
    + destruct Htr as (sc & D1 & D2 & R & Hk & Hsplit & Hrecv & Hsent & Hval & Hpos).
      rewrite Hk in Hk'. injection Hk' as <-. rewrite Hj in Hpos.
      destruct Hpos as [[= Hp]|(m & R' & _ & [=] & _)].
      symmetry in Hp. apply program_head_set in Hp as (R' & -> & ->).
      eexists _, D1, D2, ((g, v) :: R'). simpl.
      split; [apply list_lookup_insert_eq; now apply lookup_lt_Some in Hk|].
      split; [exact Hsplit|]. split; [exact Hrecv|]. split; [exact Hsent|].
      split; [intros HQ; destruct (Hval HQ) as [HD1 HD2]; split; [exact HD1|]|].
      * apply Forall_forall. intros m' Hm'.
        rewrite Forall_forall in HD2. rewrite valueOf_insert_ne; [now apply HD2|].
        intros ->. rewrite Hsplit, !map_app in Hnd.
        apply NoDup_app in Hnd as (_ & _ & Hnd').
        apply NoDup_app in Hnd' as (_ & Hdisj & _).
        apply (Hdisj (fst m')); [now apply list_elem_of_fmap_2|].
        simpl. left.
      * right. exists (g, v), R'. split; [reflexivity|]. split.
        -- simpl. apply list_lookup_insert_eq. now apply lookup_lt_Some in Hj.
        -- intros _. simpl. apply valueOf_insert.
    + assert (tracks Q k i ms
                {| gauges := <[g := v]> (gauges st); scrapes := scrapes st;
                   panicked := false |}) as Htr'.
      { apply (tracks_frame st); [reflexivity| |exact Htr].
        intros HQ m Hm. simpl. apply valueOf_insert_ne.
        now apply (other_gauge k' j sc' g v rest m (Hlook k' sc' Hk') Hj (Hmed HQ) Hne). }
      destruct (decide (k' = k)) as [->|Hk'k].
      * destruct Htr' as (sc & D1 & D2 & R & Hk & Hsplit & Hrecv & Hsent & Hval & Hpos).
        simpl in Hk. rewrite Hk in Hk'. injection Hk' as <-.
        assert (j <> i) as Hji by congruence.
        eexists _, D1, D2, R. simpl.
        split; [apply list_lookup_insert_eq; now apply lookup_lt_Some in Hk|].
        split; [exact Hsplit|]. split; [exact Hrecv|]. split; [exact Hsent|].
        split; [exact Hval|]. simpl.
        rewrite list_lookup_insert_ne by assumption. exact Hpos.
      * apply (tracks_frame {| gauges := <[g := v]> (gauges st); scrapes := scrapes st;
                               panicked := false |}); [|reflexivity|exact Htr'].
        simpl. now apply list_lookup_insert_ne.
  - (* a goroutine sends a gauge *)
    destruct (decide (k' = k)) as [->|Hk'k].
    2:{ apply (tracks_frame st); [|reflexivity|exact Htr].
        simpl. now apply list_lookup_insert_ne. }
    destruct Htr as (sc & D1 & D2 & R & Hk & Hsplit & Hrecv & Hsent & Hval & Hpos).
    rewrite Hk in Hk'. injection Hk' as <-.
    destruct (decide (j = i)) as [->|Hji].
    + rewrite Hj in Hpos.
      destruct Hpos as [[= Hp]|(m & R' & -> & [= -> ->] & Hv)].
      { symmetry in Hp. now apply program_head_collect in Hp. }
      eexists _, D1, (D2 ++ [m]), R'. simpl.
      split; [apply list_lookup_insert_eq; now apply lookup_lt_Some in Hk|].
      split; [rewrite Hsplit, <- !app_assoc; reflexivity|].
      split; [exact Hrecv|]. split; [|split].
      * unfold sentBy. simpl. rewrite filter_app, map_app.
        rewrite filter_cons_True by reflexivity. simpl.
        rewrite map_app. simpl. f_equal. exact Hsent.
      * intros HQ. destruct (Hval HQ) as [HD1 HD2]. split; [exact HD1|].
        apply Forall_app. split; [exact HD2|].
        constructor; [now apply Hv|constructor].
      * left. simpl. apply list_lookup_insert_eq. now apply lookup_lt_Some in Hj.
    + eexists _, D1, D2, R. simpl.
      split; [apply list_lookup_insert_eq; now apply lookup_lt_Some in Hk|].
      split; [exact Hsplit|]. split; [exact Hrecv|]. split; [|split].
      * unfold sentBy. simpl. rewrite filter_app.
        rewrite filter_cons_False by (simpl; congruence).
        rewrite filter_nil, app_nil_r. exact Hsent.
      * exact Hval.
      * simpl. rewrite list_lookup_insert_ne by assumption. exact Hpos.
  - (* a goroutine panics *)
    apply (tracks_frame st); [reflexivity|reflexivity|exact Htr].
  - (* a sink takes a metric *)
    destruct (decide (k' = k)) as [->|Hk'k].
    2:{ apply (tracks_frame st); [|reflexivity|exact Htr].
        simpl. now apply list_lookup_insert_ne. }
    destruct Htr as (sc & D1 & D2 & R & Hk & Hsplit & Hrecv & Hsent & Hval & Hpos).
    rewrite Hk in Hk'. injection Hk' as <-.
    destruct (decide (j = i)) as [->|Hji].
    + unfold sentBy in Hsent. rewrite Hch in Hsent.
      rewrite filter_cons_True in Hsent by reflexivity. simpl in Hsent.
      destruct D2 as [|m D2']; [discriminate|]. injection Hsent as Hg Hsent.
      eexists _, (D1 ++ [m]), D2', R. simpl.
      split; [apply list_lookup_insert_eq; now apply lookup_lt_Some in Hk|].
      split; [rewrite Hsplit, <- !app_assoc; reflexivity|].
      split; [|split; [exact Hsent|split; [|exact Hpos]]].
      * unfold receivedFrom. simpl. rewrite filter_app, !map_app.
        rewrite filter_cons_True by reflexivity. simpl. rewrite Hg. f_equal. exact Hrecv.
      * intros HQ. destruct (Hval HQ) as [HD1 HD2].
        inversion HD2 as [|m0 D0 Hm HD2' [E1 E2]]. split; [|exact HD2'].
        unfold receivedFrom. simpl. rewrite filter_app, !map_app.
        rewrite filter_cons_True by reflexivity. simpl.
        f_equal; [exact HD1|]. rewrite Hg, Hm. now destruct m.
    + eexists _, D1, D2, R. simpl.
      split; [apply list_lookup_insert_eq; now apply lookup_lt_Some in Hk|].
      split; [exact Hsplit|]. split; [|split; [|split; [|exact Hpos]]].
      * unfold receivedFrom. simpl. rewrite filter_app.
        rewrite filter_cons_False by (simpl; congruence).
        rewrite filter_nil, app_nil_r. exact Hrecv.
      * unfold sentBy in *. simpl. rewrite Hch in Hsent.
        rewrite filter_cons_False in Hsent by (simpl; congruence). exact Hsent.
      * intros HQ. destruct (Hval HQ) as [HD1 HD2]. split; [|exact HD2].
        unfold receivedFrom. simpl. rewrite filter_app.
        rewrite filter_cons_False by (simpl; congruence).
        rewrite filter_nil, app_nil_r. exact HD1.
Qed.

Lemma run_tracks (schedule : list Move) (st st' : State) :
  run schedule st = Some st' ->
  (Q -> quiet c k i schedule = true) ->
  Forall (labelled c) (scrapes st) ->
  tracks Q k i ms st -> tracks Q k i ms st'.
Proof.
  revert st. induction schedule as [|m schedule IH]; intros st; simpl.
  - now intros [= <-].
  - destruct (step m st) as [st1|] eqn:Hstep; [|discriminate].
    intros Hrun Hq Hlab Htr. apply (IH st1 Hrun).
    + intros HQ. specialize (Hq HQ). now apply andb_true_iff in Hq as [_ Hq].
    + now apply (step_labelled c m st).
    + apply (step_tracks m st); [exact Hstep| |exact Hlab|exact Htr].
      intros HQ. specialize (Hq HQ). apply andb_true_iff in Hq as [Hq _].
      now apply negb_true_iff in Hq.
Qed.

End Tracks.

(** ** A goroutine that has not moved *)

Lemma step_idle (k i : nat) (prog : list Instr) (m : Move) (st st' : State) :
  step m st = Some st' ->
  (m = Run k i -> exists rest, prog = Panic :: rest) ->
  idle k i prog st -> idle k i prog st'.
Proof.
  intros Hstep Hown (sc & Hk & Hi & Hrecv & Hsent).
  destruct (step_inv _ _ _ Hstep) as
    (_ & [(k' & j & sc' & g & v & rest & -> & Hk' & Hj & ->)
         |[(k' & j & sc' & g & rest & -> & Hk' & Hj & ->)
          |[(k' & j & sc' & rest & -> & Hk' & Hj & ->)
           |(k' & sc' & j & g & rest & -> & Hk' & Hch & ->)]]]).
  - destruct (decide (k' = k)) as [->|Hk'k].
    + rewrite Hk in Hk'. injection Hk' as <-.
      destruct (decide (j = i)) as [->|Hji].
      { destruct (Hown eq_refl) as (r & ->). congruence. }
      eexists. simpl.
      split; [apply list_lookup_insert_eq; now apply lookup_lt_Some in Hk|].
      simpl. rewrite list_lookup_insert_ne by assumption. auto.
    + exists sc. simpl. rewrite list_lookup_insert_ne by assumption. auto.
  - destruct (decide (k' = k)) as [->|Hk'k].
    + rewrite Hk in Hk'. injection Hk' as <-.
      destruct (decide (j = i)) as [->|Hji].
      { destruct (Hown eq_refl) as (r & ->). congruence. }
      eexists. simpl.
      split; [apply list_lookup_insert_eq; now apply lookup_lt_Some in Hk|].
      simpl. rewrite list_lookup_insert_ne by assumption.
      split; [exact Hi|]. split; [exact Hrecv|].
      unfold sentBy. simpl. rewrite filter_app.
      rewrite filter_cons_False by (simpl; congruence).
      rewrite filter_nil, app_nil_r. exact Hsent.
    + exists sc. simpl. rewrite list_lookup_insert_ne by assumption. auto.
  - exists sc. simpl. auto.
  - destruct (decide (k' = k)) as [->|Hk'k].
    + rewrite Hk in Hk'. injection Hk' as <-.
      assert (j <> i) as Hji.
      { intros ->. unfold sentBy in Hsent. rewrite Hch in Hsent.
        rewrite filter_cons_True in Hsent by reflexivity. discriminate. }
      eexists. simpl.
      split; [apply list_lookup_insert_eq; now apply lookup_lt_Some in Hk|].
      simpl. split; [exact Hi|]. split.
      * unfold receivedFrom. simpl. rewrite filter_app.
        rewrite filter_cons_False by (simpl; congruence).
        rewrite filter_nil, app_nil_r. exact Hrecv.
      * unfold sentBy in *. simpl. rewrite Hch in Hsent.
        rewrite filter_cons_False in Hsent by (simpl; congruence). exact Hsent.
    + exists sc. simpl. rewrite list_lookup_insert_ne by assumption. auto.
Qed.

Lemma idle_tracks (Q : Prop) (k i : nat) (ms : list (Gauge * float64)) (st : State) :
  idle k i (program ms) st -> tracks Q k i ms st.
Proof.
  intros (sc & Hk & Hi & Hrecv & Hsent). exists sc, [], [], ms.
  split; [exact Hk|]. split; [reflexivity|]. rewrite Hrecv, Hsent.
  split; [reflexivity|]. split; [reflexivity|].
  split; [intros _; split; [reflexivity|constructor]|]. now left.
Qed.

(** A goroutine that panics at its first move never sends anything, and its
    call is never over. *)
Lemma run_mute (k i : nat) (rest : list Instr) (schedule : list Move) (st st' : State) :
  run schedule st = Some st' ->
  idle k i (Panic :: rest) st -> idle k i (Panic :: rest) st'.
Proof.
  intros Hrun. apply (run_invariant (idle k i (Panic :: rest)) schedule st st');
    [|exact Hrun].
  intros m s s' Hstep. apply (step_idle k i _ m s s' Hstep). intros _. now exists rest.
Qed.

Lemma mute_unfinished (k i : nat) (rest : list Instr) (st : State) :
  idle k i (Panic :: rest) st -> ~ finished k st.
Proof.
  intros (sc & Hk & Hi & _) (_ & sc' & Hk' & Hdone & _).
  rewrite Hk in Hk'. injection Hk' as <-.
  rewrite Forall_forall in Hdone. apply list_elem_of_lookup_2 in Hi.
  apply Hdone in Hi. discriminate.
Qed.

Lemma run_undisturbed (c : TasmotaCollector) (k i : nat) (o : Outlet)
    (ms : list (Gauge * float64)) (schedule : list Move) (st st' : State) :
  outlets c !! i = Some o ->
  NoDup (map fst ms) ->
  Forall (fun m => snd (fst m) = [Name o]) ms ->
  run schedule st = Some st' ->
  undisturbed c k i schedule = true ->
  Forall (labelled c) (scrapes st) ->
  idle k i (program ms) st -> tracks True k i ms st'.
Proof.
  intros Ho Hnd Hms. revert st. induction schedule as [|m schedule IH]; intros st.
  - intros [= <-] _ _. apply idle_tracks.
  - cbn [run]. destruct (step m st) as [st1|] eqn:Hstep; [|discriminate].
    intros Hrun Hun Hlab Hidle.
    assert (Forall (labelled c) (scrapes st1)) as Hlab1
      by now apply (step_labelled c m st).
    destruct m as [k' j|k'].
    + cbn [undisturbed] in Hun.
      destruct ((k' =? k)%nat && (j =? i)%nat) eqn:Hown.
      * apply (run_tracks c True k i o ms Ho Hnd Hms schedule st1); auto.
        apply (step_tracks c True k i o ms Ho Hnd Hms (Run k' j) st); auto.
        -- intros _. unfold meddles. now rewrite Hown.
        -- now apply idle_tracks.
      * apply (IH st1 Hrun Hun Hlab1).
        apply (step_idle k i _ (Run k' j) st); [exact Hstep| |exact Hidle].
        intros [= -> ->]. rewrite !Nat.eqb_refl in Hown. discriminate.
    + cbn [undisturbed] in Hun. apply (IH st1 Hrun Hun Hlab1).
      apply (step_idle k i _ (Receive k') st); [exact Hstep| |exact Hidle].
      discriminate.
Qed.

Lemma finished_tracks (Q : Prop) (k i : nat) (ms : list (Gauge * float64))
    (st : State) :
  finished k st -> tracks Q k i ms st ->
  map fst (receivedFrom i (scrape k st)) = map fst ms /\
  (Q -> receivedFrom i (scrape k st) = ms).
Proof.
  intros (_ & sc' & Hk' & Hdone & Hch)
         (sc & D1 & D2 & R & Hk & Hsplit & Hrecv & Hsent & Hval & Hpos).
  rewrite Hk in Hk'. injection Hk' as <-. unfold scrape. rewrite Hk.
  unfold sentBy in Hsent. rewrite Hch in Hsent. simpl in Hsent.
  symmetry in Hsent. apply map_eq_nil in Hsent. subst D2.
  assert (R = []) as ->.
  { rewrite Forall_forall in Hdone.
    destruct Hpos as [Hp|(m & R' & _ & Hp & _)].
    - apply list_elem_of_lookup_2 in Hp. apply Hdone in Hp. now apply program_nil.
    - apply list_elem_of_lookup_2 in Hp. apply Hdone in Hp. discriminate. }
  simpl in Hsplit. rewrite app_nil_r in Hsplit. subst D1.
  split; [exact Hrecv|]. intros HQ. now apply Hval.
Qed.

(** ** The process as it starts to serve *)

Lemma serving_scrape (c : TasmotaCollector) (replies : nat -> nat -> Reply)
    (n : nat) (gs : Gauges) (k : nat) :
  scrapes (serving c replies n gs) !! k
  = if decide (k < n)%nat then Some (Collect c (replies k)) else None.
Proof.
  unfold serving. simpl. rewrite list_lookup_fmap.
  destruct (decide (k < n)%nat) as [Hlt|Hge].
  - rewrite lookup_seq_lt by exact Hlt. reflexivity.
  - rewrite lookup_seq_ge by lia. reflexivity.
Qed.

Lemma Collect_goroutine (c : TasmotaCollector) (replies : nat -> Reply) (j : nat) :
  goroutines (Collect c replies) !! j
  = (fun o => goroutine c o (probeTasmota (replies j))) <$> outlets c !! j.
Proof. unfold Collect. simpl. apply list_lookup_imap. Qed.

Lemma serving_labelled (l : list Outlet) (replies : nat -> nat -> Reply)
    (n : nat) (gs : Gauges) :
  Forall (labelled (NewTasmotaCollector l))
         (scrapes (serving (NewTasmotaCollector l) replies n gs)).
Proof.
  apply Forall_forall. intros sc Hsc. apply list_elem_of_lookup_1 in Hsc as [k Hk].
  rewrite serving_scrape in Hk. destruct (decide (k < n)%nat); [|discriminate].
  injection Hk as <-. intros j rest. rewrite Collect_goroutine.
  destruct (outlets (NewTasmotaCollector l) !! j) as [o|]; [|discriminate].
  intros [= <-]. exists o. split; [reflexivity|]. apply goroutine_label.
Qed.

Lemma serving_idle (c : TasmotaCollector) (replies : nat -> nat -> Reply)
    (n : nat) (gs : Gauges) (k i : nat) (o : Outlet) :
  (k < n)%nat ->
  outlets c !! i = Some o ->
  idle k i (goroutine c o (probeTasmota (replies k i))) (serving c replies n gs).
Proof.
  intros Hk Ho. exists (Collect c (replies k)).
  rewrite serving_scrape. destruct (decide (k < n)%nat); [|lia].
  split; [reflexivity|]. rewrite Collect_goroutine, Ho. auto.
Qed.

Lemma run_scrapes_length (schedule : list Move) (st st' : State) :
  run schedule st = Some st' -> length (scrapes st') = length (scrapes st).
Proof.
  intros Hrun.
  apply (run_invariant (fun s => length (scrapes s) = length (scrapes st)) schedule st st');
    [|exact Hrun|reflexivity].
  intros m s s' Hstep Hlen.
  destruct (step_inv _ _ _ Hstep) as
    (_ & [(k' & j & sc' & g & v & rest & -> & Hk' & Hj & ->)
         |[(k' & j & sc' & g & rest & -> & Hk' & Hj & ->)
          |[(k' & j & sc' & rest & -> & Hk' & Hj & ->)
           |(k' & sc' & j & g & rest & -> & Hk' & Hch & ->)]]]); simpl;
    rewrite ?length_insert; exact Hlen.
Qed.

(** What the sink of a call has taken from the goroutine of an outlet when
    the call is over: the name of the outlet is valid UTF-8, and the sink has
    the metrics of that goroutine, in its order; with the values it set, when
    it was not disturbed. *)
Lemma scrape_received (l : list Outlet) (replies : nat -> nat -> Reply) (n : nat)
    (gs : Gauges) (schedule : list Move) (st : State) (k i : nat) (o : Outlet) :
  run schedule (serving (NewTasmotaCollector l) replies n gs) = Some st ->
  finished k st ->
  l !! i = Some o ->
  utf8.ValidString (Name o) = true /\
  map fst (receivedFrom i (scrape k st)) = map fst (metrics o (probeTasmota (replies k i))) /\
  (undisturbed (NewTasmotaCollector l) k i schedule = true ->
   receivedFrom i (scrape k st) = metrics o (probeTasmota (replies k i))).
Proof.
  intros Hrun Hfin Ho.
  assert (k < n)%nat as Hk.
  { destruct Hfin as (_ & sc & Hsc & _). apply lookup_lt_Some in Hsc.
    rewrite (run_scrapes_length _ _ _ Hrun) in Hsc. unfold serving in Hsc.
    simpl in Hsc. now rewrite length_map, length_seq in Hsc. }
  pose proof (serving_idle (NewTasmotaCollector l) replies n gs k i o Hk Ho) as Hidle.
  destruct (utf8.ValidString (Name o)) eqn:Hvalid.
  2:{ destruct (goroutine_panics l o (probeTasmota (replies k i)) Hvalid) as (rest & E).
      rewrite E in Hidle. exfalso.
      apply (mute_unfinished k i rest st); [|exact Hfin].
      now apply (run_mute k i rest schedule _ st Hrun). }
  rewrite goroutine_program in Hidle by exact Hvalid.
  split; [reflexivity|]. split.
  - apply (finished_tracks False); [exact Hfin|].
    apply (run_tracks (NewTasmotaCollector l) False k i o _ Ho (metrics_NoDup _ _)
             (metrics_label _ _) schedule _ st Hrun); [tauto|apply serving_labelled|].
    now apply idle_tracks.
  - intros Hun. apply (finished_tracks True); [exact Hfin| |exact I].
    apply (run_undisturbed (NewTasmotaCollector l) k i o _ schedule _ st Ho
             (metrics_NoDup _ _) (metrics_label _ _) Hrun Hun);
      [apply serving_labelled|exact Hidle].
Qed.

(** The same at any moment: the sink has a prefix of these metrics; nothing
    when the name of the outlet is not valid UTF-8. *)
Lemma scrape_receiving (l : list Outlet) (replies : nat -> nat -> Reply) (n : nat)
    (gs : Gauges) (schedule : list Move) (st : State) (k i : nat) (o : Outlet) :
  run schedule (serving (NewTasmotaCollector l) replies n gs) = Some st ->
  (k < n)%nat ->
  l !! i = Some o ->
  (exists rest,
      map fst (metrics o (probeTasmota (replies k i)))
      = map fst (receivedFrom i (scrape k st)) ++ rest) /\
  (undisturbed (NewTasmotaCollector l) k i schedule = true ->
   exists rest,
     metrics o (probeTasmota (replies k i)) = receivedFrom i (scrape k st) ++ rest).
Proof.
  intros Hrun Hk Ho.
  pose proof (serving_idle (NewTasmotaCollector l) replies n gs k i o Hk Ho) as Hidle.
  destruct (utf8.ValidString (Name o)) eqn:Hvalid.
  2:{ destruct (goroutine_panics l o (probeTasmota (replies k i)) Hvalid) as (rest & E).
      rewrite E in Hidle.
      destruct (run_mute k i rest schedule _ st Hrun Hidle) as (sc & Hsc & _ & Hrecv & _).
      unfold scrape. rewrite Hsc, Hrecv. split; [|intros _]; eexists; reflexivity. }
  rewrite goroutine_program in Hidle by exact Hvalid. split.
  - destruct (run_tracks (NewTasmotaCollector l) False k i o _ Ho (metrics_NoDup _ _)
                (metrics_label _ _) schedule _ st Hrun ltac:(tauto)
                (serving_labelled _ _ _ _) (idle_tracks _ _ _ _ _ Hidle))
      as (sc & D1 & D2 & R & Hsc & Hms & Hrecv & _).
    unfold scrape. rewrite Hsc. exists (map fst (D2 ++ R)).
    now rewrite Hms, Hrecv, map_app.
  - intros Hun.
    destruct (run_undisturbed (NewTasmotaCollector l) k i o _ schedule _ st Ho
                (metrics_NoDup _ _) (metrics_label _ _) Hrun Hun
                (serving_labelled _ _ _ _) Hidle)
      as (sc & D1 & D2 & R & Hsc & Hms & _ & _ & Hval & _).
    unfold scrape. rewrite Hsc. destruct (Hval I) as [-> _]. now exists (D2 ++ R).
Qed.

(** ** A call always comes to its end, unless a goroutine panics *)

Lemma concat_insert_length {A} (l : list (list A)) (j : nat) (x : A) (rest : list A) :
  l !! j = Some (x :: rest) ->
  S (length (concat (<[j := rest]> l))) = length (concat l).
Proof.
  revert j. induction l as [|y l IH]; intros j; [discriminate|].
  destruct j as [|j]; simpl.
  - intros [= ->]. rewrite !length_app. reflexivity.
  - intros Hj. rewrite !length_app, <- (IH j Hj). lia.
Qed.

Lemma concat_nonempty {A} (l : list (list A)) :
  concat l <> [] -> exists j x rest, l !! j = Some (x :: rest).
Proof.
  induction l as [|y l IH]; simpl; [congruence|].
  destruct y as [|x rest].
  - intros Hne. destruct (IH Hne) as (j & x & rest & Hj). now exists (S j), x, rest.
  - intros _. now exists 0%nat, x, rest.
Qed.

Lemma concat_nil_Forall {A} (l : list (list A)) :
  concat l = [] -> Forall (fun rest => rest = []) l.
Proof.
  induction l as [|y l IH]; simpl; [constructor|].
  intros H. apply app_eq_nil in H as [-> H]. constructor; [reflexivity|now apply IH].
Qed.

Lemma sum_insert {A} (f : A -> nat) (l : list A) (k : nat) (x y : A) :
  l !! k = Some x ->
  (sum_list_with f (<[k := y]> l) + f x = sum_list_with f l + f y)%nat.
Proof.
  revert k. induction l as [|z l IH]; intros k; [discriminate|].
  destruct k as [|k]; simpl.
  - intros [= ->]. lia.
  - intros Hk. specialize (IH k Hk). lia.
Qed.

Lemma step_Run (st : State) (k j : nat) (sc : Scrape) (ins : Instr) (rest : list Instr) :
  panicked st = false ->
  scrapes st !! k = Some sc ->
  goroutines sc !! j = Some (ins :: rest) ->
  ins <> Panic ->
  exists st', step (Run k j) st = Some st' /\ (work st' < work st)%nat.
Proof.
  intros Hp Hk Hj Hins. pose proof (concat_insert_length _ _ _ _ Hj) as Hlen.
  unfold step. rewrite Hp, Hk, Hj.
  destruct ins as [g v|g|]; [| |congruence]; eexists; (split; [reflexivity|]);
    unfold work; simpl;
    match goal with
    | |- (sum_list_with toDo (<[k := ?sc']> _) < _)%nat =>
        pose proof (sum_insert toDo (scrapes st) k sc sc' Hk) as Hsum
    end;
    unfold toDo in Hsum at 2 4; simpl in Hsum; rewrite ?length_app in Hsum;
    simpl in Hsum; lia.
Qed.

Lemma step_Receive (st : State) (k j : nat) (sc : Scrape) (g : Gauge)
    (rest : list (nat * Gauge)) :
  panicked st = false ->
  scrapes st !! k = Some sc ->
  ch sc = (j, g) :: rest ->
  exists st', step (Receive k) st = Some st' /\ (work st' < work st)%nat.
Proof.
  intros Hp Hk Hch. unfold step. rewrite Hp, Hk, Hch.
  eexists. split; [reflexivity|]. unfold work. simpl.
  match goal with
  | |- (sum_list_with toDo (<[k := ?sc']> _) < _)%nat =>
      pose proof (sum_insert toDo (scrapes st) k sc sc' Hk) as Hsum
  end.
  unfold toDo in Hsum at 2 4. simpl in Hsum. rewrite Hch in Hsum. simpl in Hsum. lia.
Qed.

Lemma not_done_cases (l : list Scrape) :
  Forall done l \/
  exists k sc,
    l !! k = Some sc /\
    ((exists j g rest, ch sc = (j, g) :: rest) \/
     (exists j ins rest, goroutines sc !! j = Some (ins :: rest))).
Proof.
  induction l as [|sc l IH]; [left; constructor|].
  destruct (ch sc) as [|[j g] rest] eqn:Hch.
  2:{ right. exists 0%nat, sc. split; [reflexivity|]. left. now exists j, g, rest. }
  destruct (concat (goroutines sc)) as [|ins0 tl] eqn:Hc.
  - destruct IH as [Hall|(k & sc' & Hk & Hcases)].
    + left. constructor; [|exact Hall]. split; [now apply concat_nil_Forall|exact Hch].
    + right. now exists (S k), sc'.
  - right. exists 0%nat, sc. split; [reflexivity|]. right.
    apply concat_nonempty. rewrite Hc. discriminate.
Qed.

Lemma step_panic_free (m : Move) (st st' : State) :
  step m st = Some st' -> panic_free st -> panic_free st' /\ panicked st' = false.
Proof.
  intros Hstep Hfree.
  assert (forall k sc, scrapes st !! k = Some sc ->
                       Forall (Forall (fun ins => ins <> Panic)) (goroutines sc)) as Hlook.
  { intros k sc Hk. unfold panic_free in Hfree. rewrite Forall_forall in Hfree.
    apply Hfree. now apply list_elem_of_lookup_2 in Hk. }
  assert (forall sc j ins rest,
             Forall (Forall (fun ins => ins <> Panic)) (goroutines sc) ->
             goroutines sc !! j = Some (ins :: rest) ->
             ins <> Panic /\
             Forall (Forall (fun ins => ins <> Panic)) (<[j := rest]> (goroutines sc)))
    as Hnext.
  { intros sc j ins rest Hall Hj. pose proof Hall as Hall'.
    rewrite Forall_forall in Hall'. apply list_elem_of_lookup_2 in Hj.
    apply Hall' in Hj. inversion Hj; subst. split; [assumption|].
    now apply Forall_insert. }
  destruct (step_inv _ _ _ Hstep) as
    (_ & [(k & i & sc & g & v & rest & -> & Hk & Hi & ->)
         |[(k & i & sc & g & rest & -> & Hk & Hi & ->)
          |[(k & i & sc & rest & -> & Hk & Hi & ->)
           |(k & sc & i & g & rest & -> & Hk & Hch & ->)]]]); unfold panic_free; simpl.
  - split; [|reflexivity]. apply Forall_insert; [exact Hfree|]. simpl.
    now apply (Hnext sc i (GaugeSet g v) rest (Hlook k sc Hk)).
  - split; [|reflexivity]. apply Forall_insert; [exact Hfree|]. simpl.
    now apply (Hnext sc i (GaugeCollect g) rest (Hlook k sc Hk)).
  - destruct (Hnext sc i Panic rest (Hlook k sc Hk) Hi) as [Hne _]. congruence.
  - split; [|reflexivity]. apply Forall_insert; [exact Hfree|]. simpl.
    now apply (Hlook k sc Hk).
Qed.

Lemma run_panic_free (schedule : list Move) (st st' : State) :
  run schedule st = Some st' -> panic_free st -> panicked st = false ->
  panic_free st' /\ panicked st' = false.
Proof.
  intros Hrun Hfree Hp.
  apply (run_invariant (fun s => panic_free s /\ panicked s = false) schedule st st');
    [|exact Hrun|now split].
  intros m s s' Hstep [Hf _]. now apply (step_panic_free m s).
Qed.

Lemma can_finish (n : nat) (st : State) :
  (work st <= n)%nat -> panicked st = false -> panic_free st ->
  exists schedule st', run schedule st = Some st' /\ all_finished st'.
Proof.
  revert st. induction n as [|n IH]; intros st Hwork Hp Hfree;
    (destruct (not_done_cases (scrapes st)) as [Hall|(k & sc & Hk & Hcases)];
     [exists [], st; split; [reflexivity|now split]|]).
  - exfalso. destruct Hcases as [(j & g & rest & Hch)|(j & ins & rest & Hj)].
    + destruct (step_Receive st k j sc g rest Hp Hk Hch) as (st1 & _ & Hlt). lia.
    + assert (ins <> Panic) as Hins.
      { unfold panic_free in Hfree. rewrite Forall_forall in Hfree.
        pose proof (Hfree sc ltac:(now apply list_elem_of_lookup_2 in Hk)) as Hsc.
        rewrite Forall_forall in Hsc. apply list_elem_of_lookup_2 in Hj.
        apply Hsc in Hj. now inversion Hj. }
      destruct (step_Run st k j sc ins rest Hp Hk Hj Hins) as (st1 & _ & Hlt). lia.
  - assert (exists m st1, step m st = Some st1 /\ (work st1 < work st)%nat)
      as (m & st1 & Hstep & Hlt).
    { destruct Hcases as [(j & g & rest & Hch)|(j & ins & rest & Hj)].
      - destruct (step_Receive st k j sc g rest Hp Hk Hch) as (st1 & Hs & Hlt).
        now exists (Receive k), st1.
      - assert (ins <> Panic) as Hins.
        { unfold panic_free in Hfree. rewrite Forall_forall in Hfree.
          pose proof (Hfree sc ltac:(now apply list_elem_of_lookup_2 in Hk)) as Hsc.
          rewrite Forall_forall in Hsc. apply list_elem_of_lookup_2 in Hj.
          apply Hsc in Hj. now inversion Hj. }
        destruct (step_Run st k j sc ins rest Hp Hk Hj Hins) as (st1 & Hs & Hlt).
        now exists (Run k j), st1. }
    destruct (step_panic_free m st st1 Hstep Hfree) as [Hfree1 Hp1].
    destruct (IH st1 ltac:(lia) Hp1 Hfree1) as (schedule & st' & Hrun & Hfin).
    exists (m :: schedule), st'. split; [|exact Hfin]. cbn [run]. now rewrite Hstep.
Qed.

Lemma all_finished_finished (k : nat) (st : State) :
  all_finished st -> (k < length (scrapes st))%nat -> finished k st.
Proof.
  intros [Hp Hall] Hk. split; [exact Hp|].
  destruct (lookup_lt_is_Some_2 _ _ Hk) as [sc Hsc]. exists sc. split; [exact Hsc|].
  rewrite Forall_forall in Hall. apply Hall. now apply list_elem_of_lookup_2 in Hsc.
Qed.

Lemma serving_panic_free (l : list Outlet) (replies : nat -> nat -> Reply)
    (n : nat) (gs : Gauges) :
  Forall (fun o => utf8.ValidString (Name o) = true) l ->
  panic_free (serving (NewTasmotaCollector l) replies n gs).
Proof.
  intros Hvalid. apply Forall_forall. intros sc Hsc.
  apply list_elem_of_lookup_1 in Hsc as [k Hk].
  rewrite serving_scrape in Hk. destruct (decide (k < n)%nat); [|discriminate].
  injection Hk as <-. apply Forall_forall. intros prog Hprog.
  apply list_elem_of_lookup_1 in Hprog as [j Hj]. rewrite Collect_goroutine in Hj.
  simpl in Hj. destruct (l !! j) as [o|] eqn:Ho; [|discriminate].
  injection Hj as <-. rewrite Forall_forall in Hvalid.
  rewrite goroutine_program by (apply Hvalid; now apply list_elem_of_lookup_2 in Ho).
  apply program_panic_free.
Qed.

(** From wherever the process is, every call can be run to its end when the
    names of the outlets are valid UTF-8. *)
Lemma serving_can_finish (l : list Outlet) (replies : nat -> nat -> Reply)
    (n : nat) (gs : Gauges) (schedule : list Move) (st : State) :
  Forall (fun o => utf8.ValidString (Name o) = true) l ->
  run schedule (serving (NewTasmotaCollector l) replies n gs) = Some st ->
  exists schedule' st',
    run schedule' st = Some st' /\ forall k, (k < n)%nat -> finished k st'.
Proof.
  intros Hvalid Hrun.
  destruct (run_panic_free _ _ _ Hrun (serving_panic_free l replies n gs Hvalid) eq_refl)
    as [Hfree Hp].
  destruct (can_finish (work st) st (Nat.le_refl _) Hp Hfree)
    as (schedule' & st' & Hrun' & Hfin).
  exists schedule', st'. split; [exact Hrun'|]. intros k Hk.
  apply all_finished_finished; [exact Hfin|].
  rewrite (run_scrapes_length _ _ _ Hrun'), (run_scrapes_length _ _ _ Hrun).
  unfold serving. simpl. now rewrite length_map, length_seq.
Qed.

(** ** Every metric comes from a registered outlet *)

Lemma step_tagged (n : nat) (m : Move) (st st' : State) :
  step m st = Some st' ->
  Forall (tagged n) (scrapes st) -> Forall (tagged n) (scrapes st').
Proof.
  intros Hstep Htag.
  assert (forall k sc, scrapes st !! k = Some sc -> tagged n sc) as Hlook.
  { intros k sc Hk. rewrite Forall_forall in Htag. apply Htag.
    now apply list_elem_of_lookup_2 in Hk. }
  destruct (step_inv _ _ _ Hstep) as
    (_ & [(k & i & sc & g & v & rest & -> & Hk & Hi & ->)
         |[(k & i & sc & g & rest & -> & Hk & Hi & ->)
          |[(k & i & sc & rest & -> & Hk & Hi & ->)
           |(k & sc & i & g & rest & -> & Hk & Hch & ->)]]]); simpl.
  - apply Forall_insert; [exact Htag|].
    destruct (Hlook k sc Hk) as (Hlen & Hc & Hr). unfold tagged; simpl.
    rewrite length_insert. auto.
  - apply Forall_insert; [exact Htag|].
    destruct (Hlook k sc Hk) as (Hlen & Hc & Hr). unfold tagged; simpl.
    rewrite length_insert.
    split; [exact Hlen|]. split; [|exact Hr]. apply Forall_app. split; [exact Hc|].
    constructor; [|constructor]. simpl. apply lookup_lt_Some in Hi. lia.
  - exact Htag.
  - apply Forall_insert; [exact Htag|].
    destruct (Hlook k sc Hk) as (Hlen & Hc & Hr). unfold tagged; simpl.
    rewrite Hch in Hc. apply Forall_cons in Hc as [Hj Hrest].
    split; [exact Hlen|]. split; [exact Hrest|].
    apply Forall_app. split; [exact Hr|]. constructor; [exact Hj|constructor].
Qed.

Lemma serving_tagged (c : TasmotaCollector) (replies : nat -> nat -> Reply)
    (n : nat) (gs : Gauges) :
  Forall (tagged (length (outlets c))) (scrapes (serving c replies n gs)).
Proof.
  apply Forall_forall. intros sc Hsc. apply list_elem_of_lookup_1 in Hsc as [k Hk].
  rewrite serving_scrape in Hk. destruct (decide (k < n)%nat); [|discriminate].
  injection Hk as <-. unfold Collect. repeat split; simpl;
    [apply length_imap|constructor|constructor].
Qed.

Lemma run_tagged (c : TasmotaCollector) (replies : nat -> nat -> Reply)
    (n : nat) (gs : Gauges) (schedule : list Move) (st : State) (k : nat) :
  run schedule (serving c replies n gs) = Some st ->
  Forall (fun m => (fst m < length (outlets c))%nat) (received (scrape k st)).
Proof.
  intros Hrun.
  pose proof (run_invariant (fun s => Forall (tagged (length (outlets c))) (scrapes s))
                schedule _ st (step_tagged _) Hrun (serving_tagged c replies n gs))
    as Htag.
  unfold scrape. destruct (scrapes st !! k) as [sc|] eqn:Hk; [|constructor].
  rewrite Forall_forall in Htag. apply list_elem_of_lookup_2 in Hk.
  now destruct (Htag sc Hk) as (_ & _ & Hr).
Qed.

Lemma run_within (c : TasmotaCollector) (replies : nat -> nat -> Reply)
    (n : nat) (gs : Gauges) (schedule : list Move) (st : State) (k : nat)
    (m : nat * (Gauge * float64)) :
  run schedule (serving c replies n gs) = Some st ->
  In m (received (scrape k st)) -> (k < n)%nat.
Proof.
  intros Hrun Hin. unfold scrape in Hin.
  destruct (scrapes st !! k) as [sc|] eqn:Hk; [|destruct Hin].
  apply lookup_lt_Some in Hk. rewrite (run_scrapes_length _ _ _ Hrun) in Hk.
  unfold serving in Hk. simpl in Hk. now rewrite length_map, length_seq in Hk.
Qed.

(** Counting the items of a list by their tag. *)
Lemma filter_tag_split {A} (n : nat) (l : list (nat * A)) :
  length (filter (fun m => (fst m < S n)%nat) l)
  = (length (filter (fun m => (fst m < n)%nat) l)
     + length (filter (fun m => fst m = n) l))%nat.
Proof.
  induction l as [|[j a] l IH]; [reflexivity|].
  rewrite !filter_cons. simpl.
  repeat case_decide; simpl; rewrite IH; lia.
Qed.

Lemma count_by_tag {A} (n : nat) (l : list (nat * A)) :
  (forall i, (i < n)%nat -> length (filter (fun m => fst m = i) l) = 1%nat) ->
  length (filter (fun m => (fst m < n)%nat) l) = n.
Proof.
  induction n as [|n IH]; intros Hone.
  - clear Hone. induction l as [|[j a] l IHl]; [reflexivity|].
    rewrite filter_cons_False by (simpl; lia). exact IHl.
  - rewrite filter_tag_split, IH by (intros i Hi; apply Hone; lia).
    rewrite Hone by lia. lia.
Qed.

Lemma filter_all {A} (P : A -> Prop) `{forall x, Decision (P x)} (l : list A) :
  Forall P l -> filter P l = l.
Proof.
  induction 1 as [|x l Hx _ IH]; [reflexivity|].
  rewrite filter_cons_True by assumption. now rewrite IH.
Qed.

Lemma length_filter_map {A B} (f : A -> B) (P : B -> Prop) `{forall y, Decision (P y)}
    (l : list A) :
  length (filter P (map f l)) = length (filter (fun x => P (f x)) l).
Proof.
  induction l as [|x l IH]; [reflexivity|].
  simpl map. rewrite !filter_cons. destruct (decide (P (f x))); simpl; now rewrite IH.
Qed.

Lemma metrics_one_up (o : Outlet) (p : TasmotaStatus + ProbeError) :
  length (filter (fun g : Gauge => fst g = upGauge) (map fst (metrics o p))) = 1%nat.
Proof. destruct p; reflexivity. Qed.


Lemma upReceived_from (sc : Scrape) (i : nat) :
  length (filter (fun m => fst m = i) (upReceived sc))
  = length (filter (fun g : Gauge => fst g = upGauge) (map fst (receivedFrom i sc))).
Proof.
  unfold upReceived, receivedFrom. rewrite map_map.
  rewrite (length_filter_map (fun x : nat * (Gauge * float64) => fst (snd x))).
  rewrite !list_filter_filter. f_equal. apply list_filter_iff. tauto.
Qed.

Lemma scrape_up_count (l : list Outlet) (replies : nat -> nat -> Reply)
    (n : nat) (gs : Gauges) (schedule : list Move) (st : State) (k : nat) :
  run schedule (serving (NewTasmotaCollector l) replies n gs) = Some st ->
  finished k st ->
  length (upReceived (scrape k st)) = length l.
Proof.
  intros Hrun Hfin.
  pose proof (run_tagged (NewTasmotaCollector l) replies n gs schedule st k Hrun) as Htag.
  simpl in Htag.
  rewrite <- (filter_all (fun m => (fst m < length l)%nat) (upReceived (scrape k st))).
  2:{ unfold upReceived. apply Forall_forall. intros m Hm.
      apply list_elem_of_filter in Hm as [_ Hm]. rewrite Forall_forall in Htag.
      now apply Htag. }
  apply count_by_tag. intros i Hi.
  destruct (lookup_lt_is_Some_2 l i Hi) as [o Ho].
  rewrite upReceived_from.
  destruct (scrape_received l replies n gs schedule st k i o Hrun Hfin Ho)
    as (_ & -> & _).
  apply metrics_one_up.
Qed.

Lemma map_fst_combine {A B} (l : list (A * B)) :
  l = combine (map fst l) (map snd l).
Proof. induction l as [|[a b] l IH]; simpl; [reflexivity|]. now rewrite <- IH. Qed.


Lemma run_outcome (schedule : list Move) (st : State) :
  runs schedule st = true -> run schedule st = Some (outcome schedule st).
Proof. unfold runs, outcome. destruct (run schedule st); [reflexivity|discriminate]. Qed.

Lemma is_finished_finished (k : nat) (st : State) :
  is_finished k st = true -> finished k st.
Proof.
  unfold is_finished, finished. intros H. apply andb_prop in H as [Hp H].
  apply negb_true_iff in Hp. split; [exact Hp|].
  destruct (scrapes st !! k) as [sc|]; [|discriminate]. exists sc.
  split; [reflexivity|]. apply andb_prop in H as [Hg Hc]. split.
  - apply Forall_forall. intros rest Hin. rewrite forallb_forall in Hg.
    apply list_elem_of_In in Hin. specialize (Hg rest Hin). now destruct rest.
  - now destruct (ch sc).
Qed.

(** ** The claims about the collector *)

(** C7, as the specification states it, fails: [parseOutlets] accepts an
    entry whose name is the byte 0xFF, which is not valid UTF-8; with that
    outlet registered, the goroutine of [Collect] panics in
    [WithLabelValues] at its first move, whatever the probe returned: the
    process ends, no call of [Collect] is ever over and no sink ever takes an
    observation. *)
Lemma Collect_panics :
  parseOutlets garbled_flag = [garbled_outlet] /\
  utf8.ValidString (Name garbled_outlet) = false /\
  (exists st,
      run [Run 0 0] (serving (NewTasmotaCollector [garbled_outlet])
                       (fun _ _ => Body 200 (Some (reading_body 45.2%float 42.5%float)))
                       1 ∅) = Some st /\
      panicked st = true) /\
  (forall (replies : nat -> nat -> Reply) (requests : nat) (gs : Gauges)
          (schedule : list Move) (st : State) (k : nat),
      run schedule (serving (NewTasmotaCollector [garbled_outlet]) replies requests gs)
      = Some st ->
      ~ finished k st /\
      observationsOf (NewTasmotaCollector [garbled_outlet]) 0 (scrape k st) = []).
Proof.
  split; [vm_compute; reflexivity|]. split; [vm_compute; reflexivity|]. split.
  - eexists. split; [vm_compute; reflexivity|reflexivity].
  - intros replies requests gs schedule st k Hrun.
    destruct (decide (k < requests)%nat) as [Hk|Hk].
    + pose proof (serving_idle (NewTasmotaCollector [garbled_outlet]) replies requests gs
                    k 0 garbled_outlet Hk eq_refl) as Hidle.
      destruct (goroutine_panics [garbled_outlet] garbled_outlet
                  (probeTasmota (replies k 0%nat)) ltac:(vm_compute; reflexivity))
        as (rest & E).
      rewrite E in Hidle.
      pose proof (run_mute k 0 rest schedule _ st Hrun Hidle) as Hmute.
      split; [now apply (mute_unfinished k 0 rest)|].
      destruct Hmute as (sc & Hsc & _ & Hrecv & _).
      unfold observationsOf, scrape. now rewrite Hsc, Hrecv.
    + assert (scrapes st !! k = None) as Hnone.
      { apply lookup_ge_None. rewrite (run_scrapes_length _ _ _ Hrun).
        unfold serving. simpl. rewrite length_map, length_seq. lia. }
      split.
      * intros (_ & sc & Hsc & _). congruence.
      * unfold observationsOf, scrape. now rewrite Hnone.
Qed.

(** C7, amended: when the names of the registered outlets are all valid
    UTF-8, then whatever becomes of each probe and however many requests are
    served at the same time, no goroutine panics and every call of [Collect]
    in progress can be run to its end ([Collect] returns no error); and when
    a call is over its sink has taken exactly one reachability observation
    from the goroutine of each registered outlet, labelled with the name of
    that outlet: as many reachability observations as registered outlets. *)
Theorem Collect_infallible (outlets_ : list Outlet) (replies : nat -> nat -> Reply)
    (requests : nat) (gs : Gauges) :
  (Forall (fun o => utf8.ValidString (Name o) = true) outlets_ ->
   forall schedule st,
     run schedule (serving (NewTasmotaCollector outlets_) replies requests gs) = Some st ->
     panicked st = false /\
     exists schedule' st',
       run schedule' st = Some st' /\
       forall k, (k < requests)%nat -> finished k st') /\
  (forall schedule st k,
      run schedule (serving (NewTasmotaCollector outlets_) replies requests gs) = Some st ->
      finished k st ->
      (forall i o,
          outlets_ !! i = Some o ->
          exists v,
            named "tasmota_up"
              (observationsOf (NewTasmotaCollector outlets_) i (scrape k st))
            = [gauge_obs "tasmota_up" o v]) /\
      length (upReceived (scrape k st)) = length outlets_).
Proof.
  split.
  - intros Hvalid schedule st Hrun. split.
    + now destruct (run_panic_free _ _ _ Hrun
                      (serving_panic_free outlets_ replies requests gs Hvalid) eq_refl).
    + now apply (serving_can_finish outlets_ replies requests gs schedule).
  - intros schedule st k Hrun Hfin. split.
    + intros i o Ho.
      destruct (scrape_received _ replies requests gs schedule st k i o Hrun Hfin Ho)
        as (_ & Hg & _).
      unfold observationsOf. rewrite (map_fst_combine (receivedFrom i (scrape k st))), Hg.
      pose proof (f_equal (@length _) Hg) as Hlen. rewrite !length_map in Hlen.
      rewrite <- (length_map snd) in Hlen.
      generalize dependent (map snd (receivedFrom i (scrape k st))). intros vs Hlen.
      destruct (probeTasmota (replies k i)) as [status|err]; simpl in Hlen.
      * do 12 (destruct vs as [|? vs]; [discriminate Hlen|]).
        destruct vs; [|discriminate Hlen]. eexists. vm_compute. reflexivity.
      * destruct vs as [|v [|? ?]]; try discriminate Hlen.
        eexists. vm_compute. reflexivity.
    + apply (scrape_up_count outlets_ replies requests gs schedule st k Hrun Hfin).
Qed.

Lemma Collect_infallible_witness :
  (exists schedule' st',
      run schedule' (serving (NewTasmotaCollector [test_outlet; failing_outlet])
                       (busy_replies 45.2%float) 2 ∅) = Some st' /\
      forall k, (k < 2)%nat -> finished k st') /\
  length (upReceived
            (scrape 0
               (outcome busy_up
                  (serving (NewTasmotaCollector [test_outlet; failing_outlet])
                     (busy_replies 45.2%float) 2 ∅)))) = 2%nat.
Proof.
  split.
  - apply (proj1 (Collect_infallible [test_outlet; failing_outlet]
                    (busy_replies 45.2%float) 2 ∅)
             ltac:(repeat constructor) [] _ eq_refl).
  - apply (proj2 (Collect_infallible [test_outlet; failing_outlet]
                    (busy_replies 45.2%float) 2 ∅) busy_up).
    + apply run_outcome. vm_compute. reflexivity.
    + apply is_finished_finished. vm_compute. reflexivity.
Defined.













(** * Further properties of the code *)

(** ** The registry parser *)

Lemma Split_piece (s : bytes) (sep : ascii) (p : bytes) :
  In p (strings.Split s sep) -> forall c, In c p -> In c s /\ c <> sep.
Proof.
  revert p. induction s as [|c0 s IH]; simpl; intros p Hp c Hc.
  - destruct Hp as [<-|[]]. destruct Hc.
  - destruct (Ascii.eqb_spec c0 sep) as [->|Hne].
    + destruct Hp as [<-|Hp]; [destruct Hc|].
      destruct (IH p Hp c Hc). auto.
    + pose proof (Split_nonempty s sep) as Hnil.
      destruct (strings.Split s sep) as [|q qs]; [contradiction|].
      destruct Hp as [<-|Hp].
      * destruct Hc as [<-|Hc]; [auto|].
        destruct (IH q (or_introl eq_refl) c Hc). auto.
      * destruct (IH p (or_intror Hp) c Hc). auto.
Qed.

Lemma TrimSpace_In (s : bytes) (c : ascii) : In c (strings.TrimSpace s) -> In c s.
Proof.
  destruct (TrimSpace_spec s) as (pre & post & Hs & _ & _).
  intros Hc. rewrite Hs. apply in_or_app. right. apply in_or_app. now left.
Qed.

Lemma parseOutlets_In (s : bytes) (o : Outlet) :
  In o (parseOutlets s) ->
  exists entry name address,
    In entry (strings.Split s ",") /\
    strings.Split (strings.TrimSpace entry) ":" = [name; address] /\
    Name o = strings.TrimSpace name /\ IP o = strings.TrimSpace address /\
    Name o <> [] /\ IP o <> [].
Proof.
  rewrite parseOutlets_spec_parse. unfold spec_parse. intros Hin.
  apply list_elem_of_In, list_elem_of_omap in Hin as (entry & Hentry & Hspec).
  apply list_elem_of_In in Hentry. unfold spec_entry in Hspec.
  destruct (strings.Split (strings.TrimSpace entry) ":")
    as [|name [|address [|? ?]]] eqn:Hsplit; try discriminate.
  destruct (strings.TrimSpace name) as [|c1 n] eqn:Hn; [discriminate|].
  destruct (strings.TrimSpace address) as [|c2 a] eqn:Ha; [discriminate|].
  simpl in Hspec. injection Hspec as <-.
  exists entry, name, address. simpl. rewrite Hn, Ha.
  repeat split; try assumption; try reflexivity; discriminate.
Qed.

(** X1: every outlet [parseOutlets] returns has a non-empty name and a
    non-empty address, and neither contains a comma or a colon. *)
Theorem parseOutlets_fields (s : bytes) (o : Outlet) :
  In o (parseOutlets s) ->
  Name o <> [] /\ IP o <> [] /\
  ~ In ","%char (Name o) /\ ~ In ":"%char (Name o) /\
  ~ In ","%char (IP o) /\ ~ In ":"%char (IP o).
Proof.
  intros Hin.
  destruct (parseOutlets_In s o Hin)
    as (entry & name & address & Hentry & Hsplit & -> & -> & Hn & Ha).
  assert (forall p c, In p [name; address] -> In c (strings.TrimSpace p) ->
                      c <> ":"%char /\ c <> ","%char) as Hclean.
  { intros p c Hp Hc. apply TrimSpace_In in Hc. rewrite <- Hsplit in Hp.
    destruct (Split_piece _ _ _ Hp c Hc) as [Hc' Hcolon]. split; [exact Hcolon|].
    apply TrimSpace_In in Hc'. now destruct (Split_piece _ _ _ Hentry c Hc'). }
  split; [exact Hn|]. split; [exact Ha|].
  repeat split; intros Hc;
    first [ destruct (Hclean name _ ltac:(simpl; auto) Hc); congruence
          | destruct (Hclean address _ ltac:(simpl; auto) Hc); congruence ].
Qed.

Lemma parseOutlets_fields_witness :
  Name {| Name := "livingroom"; IP := "192.168.1.100" |} <> [] /\
  ~ In ":"%char (IP {| Name := "livingroom"; IP := "192.168.1.100" |}).
Proof.
  destruct (parseOutlets_fields " livingroom : 192.168.1.100 , bedroom : 192.168.1.101 "
              {| Name := "livingroom"; IP := "192.168.1.100" |})
    as (Hn & _ & _ & _ & _ & Hc).
  - vm_compute. left. reflexivity.
  - split; assumption.
Defined.

Lemma omap_length {A B} (f : A -> option B) (l : list A) :
  (length (omap f l) <= length l)%nat.
Proof.
  induction l as [|x l IH]; [reflexivity|].
  change (omap f (x :: l))
    with (match f x with Some y => y :: omap f l | None => omap f l end).
  destruct (f x); simpl; lia.
Qed.

(** X2: [parseOutlets] returns at most one outlet per comma-separated entry:
    no more outlets than the input has commas, plus one. *)
Theorem parseOutlets_length (s : bytes) :
  (length (parseOutlets s) <= S (count_occ ascii_dec s ","%char))%nat.
Proof.
  rewrite parseOutlets_spec_parse. unfold spec_parse.
  rewrite <- Split_length. apply omap_length.
Qed.

(** *** Entries made of white space *)

Lemma asciiSpace_low (c : ascii) : strings.asciiSpace c = true -> b2z c < utf8.RuneSelf.
Proof. destruct c as [[] [] [] [] [] [] [] []]; vm_compute; congruence. Qed.

Lemma asciiSpace_IsSpace (c : ascii) :
  strings.asciiSpace c = true -> unicode.IsSpace (b2z c) = true.
Proof. destruct c as [[] [] [] [] [] [] [] []]; vm_compute; congruence. Qed.

Lemma skipASCIISpace_spaces (ws : bytes) :
  Forall (fun c => strings.asciiSpace c = true) ws ->
  strings.skipASCIISpace ws = strings.AtEnd.
Proof.
  induction 1 as [|c ws Hc _ IH]; simpl; [reflexivity|].
  pose proof (asciiSpace_low c Hc) as Hlow.
  destruct (Z.leb_spec utf8.RuneSelf (b2z c)); [lia|]. now rewrite Hc.
Qed.

Lemma parseOutlets_spaces (ws : bytes) :
  Forall (fun c => strings.asciiSpace c = true) ws -> parseOutlets ws = [].
Proof.
  intros Hws. rewrite parseOutlets_single.
  - unfold outlet_of, spec_entry, strings.TrimSpace.
    now rewrite skipASCIISpace_spaces.
  - intros Hin. rewrite Forall_forall in Hws.
    apply list_elem_of_In, Hws in Hin. vm_compute in Hin. discriminate Hin.
Qed.

(** X3: an entry that is empty or made of ASCII white space only costs
    nothing: alone it yields no outlet, and at the start, at the end or in
    the middle of the input it changes nothing to the outlets of the other
    entries. *)
Theorem parseOutlets_blank_entries (ws s1 s2 : bytes) :
  Forall (fun c => strings.asciiSpace c = true) ws ->
  parseOutlets ws = [] /\
  parseOutlets (ws ++ "," ++ s1) = parseOutlets s1 /\
  parseOutlets (s1 ++ "," ++ ws) = parseOutlets s1 /\
  parseOutlets (s1 ++ "," ++ ws ++ "," ++ s2) = parseOutlets (s1 ++ "," ++ s2).
Proof.
  intros Hws. pose proof (parseOutlets_spaces ws Hws) as Hnil.
  split; [exact Hnil|]. split; [|split].
  - now rewrite parseOutlets_app, Hnil.
  - now rewrite parseOutlets_app, Hnil, app_nil_r.
  - now rewrite !parseOutlets_app, Hnil.
Qed.

Lemma parseOutlets_blank_entries_witness :
  parseOutlets ("a:1" ++ "," ++ " 	 " ++ "," ++ "b:2") = parseOutlets ("a:1" ++ "," ++ "b:2").
Proof.
  apply (parseOutlets_blank_entries " 	 " "a:1" "b:2").
  repeat constructor.
Defined.

(** *** What [TrimSpace] leaves at the ends *)

Lemma high_not_space (c : ascii) : utf8.RuneSelf <= b2z c -> strings.asciiSpace c = false.
Proof.
  intros Hh. destruct (strings.asciiSpace c) eqn:Hsp; [|reflexivity].
  apply asciiSpace_low in Hsp. lia.
Qed.

Lemma DecodeRuneInString_solid (c : ascii) (s : bytes) (r : Z) (size : nat) :
  utf8.DecodeRuneInString (c :: s) = (r, size) ->
  unicode.IsSpace r = false ->
  strings.asciiSpace c = false.
Proof.
  intros Hdec Hsp.
  destruct (DecodeRuneInString_spec (c :: s) r size ltac:(discriminate) Hdec)
    as [Hsize [Hh|(_ & Hr & _)]].
  - destruct size as [|size]; [lia|]. simpl in Hh.
    apply Forall_cons in Hh as [Hc _]. now apply high_not_space.
  - destruct (strings.asciiSpace c) eqn:Hc; [|reflexivity].
    apply asciiSpace_IsSpace in Hc. unfold at_ in Hr. simpl in Hr. congruence.
Qed.

Lemma nth_skipn_hd (s : bytes) (k : nat) (c : ascii) (t : bytes) :
  skipn k s = c :: t -> nth k s Ascii.zero = c.
Proof.
  revert s. induction k as [|k IH]; intros s; destruct s as [|c0 s]; simpl;
    try discriminate.
  - now intros [= -> _].
  - apply IH.
Qed.

Lemma DecodeLastRuneInString_solid (p : bytes) (r : Z) (size : nat) :
  p <> [] ->
  utf8.DecodeLastRuneInString p = (r, size) ->
  unicode.IsSpace r = false ->
  strings.asciiSpace (nth (length p - size) p Ascii.zero) = false.
Proof.
  intros Hne Hdec Hsp.
  destruct (DecodeLastRuneInString_spec p r size Hne Hdec)
    as [Hsize [Hh|(-> & Hr & _)]].
  - destruct (skipn (length p - size) p) as [|c t] eqn:Hsk.
    + apply (f_equal (@length ascii)) in Hsk. rewrite length_skipn in Hsk.
      simpl in Hsk. lia.
    + apply Forall_cons in Hh as [Hc _].
      rewrite (nth_skipn_hd _ _ _ _ Hsk). now apply high_not_space.
  - destruct (strings.asciiSpace _) eqn:Hc; [|reflexivity].
    apply asciiSpace_IsSpace in Hc. unfold at_ in Hr. congruence.
Qed.

Lemma indexFunc_loop_solid (fuel : nat) (s : bytes) (i j : nat) :
  strings.indexFunc_loop fuel s i unicode.IsSpace false = Some j ->
  exists k c t, j = (i + k)%nat /\ skipn k s = c :: t /\ strings.asciiSpace c = false.
Proof.
  revert s i. induction fuel as [|fuel IH]; intros s i; simpl; [discriminate|].
  destruct s as [|c t]; [discriminate|].
  destruct (utf8.DecodeRuneInString (c :: t)) as [r size] eqn:Hdec.
  destruct (unicode.IsSpace r) eqn:Hsp; simpl Bool.eqb; cbv iota.
  - intros Hloop. destruct (IH _ _ Hloop) as (k & c' & t' & -> & Hsk & Hc').
    exists (size + k)%nat, c', t'. split; [lia|]. split; [|exact Hc'].
    rewrite <- drop_drop. exact Hsk.
  - intros [= <-]. exists 0%nat, c, t. split; [lia|]. split; [reflexivity|].
    exact (DecodeRuneInString_solid _ _ _ _ Hdec Hsp).
Qed.

Lemma lastIndexFunc_loop_solid (fuel : nat) (s : bytes) (i j : nat) :
  (i <= length s)%nat ->
  strings.lastIndexFunc_loop fuel s i unicode.IsSpace false = Some j ->
  (j < i)%nat /\ strings.asciiSpace (nth j s Ascii.zero) = false.
Proof.
  revert i. induction fuel as [|fuel IH]; intros i Hi; simpl; [discriminate|].
  destruct (Nat.ltb_spec 0 i) as [Hpos|Hzero]; [|discriminate].
  destruct (utf8.DecodeLastRuneInString (firstn i s)) as [r size] eqn:Hdec.
  assert (length (firstn i s) = i) as Hlen by (rewrite length_firstn; lia).
  assert (firstn i s <> []) as Hne.
  { intros E. rewrite E in Hlen. simpl in Hlen. lia. }
  destruct (DecodeLastRuneInString_spec _ _ _ Hne Hdec) as [Hsize _].
  rewrite Hlen in Hsize.
  destruct (unicode.IsSpace r) eqn:Hsp; simpl Bool.eqb; cbv iota.
  - intros Hloop. destruct (IH (i - size)%nat ltac:(lia) Hloop) as [Hj Hc].
    split; [lia|exact Hc].
  - intros [= <-]. split; [lia|].
    pose proof (DecodeLastRuneInString_solid _ _ _ Hne Hdec Hsp) as Hc.
    rewrite Hlen, nth_firstn in Hc.
    destruct (Nat.ltb_spec (i - size) i); [exact Hc|lia].
Qed.

Lemma solid_padded (t : bytes) : solid_head t -> solid_last t -> ~ padded t.
Proof.
  intros Hh Hl (c & rest & Hc & [E|E]).
  - rewrite (Hh c rest E) in Hc. discriminate.
  - rewrite (Hl c rest E) in Hc. discriminate.
Qed.

Lemma firstn_last_byte (s : bytes) (k : nat) (c : ascii) (rest : bytes) :
  (k < length s)%nat -> firstn (S k) s = rest ++ [c] -> c = nth k s Ascii.zero.
Proof.
  intros Hk E.
  assert (length rest = k) as Hlen.
  { apply (f_equal (@length ascii)) in E.
    rewrite length_firstn, length_app in E. change (length [c]) with 1%nat in E. lia. }
  rewrite <- (firstn_skipn (S k) s), E, app_nth1, app_nth2, Hlen, Nat.sub_diag;
    [reflexivity|lia|rewrite length_app; simpl; lia].
Qed.

Lemma TrimLeftFunc_solid (s : bytes) :
  solid_head (strings.TrimLeftFunc s unicode.IsSpace).
Proof.
  unfold strings.TrimLeftFunc, strings.indexFunc. intros c rest.
  destruct (strings.indexFunc_loop _ _ _ _ _) as [j|] eqn:Hloop; [|discriminate].
  destruct (indexFunc_loop_solid _ _ _ _ Hloop) as (k & c' & t & -> & Hsk & Hc').
  simpl. rewrite Hsk. now intros [= <- _].
Qed.

Lemma TrimRightFunc_solid (s : bytes) :
  solid_last (strings.TrimRightFunc s unicode.IsSpace).
Proof.
  unfold strings.TrimRightFunc, strings.lastIndexFunc. intros c rest.
  destruct (strings.lastIndexFunc_loop _ _ _ _ _) as [j|] eqn:Hloop.
  2:{ simpl. now destruct rest. }
  destruct (lastIndexFunc_loop_solid _ _ _ _ (Nat.le_refl _) Hloop) as [Hj Hc].
  destruct (Z.leb_spec utf8.RuneSelf (at_ s j)) as [Hhigh|Hlow].
  - destruct (utf8.DecodeRuneInString (skipn j s)) as [r wid] eqn:Hdec. simpl snd.
    assert (skipn j s <> []) as Hne.
    { intros E. apply (f_equal (@length ascii)) in E.
      rewrite length_skipn in E. simpl in E. lia. }
    destruct (DecodeRuneInString_spec _ _ _ Hne Hdec) as [Hwid Hshape].
    rewrite length_skipn in Hwid.
    assert (Forall high (firstn wid (skipn j s))) as Hh.
    { destruct Hshape as [Hh|(_ & Hr & Hlt)]; [exact Hh|].
      rewrite at_skipn, Nat.add_0_r in Hr. lia. }
    intros E. apply high_not_space.
    assert (firstn (j + wid) s = firstn j s ++ firstn wid (skipn j s)) as Hsplit.
    { rewrite <- (firstn_skipn j s) at 1.
      rewrite firstn_app, length_firstn, firstn_firstn.
      replace (Nat.min (j + wid) j) with j by lia.
      replace (j + wid - Nat.min j (length s))%nat with wid by lia. reflexivity. }
    rewrite Hsplit in E.
    destruct (firstn wid (skipn j s)) as [|h hs] eqn:Hf.
    { apply (f_equal (@length ascii)) in Hf.
      rewrite length_firstn, length_skipn in Hf. simpl in Hf. lia. }
    assert (In c (h :: hs)) as Hin.
    { destruct (exists_last (l := h :: hs) ltac:(discriminate)) as (hs' & c' & Hlast).
      rewrite Hlast, app_assoc in E. apply app_inj_tail in E as [_ <-].
      rewrite Hlast. apply in_or_app. right. now left. }
    rewrite Forall_forall in Hh. apply Hh. now apply list_elem_of_In.
  - replace (j + 1)%nat with (S j) by lia. intros E.
    rewrite (firstn_last_byte s j c rest Hj E). exact Hc.
Qed.

Lemma prefix_solid_head (t post : bytes) : solid_head (t ++ post) -> solid_head t.
Proof. intros H c rest ->. apply (H c (rest ++ post)). reflexivity. Qed.

Lemma skipASCIISpace_rest (s : bytes) :
  match strings.skipASCIISpace s with
  | strings.AtEnd => True
  | strings.NonASCII rest | strings.NonSpace rest =>
      exists c t, rest = c :: t /\ strings.asciiSpace c = false
  end.
Proof.
  induction s as [|c s IH]; simpl; [exact I|].
  destruct (Z.leb_spec utf8.RuneSelf (b2z c)) as [Hh|Hl].
  - exists c, s. split; [reflexivity|now apply high_not_space].
  - destruct (strings.asciiSpace c) eqn:Hc; [exact IH|]. now exists c, s.
Qed.

(** [TrimSpace] leaves no ASCII white space at either end. *)
Lemma TrimSpace_solid (s : bytes) : ~ padded (strings.TrimSpace s).
Proof.
  unfold strings.TrimSpace.
  pose proof (skipASCIISpace_rest s) as H1.
  destruct (strings.skipASCIISpace s) as [|rest|rest].
  - intros (c & t & _ & [E|E]); [discriminate|now destruct t].
  - apply solid_padded; [|apply TrimRightFunc_solid].
    unfold strings.TrimFunc.
    destruct (TrimRightFunc_spec (strings.TrimLeftFunc rest unicode.IsSpace))
      as (post & Ht & _).
    apply (prefix_solid_head _ post). rewrite <- Ht. apply TrimLeftFunc_solid.
  - destruct H1 as (c & t & -> & Hc).
    pose proof (skipASCIISpace_rest (rev (c :: t))) as H2.
    pose proof (skipASCIISpace_spec (rev (c :: t))) as H3.
    destruct (strings.skipASCIISpace (rev (c :: t))) as [|tser|tser].
    + intros (c' & t' & _ & [E|E]); [discriminate|now destruct t'].
    + destruct H3 as (q & Hq & _).
      apply (f_equal (@rev ascii)) in Hq. rewrite rev_involutive, rev_app_distr in Hq.
      apply solid_padded; [|apply TrimRightFunc_solid].
      destruct (TrimRightFunc_spec (rev tser)) as (post & Ht & _).
      apply (prefix_solid_head _ (post ++ rev q)).
      rewrite app_assoc, <- Ht, <- Hq. intros c' rest [= <- _]. exact Hc.
    + destruct H2 as (c' & t' & -> & Hc'). destruct H3 as (q & Hq & _).
      apply (f_equal (@rev ascii)) in Hq. rewrite rev_involutive, rev_app_distr in Hq.
      apply solid_padded.
      * apply (prefix_solid_head _ (rev q)). rewrite <- Hq.
        intros c'' rest [= <- _]. exact Hc.
      * simpl. intros c'' rest E. apply app_inj_tail in E as [_ <-]. exact Hc'.
Qed.

(** X4: the name and the address of every outlet [parseOutlets] returns are
    trimmed: neither starts or ends with an ASCII white-space byte (space,
    tab, line feed, vertical tab, form feed, carriage return). *)
Theorem parseOutlets_trimmed (s : bytes) (o : Outlet) :
  In o (parseOutlets s) -> ~ padded (Name o) /\ ~ padded (IP o).
Proof.
  intros Hin.
  destruct (parseOutlets_In s o Hin) as (_ & name & address & _ & _ & -> & -> & _).
  split; apply TrimSpace_solid.
Qed.

Lemma parseOutlets_trimmed_witness :
  ~ padded (Name {| Name := "bedroom"; IP := "192.168.1.101" |}) /\
  ~ padded (IP {| Name := "bedroom"; IP := "192.168.1.101" |}).
Proof.
  apply (parseOutlets_trimmed " livingroom : 192.168.1.100 ,	bedroom : 192.168.1.101 "
           {| Name := "bedroom"; IP := "192.168.1.101" |}).
  vm_compute. right. left. reflexivity.
Defined.

(** ** The collector during and after a scrape *)

Lemma receivedFrom_In (sc : Scrape) (m : nat * (Gauge * float64)) :
  In m (received sc) <-> In (snd m) (receivedFrom (fst m) sc).
Proof.
  unfold receivedFrom. split.
  - intros Hin. apply in_map. apply list_elem_of_In, list_elem_of_filter.
    split; [reflexivity|now apply list_elem_of_In].
  - intros Hin. apply in_map_iff in Hin as (m' & Hsnd & Hin).
    apply list_elem_of_In, list_elem_of_filter in Hin as [Hfst Hin].
    apply list_elem_of_In in Hin. destruct m as [i x], m' as [i' x'].
    simpl in *. now subst.
Qed.

(** Whatever the sink of a call has taken was sent by the goroutine of a
    registered outlet, and is one of the metrics of that goroutine. *)
Lemma received_origin (l : list Outlet) (replies : nat -> nat -> Reply) (n : nat)
    (gs : Gauges) (schedule : list Move) (st : State) (k : nat)
    (m : nat * (Gauge * float64)) :
  run schedule (serving (NewTasmotaCollector l) replies n gs) = Some st ->
  In m (received (scrape k st)) ->
  exists o,
    l !! fst m = Some o /\
    In (fst (snd m)) (map fst (metrics o (probeTasmota (replies k (fst m))))).
Proof.
  intros Hrun Hin.
  pose proof (run_tagged (NewTasmotaCollector l) replies n gs schedule st k Hrun) as Htag.
  rewrite Forall_forall in Htag.
  pose proof (Htag m ltac:(now apply list_elem_of_In)) as Hlt. simpl in Hlt.
  destruct (lookup_lt_is_Some_2 l (fst m) Hlt) as [o Ho].
  exists o. split; [exact Ho|].
  pose proof (run_within _ _ _ _ _ _ _ _ Hrun Hin) as Hk.
  destruct (scrape_receiving l replies n gs schedule st k (fst m) o Hrun Hk Ho)
    as [(rest & ->) _].
  apply in_or_app. left. apply in_map. now apply receivedFrom_In.
Qed.

Lemma metrics_names (o : Outlet) (p : TasmotaStatus + ProbeError) (g : Gauge) :
  In g (map fst (metrics o p)) ->
  snd g = [Name o] /\
  In (fqName (vec (NewTasmotaCollector []) (fst g))) reachable_names.
Proof.
  intros Hin. split.
  - pose proof (metrics_label o p) as Hl. rewrite Forall_forall in Hl.
    apply in_map_iff in Hin as (m & <- & Hm). apply Hl. now apply list_elem_of_In.
  - destruct g as [v lvs]. destruct v; vm_compute; tauto.
Qed.

(** X5: at every moment, under any interleaving of the goroutines and the
    sinks of the calls of [Collect] in progress, what the sink of a call has
    taken from the goroutine of a registered outlet is a prefix of the
    metrics that goroutine sends, in its order; with the values it set them
    to, when the goroutine was not disturbed: from its first move on, no
    goroutine of another outlet with the same name and no goroutine of the
    same outlet in another call made a move. *)
Theorem Collect_in_order (outlets_ : list Outlet) (replies : nat -> nat -> Reply)
    (requests : nat) (gs : Gauges) (schedule : list Move) (st : State) (k i : nat)
    (o : Outlet) :
  run schedule (serving (NewTasmotaCollector outlets_) replies requests gs) = Some st ->
  outlets_ !! i = Some o ->
  (exists rest,
      map fst (metrics o (probeTasmota (replies k i)))
      = map fst (receivedFrom i (scrape k st)) ++ rest) /\
  (undisturbed (NewTasmotaCollector outlets_) k i schedule = true ->
   exists rest,
     metrics o (probeTasmota (replies k i)) = receivedFrom i (scrape k st) ++ rest).
Proof.
  intros Hrun Ho. destruct (decide (k < requests)%nat) as [Hk|Hk].
  - now apply (scrape_receiving outlets_ replies requests gs schedule st k i o).
  - assert (scrapes st !! k = None) as Hnone.
    { apply lookup_ge_None. rewrite (run_scrapes_length _ _ _ Hrun).
      unfold serving. simpl. rewrite length_map, length_seq. lia. }
    unfold scrape. rewrite Hnone. split; [|intros _]; eexists; reflexivity.
Qed.

Lemma Collect_in_order_witness :
  exists rest,
    metrics test_outlet (probeTasmota (busy_replies 45.2%float 0 0))
    = receivedFrom 0
        (scrape 0
           (outcome (firstn 37 busy_up)
              (serving (NewTasmotaCollector [test_outlet; failing_outlet])
                 (busy_replies 45.2%float) 2 ∅))) ++ rest.
Proof.
  apply (Collect_in_order [test_outlet; failing_outlet] (busy_replies 45.2%float) 2 ∅
           (firstn 37 busy_up)).
  - apply run_outcome. vm_compute. reflexivity.
  - reflexivity.
  - vm_compute. reflexivity.
Defined.

(** X6: at every moment, every observation the sink of a call has taken is
    one of the twelve metrics of the exporter and carries one label,
    ["outlet"], whose value is the name of a registered outlet: the one whose
    goroutine sent it. *)
Theorem Collect_only_registered (outlets_ : list Outlet)
    (replies : nat -> nat -> Reply) (requests : nat) (gs : Gauges)
    (schedule : list Move) (st : State) (k : nat) (m : nat * (Gauge * float64)) :
  run schedule (serving (NewTasmotaCollector outlets_) replies requests gs) = Some st ->
  In m (received (scrape k st)) ->
  exists o,
    outlets_ !! fst m = Some o /\
    labels (observation (NewTasmotaCollector outlets_) (snd m))
    = [("outlet" : bytes, Name o)] /\
    In (metric_name (observation (NewTasmotaCollector outlets_) (snd m)))
       reachable_names.
Proof.
  intros Hrun Hin.
  destruct (received_origin _ replies requests gs schedule st k m Hrun Hin)
    as (o & Ho & Hg).
  exists o. split; [exact Ho|].
  destruct (metrics_names o _ _ Hg) as [Hl Hn].
  destruct m as [i [[v lvs] x]]. simpl in Hl. subst lvs. split.
  - destruct v; reflexivity.
  - exact Hn.
Qed.

Lemma Collect_only_registered_witness :
  exists o,
    [test_outlet; failing_outlet] !! 1%nat = Some o /\
    labels (observation (NewTasmotaCollector [test_outlet; failing_outlet])
              ((upGauge, [Name failing_outlet]), 0%float))
    = [("outlet" : bytes, Name o)] /\
    In (metric_name (observation (NewTasmotaCollector [test_outlet; failing_outlet])
                       ((upGauge, [Name failing_outlet]), 0%float)))
       reachable_names.
Proof.
  apply (Collect_only_registered [test_outlet; failing_outlet] (busy_replies 45.2%float)
           2 ∅ (firstn 37 busy_up)
           (outcome (firstn 37 busy_up)
              (serving (NewTasmotaCollector [test_outlet; failing_outlet])
                 (busy_replies 45.2%float) 2 ∅))
           0%nat (1%nat, ((upGauge, [Name failing_outlet]), 0%float))).
  - apply run_outcome. vm_compute. reflexivity.
  - vm_compute. right. left. reflexivity.
Defined.

(** *** [Describe] and [Collect] *)

Lemma Describe_vec (c : TasmotaCollector) (g : GaugeVec) : In (vec c g) (Describe c).
Proof. destruct g; simpl; tauto. Qed.

(** X7: [Describe] announces what [Collect] sends.  It sends twelve
    descriptors with twelve different names, each with the one label
    ["outlet"]; and every observation the sink of a call takes has the name
    and exactly the label names of one of them. *)
Theorem Describe_covers_Collect (outlets_ : list Outlet) :
  length (Describe (NewTasmotaCollector outlets_)) = 12%nat /\
  NoDup (map fqName (Describe (NewTasmotaCollector outlets_))) /\
  Forall (fun d => variableLabels d = ["outlet" : bytes])
         (Describe (NewTasmotaCollector outlets_)) /\
  (forall (replies : nat -> nat -> Reply) (requests : nat) (gs : Gauges)
          (schedule : list Move) (st : State) (k : nat)
          (m : nat * (Gauge * float64)),
      run schedule (serving (NewTasmotaCollector outlets_) replies requests gs)
      = Some st ->
      In m (received (scrape k st)) ->
      exists d,
        In d (Describe (NewTasmotaCollector outlets_)) /\
        metric_name (observation (NewTasmotaCollector outlets_) (snd m)) = fqName d /\
        map fst (labels (observation (NewTasmotaCollector outlets_) (snd m)))
        = variableLabels d).
Proof.
  split; [reflexivity|]. split; [|split].
  - simpl. repeat (apply NoDup_cons_2;
                   [rewrite ?elem_of_cons, elem_of_nil; vm_compute;
                    intuition discriminate|]).
    apply NoDup_nil_2.
  - repeat constructor.
  - intros replies requests gs schedule st k m Hrun Hin.
    destruct (received_origin _ replies requests gs schedule st k m Hrun Hin)
      as (o & Ho & Hg).
    destruct (metrics_names o _ _ Hg) as [Hl _].
    exists (vec (NewTasmotaCollector outlets_) (fst (fst (snd m)))).
    split; [apply Describe_vec|]. split; [reflexivity|].
    destruct m as [i [[v lvs] x]]. simpl in Hl. subst lvs.
    destruct v; reflexivity.
Qed.

(** *** How many metrics a scrape delivers *)

Lemma count_by_tag_sum {A} (f : nat -> nat) (n : nat) (l : list (nat * A)) :
  (forall i, (i < n)%nat -> length (filter (fun m => fst m = i) l) = f i) ->
  length (filter (fun m => (fst m < n)%nat) l) = sum_list_with f (seq 0 n).
Proof.
  induction n as [|n IH]; intros Hf.
  - clear Hf. induction l as [|[j a] l IHl]; [reflexivity|].
    rewrite filter_cons_False by (simpl; lia). exact IHl.
  - rewrite filter_tag_split, IH by (intros i Hi; apply Hf; lia).
    rewrite Hf by lia. rewrite seq_S, sum_list_with_app. simpl. lia.
Qed.

Lemma sum_list_bounds (f : nat -> nat) (lo hi : nat) (l : list nat) :
  (forall i, (lo <= f i <= hi)%nat) ->
  (lo * length l <= sum_list_with f l <= hi * length l)%nat.
Proof.
  intros Hf. induction l as [|i l IH]; simpl; [lia|]. specialize (Hf i). lia.
Qed.

(** X8: when a call of [Collect] is over its sink has taken, in all, twelve
    metrics for each outlet whose probe succeeded and one for each outlet
    whose probe failed: never fewer metrics than there are outlets, never
    more than twelve times as many. *)
Theorem Collect_total (outlets_ : list Outlet) (replies : nat -> nat -> Reply)
    (requests : nat) (gs : Gauges) (schedule : list Move) (st : State) (k : nat) :
  run schedule (serving (NewTasmotaCollector outlets_) replies requests gs) = Some st ->
  finished k st ->
  length (received (scrape k st))
  = sum_list_with (observationCount (replies k)) (seq 0 (length outlets_)) /\
  (length outlets_ <= length (received (scrape k st)) <= 12 * length outlets_)%nat.
Proof.
  intros Hrun Hfin.
  assert (length (received (scrape k st))
          = sum_list_with (observationCount (replies k)) (seq 0 (length outlets_))) as E.
  { pose proof (run_tagged (NewTasmotaCollector outlets_) replies requests gs schedule st k
                  Hrun) as Htag.
    simpl in Htag.
    rewrite <- (filter_all (fun m => (fst m < length outlets_)%nat)
                  (received (scrape k st)) Htag) at 1.
    apply count_by_tag_sum. intros i Hi.
    destruct (lookup_lt_is_Some_2 outlets_ i Hi) as [o Ho].
    destruct (scrape_received outlets_ replies requests gs schedule st k i o
                Hrun Hfin Ho) as (_ & Hg & _).
    apply (f_equal (@length _)) in Hg. unfold receivedFrom in Hg.
    rewrite !length_map in Hg. rewrite Hg. unfold observationCount.
    destruct (probeTasmota (replies k i)); reflexivity. }
  split; [exact E|]. rewrite E.
  pose proof (sum_list_bounds (observationCount (replies k)) 1 12
                (seq 0 (length outlets_))) as Hb.
  rewrite length_seq in Hb. cut (1 * length outlets_ <=
    sum_list_with (observationCount (replies k)) (seq 0 (length outlets_))
    <= 12 * length outlets_)%nat; [lia|].
  apply Hb. intros i. unfold observationCount.
  destruct (probeTasmota (replies k i)); lia.
Qed.

Lemma Collect_total_witness :
  length (received
            (scrape 0
               (outcome busy_up
                  (serving (NewTasmotaCollector [test_outlet; failing_outlet])
                     (busy_replies 45.2%float) 2 ∅))))
  = sum_list_with (observationCount (busy_replies 45.2%float 0))
                  (seq 0 (length [test_outlet; failing_outlet])).
Proof.
  apply (Collect_total [test_outlet; failing_outlet] (busy_replies 45.2%float) 2 ∅
           busy_up).
  - apply run_outcome. vm_compute. reflexivity.
  - apply is_finished_finished. vm_compute. reflexivity.
Defined.

(** *** Outlets that share a name *)

Lemma NoDup_map_In_inj {A B} (f : A -> B) (l : list A) (x y : A) :
  NoDup (map f l) -> In x l -> In y l -> f x = f y -> x = y.
Proof.
  induction l as [|a l IH]; simpl; [tauto|].
  intros Hnd Hx Hy Hxy. apply NoDup_cons in Hnd as [Ha Hnd].
  destruct Hx as [->|Hx], Hy as [->|Hy]; [reflexivity| | |now apply IH].
  - exfalso. apply Ha. rewrite Hxy. apply list_elem_of_In. now apply in_map.
  - exfalso. apply Ha. rewrite <- Hxy. apply list_elem_of_In. now apply in_map.
Qed.

Lemma NoDup_by_tag {A B} (f : A -> B) (l : list (nat * A)) :
  (forall x, In x l ->
             NoDup (map f (map snd (filter (fun m => fst m = fst x) l)))) ->
  (forall x y, In x l -> In y l -> f (snd x) = f (snd y) -> fst x = fst y) ->
  NoDup (map (fun m => f (snd m)) l).
Proof.
  induction l as [|x l IH]; intros Hgroup Hsame; simpl; [apply NoDup_nil_2|].
  apply NoDup_cons_2.
  - intros Hin. apply list_elem_of_In, in_map_iff in Hin as (y & Hfy & Hy).
    pose proof (Hsame x y ltac:(now left) ltac:(now right) (eq_sym Hfy)) as Htag.
    specialize (Hgroup x ltac:(now left)).
    rewrite filter_cons_True in Hgroup by reflexivity. simpl in Hgroup.
    apply NoDup_cons in Hgroup as [Hnot _]. apply Hnot.
    rewrite <- Hfy. apply list_elem_of_In. rewrite map_map.
    apply (in_map (fun m => f (snd m))). apply list_elem_of_In, list_elem_of_filter.
    split; [now symmetry|now apply list_elem_of_In].
  - apply IH.
    + intros y Hy. specialize (Hgroup y ltac:(now right)).
      rewrite filter_cons in Hgroup. destruct (decide (fst x = fst y)); [|exact Hgroup].
      simpl in Hgroup. now apply NoDup_cons in Hgroup as [_ Hgroup].
    + intros y z Hy Hz. apply Hsame; now right.
Qed.

Lemma metrics_up (o : Outlet) (p : TasmotaStatus + ProbeError) :
  In (upGauge, [Name o]) (map fst (metrics o p)).
Proof. destruct p; simpl; tauto. Qed.

(** X9: when a call of [Collect] is over, the metrics its sink has taken are
    pairwise different gauge children exactly when the registered outlets
    have pairwise different names: two outlets under one name make the
    scrape deliver the same metric, with the same label value, more than
    once. *)
Theorem Collect_identities (outlets_ : list Outlet) (replies : nat -> nat -> Reply)
    (requests : nat) (gs : Gauges) (schedule : list Move) (st : State) (k : nat) :
  run schedule (serving (NewTasmotaCollector outlets_) replies requests gs) = Some st ->
  finished k st ->
  (NoDup (identities (scrape k st)) <-> NoDup (map Name outlets_)).
Proof.
  intros Hrun Hfin. unfold identities. split.
  - intros Hnd. apply NoDup_alt. intros i j n Hi Hj.
    rewrite list_lookup_fmap in Hi, Hj.
    destruct (outlets_ !! i) as [oi|] eqn:Hoi; [|discriminate].
    destruct (outlets_ !! j) as [oj|] eqn:Hoj; [|discriminate].
    simpl in Hi, Hj. injection Hi as Hi. injection Hj as Hj.
    assert (forall t o, outlets_ !! t = Some o -> Name o = n ->
            exists v, In (t, ((upGauge, [n]), v)) (received (scrape k st))) as Hup.
    { intros t o Ho Hn.
      destruct (scrape_received outlets_ replies requests gs schedule st k t o
                  Hrun Hfin Ho) as (_ & Hg & _).
      pose proof (metrics_up o (probeTasmota (replies k t))) as Hin.
      rewrite <- Hg, Hn in Hin. apply in_map_iff in Hin as ([g v] & Hgv & Hin).
      simpl in Hgv. subst g. exists v.
      apply (receivedFrom_In (scrape k st) (t, ((upGauge, [n]), v))). exact Hin. }
    destruct (Hup i oi Hoi Hi) as (vi & Hini).
    destruct (Hup j oj Hoj Hj) as (vj & Hinj).
    pose proof (NoDup_map_In_inj _ _ _ _ Hnd Hini Hinj eq_refl) as E.
    now injection E.
  - intros Hnd.
    apply (NoDup_by_tag (fun x : Gauge * float64 => fst x) (received (scrape k st))).
    + intros x Hx.
      destruct (received_origin _ replies requests gs schedule st k x Hrun Hx)
        as (o & Ho & _).
      destruct (scrape_received outlets_ replies requests gs schedule st k (fst x) o
                  Hrun Hfin Ho) as (_ & Hg & _).
      change (NoDup (map fst (receivedFrom (fst x) (scrape k st)))).
      rewrite Hg. apply metrics_NoDup.
    + intros x y Hx Hy Hxy.
      destruct (received_origin _ replies requests gs schedule st k x Hrun Hx)
        as (ox & Hox & Hgx).
      destruct (received_origin _ replies requests gs schedule st k y Hrun Hy)
        as (oy & Hoy & Hgy).
      destruct (metrics_names _ _ _ Hgx) as [Hlx _].
      destruct (metrics_names _ _ _ Hgy) as [Hly _].
      rewrite Hxy, Hly in Hlx. injection Hlx as Hname.
      apply (NoDup_lookup (map Name outlets_) (fst x) (fst y) (Name ox)); [exact Hnd| |].
      * rewrite list_lookup_fmap, Hox. reflexivity.
      * rewrite list_lookup_fmap, Hoy. simpl. now rewrite Hname.
Qed.

Lemma Collect_identities_witness :
  NoDup (identities
           (scrape 0
              (outcome busy_up
                 (serving (NewTasmotaCollector [test_outlet; failing_outlet])
                    (busy_replies 45.2%float) 2 ∅))))
  <-> NoDup (map Name [test_outlet; failing_outlet]).
Proof.
  apply (Collect_identities [test_outlet; failing_outlet] (busy_replies 45.2%float) 2 ∅
           busy_up).
  - apply run_outcome. vm_compute. reflexivity.
  - apply is_finished_finished. vm_compute. reflexivity.
Defined.

(** X10: the observations of an outlet whose goroutine is not disturbed
    (from its first move on, no goroutine of another outlet with the same
    name and no goroutine of the same outlet in another call makes a move)
    depend on the reply to its own probe only: two such calls of [Collect]
    give the same observations for it, in the same order, whatever the
    schedules, whatever the other outlets replied, however many other
    requests are served and whatever values the gauges had before. *)
Theorem Collect_isolated (outlets_ : list Outlet) (i : nat) (o : Outlet)
    (replies replies' : nat -> nat -> Reply) (requests requests' : nat)
    (gs gs' : Gauges) (schedule schedule' : list Move) (st st' : State) (k k' : nat) :
  run schedule (serving (NewTasmotaCollector outlets_) replies requests gs) = Some st ->
  finished k st ->
  run schedule' (serving (NewTasmotaCollector outlets_) replies' requests' gs')
  = Some st' ->
  finished k' st' ->
  outlets_ !! i = Some o ->
  undisturbed (NewTasmotaCollector outlets_) k i schedule = true ->
  undisturbed (NewTasmotaCollector outlets_) k' i schedule' = true ->
  replies k i = replies' k' i ->
  observationsOf (NewTasmotaCollector outlets_) i (scrape k st)
  = observationsOf (NewTasmotaCollector outlets_) i (scrape k' st').
Proof.
  intros Hrun Hfin Hrun' Hfin' Ho Hun Hun' Hreply.
  destruct (scrape_received _ replies requests gs schedule st k i o Hrun Hfin Ho)
    as (_ & _ & Hv).
  destruct (scrape_received _ replies' requests' gs' schedule' st' k' i o Hrun' Hfin' Ho)
    as (_ & _ & Hv').
  unfold observationsOf. now rewrite (Hv Hun), (Hv' Hun'), Hreply.
Qed.

Lemma Collect_isolated_witness :
  observationsOf (NewTasmotaCollector [test_outlet; failing_outlet]) 0
    (scrape 0
       (outcome busy_up
          (serving (NewTasmotaCollector [test_outlet; failing_outlet])
             (busy_replies 45.2%float) 2 ∅)))
  = observationsOf (NewTasmotaCollector [test_outlet; failing_outlet]) 0
      (scrape 0
         (outcome (repeat (Run 0 1) 24 ++ repeat (Run 0 0) 24 ++ repeat (Receive 0) 24)
            (serving (NewTasmotaCollector [test_outlet; failing_outlet])
               (fun _ i => match i with
                           | O => Body 200 (Some (reading_body 45.2%float 42.5%float))
                           | S _ => Body 200 (Some (reading_body 7%float 30%float))
                           end)
               1 (<[(powerGauge, [Name test_outlet]) := 7%float]> ∅)))).
Proof.
  apply (Collect_isolated [test_outlet; failing_outlet] 0 test_outlet
           (busy_replies 45.2%float)
           (fun _ i => match i with
                       | O => Body 200 (Some (reading_body 45.2%float 42.5%float))
                       | S _ => Body 200 (Some (reading_body 7%float 30%float))
                       end)
           2 1 ∅ (<[(powerGauge, [Name test_outlet]) := 7%float]> ∅)
           busy_up
           (repeat (Run 0 1) 24 ++ repeat (Run 0 0) 24 ++ repeat (Receive 0) 24)).
  - apply run_outcome. vm_compute. reflexivity.
  - apply is_finished_finished. vm_compute. reflexivity.
  - apply run_outcome. vm_compute. reflexivity.
  - apply is_finished_finished. vm_compute. reflexivity.
  - reflexivity.
  - vm_compute. reflexivity.
  - vm_compute. reflexivity.
  - reflexivity.
Defined.

(** ** The command *)

Lemma levelOf_valid (logLevel : bytes) :
  levelOf logLevel <> None <->
  In logLevel ["debug" : bytes; "info" : bytes; "warn" : bytes; "error" : bytes].
Proof.
  split.
  - unfold levelOf. intros Hl.
    repeat case_bool_decide; subst; simpl; tauto.
  - intros [<-|[<-|[<-|[<-|[]]]]]; vm_compute; discriminate.
Qed.

Lemma omap_None {A B} (f : A -> option B) (l : list A) :
  (forall x, In x l -> f x = None) -> omap f l = [].
Proof.
  induction l as [|x l IH]; intros Hf; [reflexivity|].
  change (omap f (x :: l))
    with (match f x with Some y => y :: omap f l | None => omap f l end).
  rewrite (Hf x) by now left. apply IH. intros y Hy. apply Hf. now right.
Qed.

Lemma parseOutlets_blank (s : bytes) :
  Forall (fun c => c = ","%char \/ strings.asciiSpace c = true) s ->
  parseOutlets s = [].
Proof.
  intros Hs. rewrite parseOutlets_spec_parse. unfold spec_parse.
  apply omap_None. intros p Hp.
  assert (Forall (fun c => strings.asciiSpace c = true) p) as Hws.
  { apply Forall_forall. intros c Hc. apply list_elem_of_In in Hc.
    destruct (Split_piece _ _ _ Hp c Hc) as [Hin Hne].
    rewrite Forall_forall in Hs. apply list_elem_of_In in Hin.
    destruct (Hs c Hin); [contradiction|assumption]. }
  unfold spec_entry, strings.TrimSpace. now rewrite skipASCIISpace_spaces.
Qed.

(** The scheduler's moves never make a goroutine panic when no goroutine has
    a [Panic] ahead. *)
Lemma play_alive (schedule : list Move) (st : State) :
  panic_free st -> panicked st = false -> panicked (play schedule st) = false.
Proof.
  revert st. induction schedule as [|m schedule IH]; intros st Hfree Hp; [exact Hp|].
  unfold play. simpl. fold (play schedule).
  destruct (step m st) as [st1|] eqn:Hstep; [|now apply IH].
  destruct (step_panic_free m st st1 Hstep Hfree) as [Hfree1 Hp1]. now apply IH.
Qed.

(** X11: [main] gets to serve exactly when the log level is one of [debug],
    [info], [warn], [error] and the outlets flag holds at least one entry
    [parseOutlets] accepts; it then serves on the address of the flag a
    collector of the outlets [parseOutlets] returns, none of which has an
    empty name or address.  The process then ends with status 2 when a
    goroutine of [Collect] panics, which no traffic brings about when the
    names of the outlets are valid UTF-8; otherwise with status 0 when the
    server was closed and with status 1 on any other error of the server.  In
    every other case [main] exits with status 1 before it serves. *)
Theorem main_serves (listenAddr outlets_ logLevel : bytes) (isTerminal : bool)
    (traffic : Traffic) :
  ((exists server status,
       main listenAddr outlets_ logLevel isTerminal traffic = Served server status)
   <-> In logLevel ["debug" : bytes; "info" : bytes; "warn" : bytes; "error" : bytes]
       /\ parseOutlets outlets_ <> []) /\
  (forall server status,
      main listenAddr outlets_ logLevel isTerminal traffic = Served server status ->
      registered server = NewTasmotaCollector (parseOutlets outlets_) /\
      addr server = listenAddr /\
      (forall o, In o (outlets (registered server)) -> Name o <> [] /\ IP o <> []) /\
      (status = 2 <->
       panicked (play (moves traffic)
                   (serving (registered server) (answers traffic) (requests traffic) ∅))
       = true) /\
      (status = 0 <->
       status <> 2 /\ serveError traffic = ErrServerClosed) /\
      (status = 1 <->
       status <> 2 /\ serveError traffic = OtherServeError) /\
      (Forall (fun o => utf8.ValidString (Name o) = true) (parseOutlets outlets_) ->
       status <> 2)).
Proof.
  rewrite <- levelOf_valid. unfold main.
  destruct (levelOf logLevel) as [level|].
  2:{ split; [split|]; [intros (? & ? & [=])|intros [H _]; now destruct H|intros ? ? [=]]. }
  destruct (is_empty outlets_) eqn:Hflag.
  { destruct outlets_; [|discriminate Hflag].
    split; [split|]; [intros (? & ? & [=])|intros [_ H]; now destruct H|intros ? ? [=]]. }
  assert (forall x, In x (parseOutlets outlets_) -> Name x <> [] /\ IP x <> []) as Hall.
  { intros x Hx.
    destruct (parseOutlets_In _ _ Hx) as (_ & _ & _ & _ & _ & _ & _ & Hn & Ha).
    split; assumption. }
  pose proof (fun Hvalid =>
                play_alive (moves traffic)
                  (serving (NewTasmotaCollector (parseOutlets outlets_))
                     (answers traffic) (requests traffic) ∅)
                  (serving_panic_free _ _ _ _ Hvalid) eq_refl) as Halive.
  destruct (parseOutlets outlets_) as [|o os] eqn:Hparse.
  { split; [split|]; [intros (? & ? & [=])|intros [_ H]; now destruct H|intros ? ? [=]]. }
  simpl length. simpl Nat.eqb. cbv iota. split.
  - split; [intros _; split; discriminate|intros _; eauto].
  - intros server status [= <- <-]. cbn [registered addr].
    split; [reflexivity|]. split; [reflexivity|]. split; [exact Hall|].
    destruct (panicked _) eqn:Hp.
    + split; [tauto|]. split; [split; [discriminate|tauto]|].
      split; [split; [discriminate|tauto]|].
      intros Hvalid. specialize (Halive Hvalid). congruence.
    + destruct (serveError traffic); intuition congruence.
Qed.

Lemma main_serves_witness :
  (exists server status,
      main ":8092" "plug:192.168.1.100" "info" false
           {| requests := 1; answers := fun _ => one_down; moves := in_turn 2;
              serveError := ErrServerClosed |}
      = Served server status) /\
  (exists server,
      main ":8092" garbled_flag "info" false
           {| requests := 1; answers := fun _ => one_down; moves := in_turn 2;
              serveError := ErrServerClosed |}
      = Served server 2).
Proof.
  split.
  - apply (proj1 (main_serves ":8092" "plug:192.168.1.100" "info" false _)).
    split; [simpl; tauto|vm_compute; discriminate].
  - exists {| handler := JSONHandler LevelInfo;
              registered := NewTasmotaCollector (parseOutlets garbled_flag);
              addr := ":8092" |}.
    vm_compute. reflexivity.
Defined.

(** X12: when the outlets flag holds nothing but commas and ASCII white
    space, [main] exits with status 1 before it serves, whatever the other
    flags. *)
Theorem main_blank_outlets (listenAddr outlets_ logLevel : bytes) (isTerminal : bool)
    (traffic : Traffic) :
  Forall (fun c => c = ","%char \/ strings.asciiSpace c = true) outlets_ ->
  exists message,
    main listenAddr outlets_ logLevel isTerminal traffic = Refused message.
Proof.
  intros Hblank. unfold main. destruct (levelOf logLevel); [|eauto].
  destruct (is_empty outlets_); [eauto|].
  rewrite (parseOutlets_blank _ Hblank). simpl. eauto.
Qed.

Lemma main_blank_outlets_witness :
  exists message,
    main ":8092" " , ," "debug" true
         {| requests := 0; answers := fun _ => one_down; moves := [];
            serveError := ErrServerClosed |}
    = Refused message.
Proof.
  apply main_blank_outlets.
  repeat (apply List.Forall_cons; [first [left; reflexivity|right; reflexivity]|]).
  apply List.Forall_nil.
Defined.

(** ** The payload: the last member counts *)

Lemma lookupField_keyed {T : Type} (fields : list (field T)) (k n : bytes) :
  existsb (fun f => bool_decide (foldName (name f) = foldName n)) fields = true ->
  foldName k = foldName n ->
  exists f, lookupField fields k = Some f /\ In f fields /\
            foldName (name f) = foldName n.
Proof.
  intros Hex Hk. destruct (lookupField fields k) as [f|] eqn:Hf.
  - apply lookupField_Some in Hf as [Hin Hname]. exists f. rewrite <- Hk. auto.
  - exfalso. unfold lookupField in Hf.
    destruct (find (fun f => bool_decide (name f = k)) fields); [discriminate|].
    apply existsb_exists in Hex as (f & Hin & Hname).
    apply (find_none _ _ Hf) in Hin. rewrite Hk in Hin. congruence.
Qed.

(** What the last member of an object leaves in the field it is addressed
    to. *)
Lemma structStore_last {T A : Type} (get : T -> A) (type : string)
    (fields : list (field T)) (n k : bytes) (ms : list (bytes * Value)) (x : Value)
    (P : A -> Prop) :
  existsb (fun f => bool_decide (foldName (name f) = foldName n)) fields = true ->
  foldName k = foldName n ->
  (forall f, In f fields -> foldName (name f) = foldName n ->
             forall d s, P (get (fst (store f x d s)))) ->
  forall d s, P (get (fst (structStore type fields (JObject (ms ++ [(k, x)])) d s))).
Proof.
  intros Hex Hk Hlast d s. simpl. rewrite fold_left_app. simpl.
  unfold member at 1. simpl.
  destruct (lookupField_keyed fields k n Hex Hk) as (f & -> & Hin & Hname).
  now apply Hlast.
Qed.

Lemma Energy_last (n : bytes) (get : Energy -> float64) (k : bytes)
    (ms : list (bytes * Value)) (v : float64) :
  In (n, get)
     [ ("Total" : bytes, Total); ("Yesterday" : bytes, Yesterday);
       ("Today" : bytes, Today); ("Power" : bytes, Power);
       ("ApparentPower" : bytes, ApparentPower);
       ("ReactivePower" : bytes, ReactivePower); ("Factor" : bytes, Factor);
       ("Voltage" : bytes, Voltage); ("Current" : bytes, Current) ] ->
  foldName k = foldName n ->
  forall d s,
    get (fst (structStore "main.Energy" Energy_fields
                (JObject (ms ++ [(k, JNumber (InRange v))])) d s)) = v.
Proof.
  intros Hn Hk.
  assert (existsb (fun f => bool_decide (foldName (name f) = foldName n))
                  Energy_fields = true) as Hex.
  { pose proof Hn as Hn'. simpl in Hn'.
    repeat (destruct Hn' as [[= <- <-]|Hn']; [vm_compute; reflexivity|]).
    contradiction. }
  apply (structStore_last get "main.Energy" Energy_fields n k ms (JNumber (InRange v))
           (fun a => a = v) Hex Hk).
  intros f Hin He d s. simpl in Hn.
  repeat (destruct Hn as [[= <- <-]|Hn];
          [each_field Hin; try (vm_compute in He; discriminate He);
           rewrite fieldOf_store; destruct d; reflexivity|]).
  contradiction.
Qed.

Lemma ESP32_last (k : bytes) (ms : list (bytes * Value)) (v : float64) :
  foldName k = foldName "Temperature" ->
  forall d s,
    Temperature (fst (structStore "main.ESP32" ESP32_fields
                        (JObject (ms ++ [(k, JNumber (InRange v))])) d s)) = v.
Proof.
  intros Hk.
  assert (existsb (fun f => bool_decide (foldName (name f) = foldName "Temperature"))
                  ESP32_fields = true) as Hex by (vm_compute; reflexivity).
  apply (structStore_last Temperature "main.ESP32" ESP32_fields "Temperature" k ms
           (JNumber (InRange v)) (fun a => a = v) Hex Hk).
  intros f Hin He d s. each_field Hin. rewrite fieldOf_store. destruct d; reflexivity.
Qed.

Lemma StatusSNS_last_ENERGY (n : bytes) (get : Energy -> float64) (k1 k2 : bytes)
    (ms1 ms2 : list (bytes * Value)) (v : float64) :
  In (n, get)
     [ ("Total" : bytes, Total); ("Yesterday" : bytes, Yesterday);
       ("Today" : bytes, Today); ("Power" : bytes, Power);
       ("ApparentPower" : bytes, ApparentPower);
       ("ReactivePower" : bytes, ReactivePower); ("Factor" : bytes, Factor);
       ("Voltage" : bytes, Voltage); ("Current" : bytes, Current) ] ->
  foldName k1 = foldName "ENERGY" ->
  foldName k2 = foldName n ->
  forall d s,
    get (ENERGY
           (fst (structStore "main.StatusSNS" StatusSNS_fields
                   (JObject
                      (ms1 ++ [(k1, JObject (ms2 ++ [(k2, JNumber (InRange v))]))]))
                   d s))) = v.
Proof.
  intros Hn Hk1 Hk2.
  assert (existsb (fun f => bool_decide (foldName (name f) = foldName "ENERGY"))
                  StatusSNS_fields = true) as Hex by (vm_compute; reflexivity).
  apply (structStore_last (fun d => get (ENERGY d)) "main.StatusSNS" StatusSNS_fields
           "ENERGY" k1 ms1 (JObject (ms2 ++ [(k2, JNumber (InRange v))]))
           (fun a => a = v) Hex Hk1).
  intros f Hin He d s. each_field Hin; try (vm_compute in He; discriminate He).
  rewrite fieldOf_store. cbn [fst ENERGY set_ENERGY].
  now apply (Energy_last n).
Qed.

Lemma StatusSNS_last_ESP32 (k1 k2 : bytes) (ms1 ms2 : list (bytes * Value))
    (v : float64) :
  foldName k1 = foldName "ESP32" ->
  foldName k2 = foldName "Temperature" ->
  forall d s,
    Temperature
      (ESP32
         (fst (structStore "main.StatusSNS" StatusSNS_fields
                 (JObject
                    (ms1 ++ [(k1, JObject (ms2 ++ [(k2, JNumber (InRange v))]))]))
                 d s))) = v.
Proof.
  intros Hk1 Hk2.
  assert (existsb (fun f => bool_decide (foldName (name f) = foldName "ESP32"))
                  StatusSNS_fields = true) as Hex by (vm_compute; reflexivity).
  apply (structStore_last (fun d => Temperature (ESP32 d)) "main.StatusSNS"
           StatusSNS_fields "ESP32" k1 ms1
           (JObject (ms2 ++ [(k2, JNumber (InRange v))])) (fun a => a = v) Hex Hk1).
  intros f Hin He d s. each_field Hin; try (vm_compute in He; discriminate He).
  rewrite fieldOf_store. cbn [fst ESP32 set_ESP32].
  now apply ESP32_last.
Qed.

(** X13: the decoder matches keys without regard to case and lets the last
    member count: when the last member of the body is the status section, the
    last member of that one the section of a numeric field, and the last
    member of that one a number for the field, whatever their case and
    whatever comes before them, a probe that succeeds reports that number for
    the field. *)
Theorem probeTasmota_last_member (nf : numericField) (code : Z)
    (k0 k1 k2 : bytes) (ms0 ms1 ms2 : list (bytes * Value)) (v : float64)
    (status : TasmotaStatus) :
  In nf numericFields ->
  foldName k0 = foldName "StatusSNS" ->
  foldName k1 = foldName (section nf) ->
  foldName k2 = foldName (fieldName nf) ->
  probeTasmota
    (Body code
       (Some (JObject
                (ms0 ++
                 [(k0, JObject
                         (ms1 ++
                          [(k1, JObject (ms2 ++ [(k2, JNumber (InRange v))]))]))]))))
  = inl status ->
  read nf status = v.
Proof.
  intros Hnf Hk0 Hk1 Hk2.
  assert (forall d s,
             read nf (fst (structStore "main.TasmotaStatus" TasmotaStatus_fields
                             (JObject
                                (ms0 ++
                                 [(k0, JObject
                                         (ms1 ++
                                          [(k1, JObject
                                                  (ms2 ++ [(k2, JNumber (InRange v))]))]))]))
                             d s)) = v) as Hread.
  { assert (existsb (fun f => bool_decide (foldName (name f) = foldName "StatusSNS"))
                    TasmotaStatus_fields = true) as Hex by (vm_compute; reflexivity).
    apply (structStore_last (read nf) "main.TasmotaStatus" TasmotaStatus_fields
             "StatusSNS" k0 ms0 _ (fun a => a = v) Hex Hk0).
    intros f Hin _ d s. each_field Hin. rewrite fieldOf_store. cbn [fst].
    simpl in Hnf.
    repeat (destruct Hnf as [<-|Hnf];
            [cbn [read section fieldName set_StatusSNS StatusSNS] in *;
             first [ refine (StatusSNS_last_ENERGY _ _ k1 k2 ms1 ms2 v _ Hk1 Hk2 _ _);
                     simpl; tauto
                   | apply (StatusSNS_last_ESP32 k1 k2 ms1 ms2 v Hk1 Hk2) ]|]).
    contradiction. }
  unfold probeTasmota, Unmarshal. specialize (Hread zero_TasmotaStatus None).
  destruct (structStore _ _ _ zero_TasmotaStatus None) as [st [e|]];
    [discriminate|]. now intros [= <-].
Qed.

Lemma probeTasmota_last_member_witness :
  read {| section := "ENERGY"; fieldName := "Power";
          read := fun s => Power (ENERGY (StatusSNS s)) |}
       (fst (Unmarshal
               (Some (JObject
                        ([] ++
                         [("statussns" : bytes,
                           JObject
                             ([("ENERGY" : bytes,
                                JObject [("Power" : bytes, JNumber (InRange 1%float))])] ++
                              [("Energy" : bytes,
                                JObject ([("Power" : bytes, JNumber (InRange 2%float))] ++
                                         [("POWER" : bytes,
                                           JNumber (InRange 45.2%float))]))]))])))
               zero_TasmotaStatus))
  = 45.2%float.
Proof.
  apply (probeTasmota_last_member _ 200 "statussns" "Energy" "POWER" []
           [("ENERGY" : bytes, JObject [("Power" : bytes, JNumber (InRange 1%float))])]
           [("Power" : bytes, JNumber (InRange 2%float))]).
  - simpl. tauto.
  - vm_compute. reflexivity.
  - vm_compute. reflexivity.
  - vm_compute. reflexivity.
  - vm_compute. reflexivity.
Defined.
